(** * Call-session bridge and lead store: a shallow embedding

    The development follows the JavaScript sources:
    - [database.js], the third unnamed file (the lead store:
      [standardizePhoneNumber], [getLead], [addConversation],
      [updateLeadEmail], [updateLeadStatus]);
    - the recording and transcribing media-stream bridge (the second
      document of [admin.js]);
    - the realtime bridge without recording (the first unnamed file);
    - the raw-recording bridge of [indexeeee.js].

    JavaScript strings are sequences of UTF-16 code units, so a string is a
    [list N]; buffers are lists of bytes.  Handlers are written in a small
    state-and-log monad: the state is what the closure variables and the
    database hold, the log is the ordered list of calls made to the
    collaborators (the two sockets, the store, the recorder, timers).

    Part I holds the definitions, Part II the properties. *)

From Stdlib Require Import NArith ZArith List Bool Ascii String Lia.
From stdpp Require Import base option list gmap.
Import ListNotations.

Local Open Scope N_scope.

(** ** JavaScript strings *)

Module JS.

(** A string is its sequence of UTF-16 code units. *)
Abbreviation jsstring := (list N).

(** The string with the code units of an ASCII literal. *)
Definition lit (s : string) : jsstring :=
  List.map N_of_ascii (list_ascii_of_string s).

(** A value that is a string, or [null]/[undefined] ([None]). *)
Abbreviation maybe_string := (option (list N)).

(** [!v] is false exactly for a non-empty string (ToBoolean). *)
Definition truthy (v : maybe_string) : bool :=
  match v with
  | Some (_ :: _) => true
  | _ => false
  end.

Definition in_range (lo hi c : N) : bool := (lo <=? c) && (c <=? hi).

(** [\d] *)
Definition is_digit (c : N) : bool := in_range 48 57 c.
Definition is_upper (c : N) : bool := in_range 65 90 c.
Definition is_lower (c : N) : bool := in_range 97 122 c.
Definition is_alpha (c : N) : bool := is_upper c || is_lower c.
Definition is_alnum (c : N) : bool := is_alpha c || is_digit c.

(** [\w]: [A-Za-z0-9_] *)
Definition is_word (c : N) : bool := is_alnum c || (c =? 95).

(** [\s]: WhiteSpace and LineTerminator code units. *)
Definition is_space (c : N) : bool :=
  in_range 9 13 c || (c =? 32) || (c =? 160) || (c =? 5760)
  || in_range 8192 8202 c || (c =? 8232) || (c =? 8233) || (c =? 8239)
  || (c =? 8287) || (c =? 12288) || (c =? 65279).

(** [a === b] on two strings. *)
Fixpoint eqb (a b : jsstring) : bool :=
  match a, b with
  | [], [] => true
  | x :: a', y :: b' => (x =? y) && eqb a' b'
  | _, _ => false
  end.

(** [a === b] when either may be [null]. *)
Definition maybe_eqb (a b : maybe_string) : bool :=
  match a, b with
  | Some x, Some y => eqb x y
  | None, None => true
  | _, _ => false
  end.

(** A JSON scalar: [null], a number or a string. *)
Inductive jsval :=
| JNull
| JNum (n : Z)
| JStr (s : jsstring).

(** ToBoolean on a scalar. *)
Definition jtruthy (v : jsval) : bool :=
  match v with
  | JNull => false
  | JNum n => negb (n =? 0)%Z
  | JStr s => truthy (Some s)
  end.

(** A [Buffer]: its bytes. *)
Abbreviation Buffer := (list Byte.byte).

(** [s.startsWith(p)] *)
Fixpoint startsWith (s p : jsstring) {struct p} : bool :=
  match p, s with
  | [], _ => true
  | c :: p', d :: s' => (c =? d) && startsWith s' p'
  | _ :: _, [] => false
  end.

(** [s.includes(p)] *)
Fixpoint includes (s p : jsstring) : bool :=
  startsWith s p ||
  match s with
  | [] => false
  | _ :: s' => includes s' p
  end.

(** [s.substring(i, j)] for [i <= j]. *)
Definition substring (i j : nat) (s : jsstring) : jsstring :=
  take (j - i) (drop i s).

End JS.
Export JS.

(** ** database.js: phone canonicalization *)

(** [number.replace(/\D/g, "")] *)
Definition digitsOnly (number : jsstring) : jsstring :=
  List.filter is_digit number.

(** [standardizePhoneNumber(number)]: [null] is [None]. *)
Definition standardizePhoneNumber (number : maybe_string) : maybe_string :=
  if negb (truthy number) then None
  else
    let digits := digitsOnly (default [] number) in
    if (length digits =? 11)%nat && startsWith digits (lit "1") then
      Some (lit "+" ++ digits)
    else if (length digits =? 10)%nat then
      Some (lit "+1" ++ digits)
    else None.

(** The digit characters of an input, in order ([null] has none). *)
Definition digits_of (number : maybe_string) : jsstring :=
  digitsOnly (default [] number).

(** ** Regular expressions

    The two patterns of the sources use character classes, greedy
    repetitions of a class, a word boundary and one capturing group.  The
    matcher below is the backtracking matcher of the language specification
    for that fragment, in continuation-passing style: a position is the
    code unit before it ([None] at the start of the input), its index, and
    the input that remains. *)

Module Regex.

Inductive node :=
| Chr (p : N -> bool)               (* one code unit of a class *)
| Rep (p : N -> bool) (min : nat)   (* [p{min,}], greedy *)
| WordBoundary                      (* [\b] *)
| GroupOpen                         (* [(] of group 1 *)
| GroupClose.                       (* [)] of group 1 *)

Definition regex := list node.

(** Where group 1 opened, and the range it captured. *)
Record captures := { opened : nat; group1 : option (nat * nat) }.

Definition no_captures : captures := {| opened := 0; group1 := None |}.

(** A successful match: the index where it ends, and the captures. *)
Definition result := (nat * captures)%type.

Definition cont := option N -> nat -> jsstring -> captures -> option result.

Definition word_at (c : option N) : bool :=
  match c with
  | Some x => is_word x
  | None => false
  end.

(** [\b] holds between [prev] and [next] when exactly one is a word
    character. *)
Definition is_boundary (prev next : option N) : bool :=
  xorb (word_at prev) (word_at next).

(** The code unit before the position reached by reading [a] from a
    position that [prev] precedes. *)
Definition after (prev : option N) (a : jsstring) : option N :=
  match last a with
  | Some x => Some x
  | None => prev
  end.

(** Greedy repetition: take one more code unit of the class first, and
    only when everything after that fails, stop here. *)
Fixpoint rep (p : N -> bool) (min : nat) (k : cont)
    (prev : option N) (pos : nat) (s : jsstring) (c : captures)
    : option result :=
  let stop := match min with O => k prev pos s c | S _ => None end in
  match s with
  | x :: s' =>
      if p x then
        match rep p (pred min) k (Some x) (S pos) s' c with
        | Some r => Some r
        | None => stop
        end
      else stop
  | [] => stop
  end.

Fixpoint run (r : regex) : cont :=
  match r with
  | [] => fun _ pos _ c => Some (pos, c)
  | Chr p :: r' => fun _ pos s c =>
      match s with
      | x :: s' => if p x then run r' (Some x) (S pos) s' c else None
      | [] => None
      end
  | Rep p min :: r' => rep p min (run r')
  | WordBoundary :: r' => fun prev pos s c =>
      if is_boundary prev (head s) then run r' prev pos s c else None
  | GroupOpen :: r' => fun prev pos s c =>
      run r' prev pos s {| opened := pos; group1 := group1 c |}
  | GroupClose :: r' => fun prev pos s c =>
      run r' prev pos s {| opened := opened c; group1 := Some (opened c, pos) |}
  end.

(** The leftmost start from which the pattern matches. *)
Fixpoint search (r : regex) (prev : option N) (pos : nat) (s : jsstring)
    : option (nat * result) :=
  match run r prev pos s no_captures with
  | Some res => Some (pos, res)
  | None =>
      match s with
      | x :: s' => search r (Some x) (S pos) s'
      | [] => None
      end
  end.

(** What [s.match(r)] gives for a pattern without the [g] flag: [None]
    for [null], else element 0 and the capture of group 1. *)
Record match_array := { matched : jsstring; captured : option jsstring }.

Definition exec (r : regex) (s : jsstring) : option match_array :=
  match search r None 0 s with
  | Some (i, (j, c)) =>
      Some {| matched := substring i j s;
              captured := (fun '(a, b) => substring a b s) <$> group1 c |}
  | None => None
  end.

(** A literal code unit under the [i] flag: ASCII letters match in either
    case; a code unit above 127 never canonicalizes to an ASCII one. *)
Definition chr_i (c : N) : N -> bool := fun x =>
  (x =? c) || (is_lower c && (x =? c - 32)) || (is_upper c && (x =? c + 32)).

Definition literal_i (s : jsstring) : regex := List.map (fun c => Chr (chr_i c)) s.

End Regex.

(** [[A-Za-z0-9._%+-]] *)
Definition local_class (c : N) : bool :=
  is_alnum c || (c =? 46) || (c =? 95) || (c =? 37) || (c =? 43) || (c =? 45).

(** [[A-Za-z0-9.-]] *)
Definition domain_class (c : N) : bool :=
  is_alnum c || (c =? 46) || (c =? 45).

(** [[A-Z|a-z]]: the class also holds the vertical bar. *)
Definition tld_class (c : N) : bool := is_alpha c || (c =? 124).

(** [/\b[A-Za-z0-9._%+-]+@[A-Za-z0-9.-]+\.[A-Z|a-z]{2,}\b/i] *)
Definition emailRegex : Regex.regex :=
  [ Regex.WordBoundary;
    Regex.Rep local_class 1;
    Regex.Chr (N.eqb 64);
    Regex.Rep domain_class 1;
    Regex.Chr (N.eqb 46);
    Regex.Rep tld_class 2;
    Regex.WordBoundary ].

(** [/email:\s*([^\s]+@[^\s]+)/i] *)
Definition emailLabelRegex : Regex.regex :=
  Regex.literal_i (lit "email:") ++
  [ Regex.Rep is_space 0;
    Regex.GroupOpen;
    Regex.Rep (fun c => negb (is_space c)) 1;
    Regex.Chr (N.eqb 64);
    Regex.Rep (fun c => negb (is_space c)) 1;
    Regex.GroupClose ].


(** ** Email-shaped substrings

    What the extraction pattern looks for, said without a matcher: a
    substring [local @ domain . tld] between two word boundaries, with [@]
    at index [a] of the substring and the dot before the top-level label at
    index [b].  The checks are boolean and stop at the first that fails. *)

Module EmailShape.

(** The code unit before index [i] of [text]. *)
Definition before (text : jsstring) (i : nat) : option N :=
  match i with
  | O => None
  | S i' => text !! i'
  end.

Definition is_at (u : jsstring) (i : nat) (c : N) : bool :=
  match u !! i with
  | Some x => x =? c
  | None => false
  end.

(** The three parts of an address. *)
Definition email_parts (l d t : jsstring) : Prop :=
  l <> [] /\ Forall (fun c => local_class c = true) l /\
  d <> [] /\ Forall (fun c => domain_class c = true) d /\
  (2 <= length t)%nat /\ Forall (fun c => tld_class c = true) t.

(** [l @ d . t] *)
Definition address (l d t : jsstring) : jsstring := l ++ 64 :: d ++ 46 :: t.

Definition split_at (u : jsstring) (a b : nat) : bool :=
  if is_at u a 64 then
    if is_at u b 46 then
      if (0 <? a)%nat then
        if (S a <? b)%nat then
          if (b + 3 <=? length u)%nat then
            if forallb local_class (take a u) then
              if forallb domain_class (substring (S a) b u) then
                forallb tld_class (drop (S b) u)
              else false
            else false
          else false
        else false
      else false
    else false
  else false.

Definition email_shaped (u : jsstring) : bool :=
  existsb (fun a => if is_at u a 64
                    then existsb (split_at u a) (seq 0 (length u))
                    else false)
          (seq 0 (length u)).

(** [text.substring(i, j)] is email-shaped and sits between word
    boundaries. *)
Definition occurs (text : jsstring) (ij : nat * nat) : bool :=
  if (ij.1 <=? ij.2)%nat then
    if (ij.2 <=? length text)%nat then
      if Regex.is_boundary (before text ij.1) (text !! ij.1) then
        if Regex.is_boundary (before text ij.2) (text !! ij.2) then
          email_shaped (substring ij.1 ij.2 text)
        else false
      else false
    else false
  else false.

(** Every pair [i <= j <= n]. *)
Definition ranges (n : nat) : list (nat * nat) :=
  List.flat_map (fun i => List.map (pair i) (seq i (S n - i))) (seq 0 (S n)).

(** All the email-shaped substrings of a text, by start then end. *)
Definition email_occurrences (text : jsstring) : list (nat * nat) :=
  List.filter (occurs text) (ranges (length text)).

(** The text holds one address: [ij] is an email-shaped substring and every
    email-shaped substring lies within it (an address such as
    [jane.doe@example.com] also has the email-shaped suffix
    [doe@example.com]). *)
Definition sole_address (text : jsstring) (ij : nat * nat) : bool :=
  occurs text ij &&
  forallb (fun o => (ij.1 <=? o.1)%nat && (o.2 <=? ij.2)%nat) (email_occurrences text).

End EmailShape.

(** ** Calls to the collaborators, and the monad that logs them *)

(** Frames sent on the AI socket ([openAiWs.send]). *)
Inductive ai_command :=
| SessionUpdate
| InputAudioAppend (audio : jsstring)
| SpeechStopped
| InputTextAppend (text : jsstring).

(** Frames sent on the telephony socket ([connection.send]). *)
Inductive twilio_message :=
| OutMedia (streamSid : maybe_string) (payload : jsstring)
| OutMark (streamSid : maybe_string) (name : jsstring)
| OutTts (streamSid : maybe_string) (text : jsstring).

(** What a timer runs when it fires. *)
Inductive timer_task :=
| InitializeSession
| SilencePrompt
| ContinueConversation.

Inductive call :=
| AiSend (m : ai_command)
| TwilioSend (m : twilio_message)
| CallAddConversation (phoneNumber : maybe_string) (content : jsstring) (isAiResponse : bool)
| CallUpdateLeadEmail (phoneNumber : maybe_string) (email : jsstring)
| CallUpdateLeadStatus (phoneNumber : maybe_string) (status : jsstring)
| CallSaveRecording (streamSid : maybe_string) (incoming outgoing : Buffer)
| CallTranscribe (streamSid : maybe_string) (customerNumber : maybe_string) (filePath : jsstring)
| SetTimeout (handle : N) (task : timer_task) (delay : N)
| ClearTimeout (handle : N)
| TimerFired (handle : N) (task : timer_task) (at_time : N).

Module Eff.

(** A computation over a state [S] that returns an [A] and logs calls. *)
Definition M (S A : Type) : Type := S -> A * S * list call.

Definition ret {S A} (a : A) : M S A := fun s => (a, s, []).

Definition bind {S A B} (m : M S A) (k : A -> M S B) : M S B :=
  fun s =>
    let '(a, s1, l1) := m s in
    let '(b, s2, l2) := k a s1 in
    (b, s2, l1 ++ l2).

Definition get {S} : M S S := fun s => (s, s, []).
Definition modify {S} (f : S -> S) : M S unit := fun s => (tt, f s, []).
Definition emit {S} (c : call) : M S unit := fun s => (tt, s, [c]).
Definition when {S} (b : bool) (m : M S unit) : M S unit :=
  if b then m else ret tt.

(** The state and the log a computation ends with. *)
Definition state_of {S A} (r : A * S * list call) : S := r.1.2.
Definition log_of {S A} (r : A * S * list call) : list call := r.2.
Definition value_of {S A} (r : A * S * list call) : A := r.1.1.

End Eff.
Import Eff.

Notation "x <- m ;; k" := (bind m (fun x => k))
  (at level 100, m at next level, right associativity).
Notation "m ;; k" := (bind m (fun _ => k))
  (at level 100, right associativity).

(** ** database.js: the lead store

    The two tables hold the columns the bridge reads or writes; the import
    columns and the wall-clock columns ([last_updated], [timestamp]) are left
    out.  Rows are kept in rowid order, and the two counters are the
    AUTOINCREMENT sequences.

    A write of [last_updated = CURRENT_TIMESTAMP] is therefore not seen
    here: two stores that are equal below may differ in that column, and so
    in the order of a query that sorts by it.  Text is kept as the code
    units handed over.  The engine keeps UTF-8, which gives the same units
    back for well-formed text only: an unpaired surrogate is read back as
    U+FFFD. *)

(** A row of [leads]. *)
Record lead := {
  l_id : N;
  l_name : maybe_string;
  l_phone_number : maybe_string;
  l_alternate_phone : maybe_string;
  l_email : maybe_string;
  l_status : maybe_string
}.

(** A row of [conversations]. *)
Record conversation := {
  c_id : N;
  c_lead_id : N;
  c_content : jsstring;
  c_is_ai_response : bool
}.

Record database := {
  leads : list lead;
  conversations : list conversation;
  leads_seq : N;
  conversations_seq : N
}.

(** [SET email = ?, last_updated = CURRENT_TIMESTAMP], on the columns
    kept. *)
Definition with_email (email : jsstring) (l : lead) : lead :=
  {| l_id := l_id l; l_name := l_name l; l_phone_number := l_phone_number l;
     l_alternate_phone := l_alternate_phone l; l_email := Some email;
     l_status := l_status l |}.

Definition with_status (status : jsstring) (l : lead) : lead :=
  {| l_id := l_id l; l_name := l_name l; l_phone_number := l_phone_number l;
     l_alternate_phone := l_alternate_phone l; l_email := l_email l;
     l_status := Some status |}.

(** [WHERE phone_number = ? OR alternate_phone = ?] *)
Definition lead_matches (phone : jsstring) (l : lead) : bool :=
  maybe_eqb (l_phone_number l) (Some phone) || maybe_eqb (l_alternate_phone l) (Some phone).

(** [UPDATE leads SET ... WHERE ...]: every matching row. *)
Definition update_leads (phone : jsstring) (f : lead -> lead) (db : database) : database :=
  {| leads := List.map (fun l => if lead_matches phone l then f l else l) (leads db);
     conversations := conversations db;
     leads_seq := leads_seq db;
     conversations_seq := conversations_seq db |}.

(** [result.changes] of that update. *)
Definition changes (phone : jsstring) (db : database) : nat :=
  length (List.filter (lead_matches phone) (leads db)).

(** [INSERT INTO leads (phone_number, email, status, last_updated)
    VALUES (?, ?, 'new', CURRENT_TIMESTAMP)] *)
Definition insert_lead (phone email : jsstring) (db : database) : database :=
  {| leads := leads db ++
       [ {| l_id := leads_seq db + 1; l_name := None; l_phone_number := Some phone;
            l_alternate_phone := None; l_email := Some email;
            l_status := Some (lit "new") |} ];
     conversations := conversations db;
     leads_seq := leads_seq db + 1;
     conversations_seq := conversations_seq db |}.

(** [INSERT INTO conversations (lead_id, content, is_ai_response)
    VALUES (?, ?, ?)]; [timestamp] takes its default and is not kept. *)
Definition insert_conversation (lead_id : N) (content : jsstring) (isAi : bool)
    (db : database) : database :=
  {| leads := leads db;
     conversations := conversations db ++
       [ {| c_id := conversations_seq db + 1; c_lead_id := lead_id;
            c_content := content; c_is_ai_response := isAi |} ];
     leads_seq := leads_seq db;
     conversations_seq := conversations_seq db + 1 |}.

(** [getLead(phoneNumber)]: the first matching row, or [null]. *)
Definition getLead (phoneNumber : maybe_string) (db : database) : option lead :=
  match standardizePhoneNumber phoneNumber with
  | None => None
  | Some phone => List.find (lead_matches phone) (leads db)
  end.

(** [updateLeadStatus(phoneNumber, status)] *)
Definition updateLeadStatus (phoneNumber : maybe_string) (status : jsstring)
    : M database unit :=
  emit (CallUpdateLeadStatus phoneNumber status) ;;
  match standardizePhoneNumber phoneNumber with
  | None => ret tt
  | Some phone => modify (update_leads phone (with_status status))
  end.

(** [updateLeadEmail(phoneNumber, email)]: updates the matching rows and, when
    there is none, inserts a new lead; returns the lead read back. *)
Definition updateLeadEmail (phoneNumber : maybe_string) (email : jsstring)
    : M database (option lead) :=
  emit (CallUpdateLeadEmail phoneNumber email) ;;
  match standardizePhoneNumber phoneNumber with
  | None => ret None
  | Some phone =>
      db <- get ;;
      modify (update_leads phone (with_email email)) ;;
      when (changes phone db =? 0)%nat (modify (insert_lead phone email)) ;;
      db' <- get ;;
      ret (getLead (Some phone) db')
  end.

(** [addConversation(phoneNumber, content, isAiResponse)] *)
Definition addConversation (phoneNumber : maybe_string) (content : jsstring)
    (isAiResponse : bool) : M database unit :=
  emit (CallAddConversation phoneNumber content isAiResponse) ;;
  match standardizePhoneNumber phoneNumber with
  | None => ret tt
  | Some phone =>
      db <- get ;;
      match getLead (Some phone) db with
      | None => ret tt
      | Some l =>
          (* Only store meaningful content *)
          if negb (eqb content (lit "User audio received")) || isAiResponse then
            modify (insert_conversation (l_id l) content isAiResponse) ;;
            (* If this is an AI response, check for email *)
            if isAiResponse && includes content (lit "email:") then
              match Regex.exec emailLabelRegex content with
              | Some m =>
                  if truthy (Regex.captured m) then
                    updateLeadEmail (Some phone) (default [] (Regex.captured m)) ;;
                    ret tt
                  else ret tt
              | None => ret tt
              end
            else ret tt
          else ret tt
      end
  end.

(** The email update that [addConversation] makes on its own: for a lead
    that exists, an AI-authored text that contains [email:] followed by a
    token with an [@] inside. *)
Definition label_update (phoneNumber : maybe_string) (content : jsstring)
    (isAiResponse : bool) (db : database) : list (maybe_string * jsstring) :=
  match standardizePhoneNumber phoneNumber with
  | Some phone =>
      match getLead (Some phone) db, Regex.exec emailLabelRegex content with
      | Some _, Some m =>
          if isAiResponse && includes content (lit "email:")
             && truthy (Regex.captured m)
          then [(Some phone, default [] (Regex.captured m))]
          else []
      | _, _ => []
      end
  | None => []
  end.

(** ** The media-stream bridge: state

    [session] holds the variables a [/media-stream] connection closes over;
    [world] adds what the handlers reach beyond them: the database, whether
    the AI socket is open, and the timers of the event loop with a logical
    clock in milliseconds.  A handler is run to its end before the next
    event is taken. *)

Record session := {
  streamSid : maybe_string;
  customerNumber : maybe_string;
  latestMediaTimestamp : jsval;
  lastAssistantItem : maybe_string;
  markQueue : list jsstring;
  responseStartTimestampTwilio : jsval;
  accumulatedText : jsstring;
  customerNumbers : gmap (option (list N)) (option (list N));
  silenceTimeout : option N;
  incomingAudioBuffer : Buffer;
  outgoingAudioBuffer : Buffer
}.

Definition set_streamSid (v : maybe_string) (s : session) : session :=
  {| streamSid := v; customerNumber := customerNumber s;
     latestMediaTimestamp := latestMediaTimestamp s;
     lastAssistantItem := lastAssistantItem s; markQueue := markQueue s;
     responseStartTimestampTwilio := responseStartTimestampTwilio s;
     accumulatedText := accumulatedText s;
     customerNumbers := customerNumbers s; silenceTimeout := silenceTimeout s;
     incomingAudioBuffer := incomingAudioBuffer s;
     outgoingAudioBuffer := outgoingAudioBuffer s |}.

Definition set_customerNumber (v : maybe_string) (s : session) : session :=
  {| streamSid := streamSid s; customerNumber := v;
     latestMediaTimestamp := latestMediaTimestamp s;
     lastAssistantItem := lastAssistantItem s; markQueue := markQueue s;
     responseStartTimestampTwilio := responseStartTimestampTwilio s;
     accumulatedText := accumulatedText s;
     customerNumbers := customerNumbers s; silenceTimeout := silenceTimeout s;
     incomingAudioBuffer := incomingAudioBuffer s;
     outgoingAudioBuffer := outgoingAudioBuffer s |}.

Definition set_latestMediaTimestamp (v : jsval) (s : session) : session :=
  {| streamSid := streamSid s; customerNumber := customerNumber s;
     latestMediaTimestamp := v; lastAssistantItem := lastAssistantItem s;
     markQueue := markQueue s;
     responseStartTimestampTwilio := responseStartTimestampTwilio s;
     accumulatedText := accumulatedText s;
     customerNumbers := customerNumbers s; silenceTimeout := silenceTimeout s;
     incomingAudioBuffer := incomingAudioBuffer s;
     outgoingAudioBuffer := outgoingAudioBuffer s |}.

Definition set_lastAssistantItem (v : maybe_string) (s : session) : session :=
  {| streamSid := streamSid s; customerNumber := customerNumber s;
     latestMediaTimestamp := latestMediaTimestamp s; lastAssistantItem := v;
     markQueue := markQueue s;
     responseStartTimestampTwilio := responseStartTimestampTwilio s;
     accumulatedText := accumulatedText s;
     customerNumbers := customerNumbers s; silenceTimeout := silenceTimeout s;
     incomingAudioBuffer := incomingAudioBuffer s;
     outgoingAudioBuffer := outgoingAudioBuffer s |}.

Definition set_markQueue (v : list jsstring) (s : session) : session :=
  {| streamSid := streamSid s; customerNumber := customerNumber s;
     latestMediaTimestamp := latestMediaTimestamp s;
     lastAssistantItem := lastAssistantItem s; markQueue := v;
     responseStartTimestampTwilio := responseStartTimestampTwilio s;
     accumulatedText := accumulatedText s;
     customerNumbers := customerNumbers s; silenceTimeout := silenceTimeout s;
     incomingAudioBuffer := incomingAudioBuffer s;
     outgoingAudioBuffer := outgoingAudioBuffer s |}.

Definition set_responseStartTimestampTwilio (v : jsval) (s : session) : session :=
  {| streamSid := streamSid s; customerNumber := customerNumber s;
     latestMediaTimestamp := latestMediaTimestamp s;
     lastAssistantItem := lastAssistantItem s; markQueue := markQueue s;
     responseStartTimestampTwilio := v; accumulatedText := accumulatedText s;
     customerNumbers := customerNumbers s; silenceTimeout := silenceTimeout s;
     incomingAudioBuffer := incomingAudioBuffer s;
     outgoingAudioBuffer := outgoingAudioBuffer s |}.

Definition set_accumulatedText (v : jsstring) (s : session) : session :=
  {| streamSid := streamSid s; customerNumber := customerNumber s;
     latestMediaTimestamp := latestMediaTimestamp s;
     lastAssistantItem := lastAssistantItem s; markQueue := markQueue s;
     responseStartTimestampTwilio := responseStartTimestampTwilio s;
     accumulatedText := v; customerNumbers := customerNumbers s;
     silenceTimeout := silenceTimeout s;
     incomingAudioBuffer := incomingAudioBuffer s;
     outgoingAudioBuffer := outgoingAudioBuffer s |}.

Definition set_customerNumbers (v : gmap (option (list N)) (option (list N))) (s : session) : session :=
  {| streamSid := streamSid s; customerNumber := customerNumber s;
     latestMediaTimestamp := latestMediaTimestamp s;
     lastAssistantItem := lastAssistantItem s; markQueue := markQueue s;
     responseStartTimestampTwilio := responseStartTimestampTwilio s;
     accumulatedText := accumulatedText s; customerNumbers := v;
     silenceTimeout := silenceTimeout s;
     incomingAudioBuffer := incomingAudioBuffer s;
     outgoingAudioBuffer := outgoingAudioBuffer s |}.

Definition set_silenceTimeout (v : option N) (s : session) : session :=
  {| streamSid := streamSid s; customerNumber := customerNumber s;
     latestMediaTimestamp := latestMediaTimestamp s;
     lastAssistantItem := lastAssistantItem s; markQueue := markQueue s;
     responseStartTimestampTwilio := responseStartTimestampTwilio s;
     accumulatedText := accumulatedText s;
     customerNumbers := customerNumbers s; silenceTimeout := v;
     incomingAudioBuffer := incomingAudioBuffer s;
     outgoingAudioBuffer := outgoingAudioBuffer s |}.

Definition set_incomingAudioBuffer (v : Buffer) (s : session) : session :=
  {| streamSid := streamSid s; customerNumber := customerNumber s;
     latestMediaTimestamp := latestMediaTimestamp s;
     lastAssistantItem := lastAssistantItem s; markQueue := markQueue s;
     responseStartTimestampTwilio := responseStartTimestampTwilio s;
     accumulatedText := accumulatedText s;
     customerNumbers := customerNumbers s; silenceTimeout := silenceTimeout s;
     incomingAudioBuffer := v; outgoingAudioBuffer := outgoingAudioBuffer s |}.

Definition set_outgoingAudioBuffer (v : Buffer) (s : session) : session :=
  {| streamSid := streamSid s; customerNumber := customerNumber s;
     latestMediaTimestamp := latestMediaTimestamp s;
     lastAssistantItem := lastAssistantItem s; markQueue := markQueue s;
     responseStartTimestampTwilio := responseStartTimestampTwilio s;
     accumulatedText := accumulatedText s;
     customerNumbers := customerNumbers s; silenceTimeout := silenceTimeout s;
     incomingAudioBuffer := incomingAudioBuffer s; outgoingAudioBuffer := v |}.

(** A pending timer of the event loop. *)
Record timer := { handle : N; due : N; task : timer_task }.

Record world := {
  sess : session;
  store : database;
  aiOpen : bool;
  now : N;
  timers : list timer;
  nextTimer : N
}.

Definition on_sess (f : session -> session) (w : world) : world :=
  {| sess := f (sess w); store := store w; aiOpen := aiOpen w; now := now w;
     timers := timers w; nextTimer := nextTimer w |}.

Definition on_store (f : database -> database) (w : world) : world :=
  {| sess := sess w; store := f (store w); aiOpen := aiOpen w; now := now w;
     timers := timers w; nextTimer := nextTimer w |}.

Definition on_aiOpen (f : bool -> bool) (w : world) : world :=
  {| sess := sess w; store := store w; aiOpen := f (aiOpen w); now := now w;
     timers := timers w; nextTimer := nextTimer w |}.

Definition on_now (f : N -> N) (w : world) : world :=
  {| sess := sess w; store := store w; aiOpen := aiOpen w; now := f (now w);
     timers := timers w; nextTimer := nextTimer w |}.

Definition on_timers (f : list timer -> list timer) (w : world) : world :=
  {| sess := sess w; store := store w; aiOpen := aiOpen w; now := now w;
     timers := f (timers w); nextTimer := nextTimer w |}.

Definition on_nextTimer (f : N -> N) (w : world) : world :=
  {| sess := sess w; store := store w; aiOpen := aiOpen w; now := now w;
     timers := timers w; nextTimer := f (nextTimer w) |}.

(** The variables as the connection handler declares them. *)
Definition new_session : session :=
  {| streamSid := None; customerNumber := None; latestMediaTimestamp := JNum 0;
     lastAssistantItem := None; markQueue := []; responseStartTimestampTwilio := JNull;
     accumulatedText := []; customerNumbers := ∅; silenceTimeout := None;
     incomingAudioBuffer := []; outgoingAudioBuffer := [] |}.

(** A connection just accepted, over a database [db]. *)
Definition new_world (db : database) : world :=
  {| sess := new_session; store := db; aiOpen := false; now := 0; timers := [];
     nextTimer := 1 |}.

(** Assign a closure variable. *)
Definition assign (f : session -> session) : M world unit := modify (on_sess f).

(** Run a store operation on the world's database. *)
Definition in_store {A} (m : M database A) : M world A :=
  fun w =>
    let '(a, db, l) := m (store w) in
    (a, on_store (fun _ => db) w, l).
(** ** What the bridge takes from outside

    Node's base64 codec, the outcome of writing a recording and of the
    transcription request, and the two store functions that [admin.js]
    imports from [database.js] but that file does not define.  [None] is a
    thrown exception or a rejected promise. *)

Class Runtime := {
  base64_decode : jsstring -> Buffer;
  base64_encode : Buffer -> jsstring;
  recording_saved : maybe_string -> Buffer -> Buffer -> option jsstring;
  transcription : jsstring -> option jsstring;
  updateCallTranscript : maybe_string -> jsstring -> jsstring -> database -> option database;
  processAIResponseAndUpdateLead : maybe_string -> jsstring -> database -> option database
}.

(** ** Events *)

(** [data.start]: the stream identifier, [customParameters?.customerNumber],
    and the [To] and [to] fields. *)
Record start_event := {
  start_streamSid : maybe_string;
  start_customerNumber : maybe_string;
  start_To : maybe_string;
  start_to : maybe_string
}.

(** A [media] event: [data.streamSid] and the fields of [data.media]. *)
Record media_event := {
  media_streamSid : maybe_string;
  media_timestamp : jsval;
  media_payload : jsstring;
  media_track : maybe_string;
  media_chunk : maybe_string
}.

(** Messages of the telephony socket, by [data.event]. *)
Inductive twilio_event :=
| Start (e : start_event)
| Media (e : media_event)
| Mark
| Stop (streamSid : maybe_string)
| OtherEvent (event : maybe_string).

(** Messages of the AI socket, by [response.type]. *)
Inductive ai_event :=
| TextDelta (delta : maybe_string)
| ContentDone
| AudioDelta (delta : maybe_string) (item_id : maybe_string)
| OtherResponse (type : maybe_string).

(** ** Timers *)

(** [setTimeout(task, delay)]: the handle is fresh. *)
Definition setTimeout (t : timer_task) (delay : N) : M world N :=
  fun w =>
    let h := nextTimer w in
    (h,
     on_nextTimer (fun n => n + 1)
       (on_timers (fun ts => ts ++ [ {| handle := h; due := now w + delay; task := t |} ]) w),
     [SetTimeout h t delay]).

(** [clearTimeout(h)] *)
Definition clearTimeout (h : N) : M world unit :=
  modify (on_timers (List.filter (fun t => negb (handle t =? h)))) ;;
  emit (ClearTimeout h).

Definition pause_prompt : jsstring :=
  lit "There has been a pause in the conversation. Politely ask if there's anything else you can help with or if the customer has any questions.".

Definition continue_prompt : jsstring :=
  lit "Continue the conversation naturally. If there's been a pause, politely ask if there's anything else you can help with.".

(** What each timer runs. *)
Definition run_task (t : timer_task) : M world unit :=
  match t with
  | InitializeSession => emit (AiSend SessionUpdate)
  | SilencePrompt =>
      w <- get ;;
      when (aiOpen w) (emit (AiSend (InputTextAppend pause_prompt)))
  | ContinueConversation => emit (AiSend (InputTextAppend continue_prompt))
  end.

(** The pending timer that fires first: the least due time, and among
    equals the one armed first. *)
Fixpoint earliest (ts : list timer) : option timer :=
  match ts with
  | [] => None
  | t :: ts' =>
      match earliest ts' with
      | Some t' => if due t' <? due t then Some t' else Some t
      | None => Some t
      end
  end.

(** Let the clock reach [T], firing the timers due on the way in order.  No
    task arms a timer, so [n] rounds suffice for [n] pending timers. *)
Fixpoint elapse_rounds (n : nat) (T : N) : M world unit :=
  fun w =>
    match n, earliest (timers w) with
    | S n', Some t =>
        if due t <=? T then
          (modify (on_timers (List.filter (fun t' => negb (handle t' =? handle t)))) ;;
           modify (on_now (fun n => N.max n (due t))) ;;
           emit (TimerFired (handle t) (task t) (due t)) ;;
           run_task (task t) ;;
           elapse_rounds n' T) w
        else modify (on_now (fun n => N.max n T)) w
    | _, _ => modify (on_now (fun n => N.max n T)) w
    end.

Definition elapse (T : N) : M world unit :=
  fun w => elapse_rounds (length (timers w)) T w.

(** ** Closure functions common to [admin.js] and the first unnamed file *)

(** [sendMark(connection, streamSid)] *)
Definition sendMark : M world unit :=
  w <- get ;;
  when (truthy (streamSid (sess w)))
    (emit (TwilioSend (OutMark (streamSid (sess w)) (lit "responsePart"))) ;;
     assign (fun s => set_markQueue (markQueue s ++ [lit "responsePart"]) s)).

(** [handleEndOfSpeech()] *)
Definition handleEndOfSpeech : M world unit :=
  w <- get ;;
  when (aiOpen w) (emit (AiSend SpeechStopped)).

(** [promptAIIfSilent(timeoutMs = 10000)] *)
Definition promptAIIfSilent (timeoutMs : N) : M world unit :=
  w <- get ;;
  match silenceTimeout (sess w) with
  | Some h => clearTimeout h
  | None => ret tt
  end ;;
  h <- setTimeout SilencePrompt timeoutMs ;;
  assign (set_silenceTimeout (Some h)).

(** [openAiWs.on("open", ...)] *)
Definition on_ai_open : M world unit :=
  modify (on_aiOpen (fun _ => true)) ;;
  h <- setTimeout InitializeSession 100 ;;
  ret tt.

(** [response.type === "response.text.delta" && response.delta] *)
Definition on_text_delta (delta : maybe_string) : M world unit :=
  when (truthy delta)
    (assign (fun s => set_accumulatedText (accumulatedText s ++ default [] delta) s)).

(** [response.type === "response.content.done"] *)
Definition on_content_done : M world unit :=
  w <- get ;;
  let aiResponse := accumulatedText (sess w) in
  let customer := customerNumber (sess w) in
  assign (set_accumulatedText []) ;;
  when (truthy customer)
    (in_store (addConversation customer aiResponse true) ;;
     match Regex.exec emailRegex aiResponse with
     | Some emailMatch =>
         in_store (updateLeadEmail customer (Regex.matched emailMatch)) ;;
         ret tt
     | None => ret tt
     end) ;;
  emit (TwilioSend (OutTts (streamSid (sess w)) aiResponse)) ;;
  h <- setTimeout ContinueConversation 5000 ;;
  ret tt.

(** [case "mark"] (the same in the three files) *)
Definition on_mark : M world unit :=
  w <- get ;;
  when (0 <? length (markQueue (sess w)))%nat
    (assign (fun s => set_markQueue (tail (markQueue s)) s)).

(** [if (!customerNumbers.has(k)) customerNumbers.set(k, customerNumber)] *)
Definition remember_customer (k : maybe_string) : M world unit :=
  assign (fun s =>
    set_customerNumbers
      match customerNumbers s !! k with
      | Some _ => customerNumbers s
      | None => <[k := customerNumber s]> (customerNumbers s)
      end s).

(** [customerNumbers.delete(k)] *)
Definition forget_customer (k : maybe_string) : M world unit :=
  assign (fun s => set_customerNumbers (delete k (customerNumbers s)) s).

(** [data.media.track === "inbound" && data.media.chunk === "end"] *)
Definition ends_utterance (e : media_event) : bool :=
  maybe_eqb (media_track e) (Some (lit "inbound"))
  && maybe_eqb (media_chunk e) (Some (lit "end")).

(** ** admin.js: the recording and transcribing bridge *)

Module Admin.
Section Handlers.
Context `{Runtime}.

(** [saveRecording(streamSid, incomingAudioBuffer, outgoingAudioBuffer)]:
    the two files are written and converted; what is kept is that the call
    was made and whether it returned the outgoing file's path. *)
Definition saveRecording (sid : maybe_string) (incoming outgoing : Buffer)
    : M world (option jsstring) :=
  emit (CallSaveRecording sid incoming outgoing) ;;
  ret (recording_saved sid incoming outgoing).

(** [transcribeAndSaveRecording(streamSid, customerNumber, outgoingFilePath)] *)
Definition transcribeAndSaveRecording (sid customer : maybe_string) (path : jsstring)
    : M world unit :=
  emit (CallTranscribe sid customer path) ;;
  match transcription path with
  | None => ret tt
  | Some text =>
      w <- get ;;
      match updateCallTranscript sid (lit "outgoing") text (store w) with
      | None => ret tt
      | Some db1 =>
          match processAIResponseAndUpdateLead sid text db1 with
          | None => modify (on_store (fun _ => db1))
          | Some db2 =>
              modify (on_store (fun _ => db2)) ;;
              in_store (addConversation customer (lit "Outgoing: " ++ text) true)
          end
      end
  end.

(** [case "start"] *)
Definition on_start (e : start_event) : M world unit :=
  assign (set_streamSid (start_streamSid e)) ;;
  assign (set_customerNumber (start_customerNumber e)) ;;
  assign (set_responseStartTimestampTwilio JNull) ;;
  assign (set_latestMediaTimestamp (JNum 0)) ;;
  assign (set_incomingAudioBuffer []) ;;
  assign (set_outgoingAudioBuffer []).

(** [case "media"] *)
Definition on_media (e : media_event) : M world unit :=
  assign (set_latestMediaTimestamp (media_timestamp e)) ;;
  w <- get ;;
  when (aiOpen w)
    (emit (AiSend (InputAudioAppend (media_payload e))) ;;
     assign (fun s => set_incomingAudioBuffer
                        (incomingAudioBuffer s ++ base64_decode (media_payload e)) s)) ;;
  in_store (addConversation (customerNumber (sess w)) (lit "User audio received") false) ;;
  remember_customer (media_streamSid e) ;;
  when (ends_utterance e) handleEndOfSpeech ;;
  promptAIIfSilent 10000.

(** [case "stop"] *)
Definition on_stop (sid : maybe_string) : M world unit :=
  forget_customer sid ;;
  w <- get ;;
  if (0 <? length (outgoingAudioBuffer (sess w)))%nat then
    saved <- saveRecording (streamSid (sess w)) [] (outgoingAudioBuffer (sess w)) ;;
    match saved with
    | Some outgoingFilePath =>
        transcribeAndSaveRecording (streamSid (sess w)) (customerNumber (sess w))
          outgoingFilePath ;;
        in_store (updateLeadStatus (customerNumber (sess w)) (lit "call_completed"))
    | None => ret tt
    end ;;
    assign (set_outgoingAudioBuffer [])
  else ret tt.

(** [connection.on("message", ...)] *)
Definition on_twilio (e : twilio_event) : M world unit :=
  match e with
  | Start e => on_start e
  | Media e => on_media e
  | Mark => on_mark
  | Stop sid => on_stop sid
  | OtherEvent _ => ret tt
  end.

(** [response.type === "response.audio.delta" && response.delta] *)
Definition on_audio_delta (delta item_id : maybe_string) : M world unit :=
  when (truthy delta)
    (w <- get ;;
     let bytes := base64_decode (default [] delta) in
     emit (TwilioSend (OutMedia (streamSid (sess w)) (base64_encode bytes))) ;;
     assign (fun s => set_outgoingAudioBuffer (outgoingAudioBuffer s ++ bytes) s) ;;
     when (negb (jtruthy (responseStartTimestampTwilio (sess w))))
       (assign (fun s => set_responseStartTimestampTwilio (latestMediaTimestamp s) s)) ;;
     when (truthy item_id) (assign (set_lastAssistantItem item_id)) ;;
     sendMark).

(** [openAiWs.on("message", ...)] *)
Definition on_ai (e : ai_event) : M world unit :=
  match e with
  | TextDelta delta => on_text_delta delta
  | ContentDone => on_content_done
  | AudioDelta delta item_id => on_audio_delta delta item_id
  | OtherResponse _ => ret tt
  end.

End Handlers.
End Admin.

(** ** indexeeee.js: the raw-recording bridge

    [initializeSession], [sendMark], [handleEndOfSpeech] and
    [promptAIIfSilent] are placeholders that only write to the console, and
    text responses are only written to the console. *)

Module Indexeeee.
Section Handlers.
Context `{Runtime}.

(** [saveRecording]: two raw files are written. *)
Definition saveRecording (sid : maybe_string) (incoming outgoing : Buffer)
    : M world (option jsstring) :=
  emit (CallSaveRecording sid incoming outgoing) ;;
  ret (recording_saved sid incoming outgoing).

(** [case "media"] *)
Definition on_media (e : media_event) : M world unit :=
  assign (set_latestMediaTimestamp (media_timestamp e)) ;;
  when (maybe_eqb (media_track e) (Some (lit "inbound")))
    (assign (fun s => set_incomingAudioBuffer
                        (incomingAudioBuffer s ++ base64_decode (media_payload e)) s) ;;
     w <- get ;;
     when (aiOpen w) (emit (AiSend (InputAudioAppend (media_payload e))))) ;;
  remember_customer (media_streamSid e).

(** [case "stop"] *)
Definition on_stop (sid : maybe_string) : M world unit :=
  forget_customer sid ;;
  w <- get ;;
  if (0 <? length (incomingAudioBuffer (sess w)))%nat
     || (0 <? length (outgoingAudioBuffer (sess w)))%nat then
    saved <- saveRecording (streamSid (sess w)) (incomingAudioBuffer (sess w))
               (outgoingAudioBuffer (sess w)) ;;
    assign (set_incomingAudioBuffer []) ;;
    assign (set_outgoingAudioBuffer [])
  else ret tt.

(** [connection.on("message", ...)] *)
Definition on_twilio (e : twilio_event) : M world unit :=
  match e with
  | Start e => Admin.on_start e
  | Media e => on_media e
  | Mark => on_mark
  | Stop sid => on_stop sid
  | OtherEvent _ => ret tt
  end.

(** [response.type === "response.audio.delta" && response.delta] *)
Definition on_audio_delta (delta item_id : maybe_string) : M world unit :=
  when (truthy delta)
    (w <- get ;;
     let bytes := base64_decode (default [] delta) in
     emit (TwilioSend (OutMedia (streamSid (sess w)) (base64_encode bytes))) ;;
     assign (fun s => set_outgoingAudioBuffer (outgoingAudioBuffer s ++ bytes) s) ;;
     when (negb (jtruthy (responseStartTimestampTwilio (sess w))))
       (assign (fun s => set_responseStartTimestampTwilio (latestMediaTimestamp s) s)) ;;
     when (truthy item_id) (assign (set_lastAssistantItem item_id))).

(** [openAiWs.on("message", ...)] *)
Definition on_ai (e : ai_event) : M world unit :=
  match e with
  | AudioDelta delta item_id => on_audio_delta delta item_id
  | _ => ret tt
  end.

End Handlers.
End Indexeeee.

(** ** The first unnamed file: the realtime bridge without recording *)

Module Realtime.
Section Handlers.
Context `{Runtime}.

(** [a || b] on values that may be [null]. *)
Definition or_else (a b : maybe_string) : maybe_string :=
  if truthy a then a else b.

(** [case "start"] *)
Definition on_start (e : start_event) : M world unit :=
  assign (set_streamSid (start_streamSid e)) ;;
  let customer := or_else (start_customerNumber e) (or_else (start_To e) (start_to e)) in
  assign (set_customerNumber customer) ;;
  when (truthy customer)
    (let standardized := standardizePhoneNumber customer in
     assign (set_customerNumber standardized) ;;
     assign (fun s => set_customerNumbers
                        (<[start_streamSid e := standardized]> (customerNumbers s)) s) ;;
     emit (TwilioSend (OutTts (start_streamSid e) (lit "Hello! How can I assist you today?")))).

(** [case "media"]: without a customer number the handler returns early. *)
Definition on_media (e : media_event) : M world unit :=
  assign (fun s =>
    set_customerNumber
      (if truthy (customerNumber s) then customerNumber s
       else default None (customerNumbers s !! streamSid s)) s) ;;
  w <- get ;;
  if negb (truthy (customerNumber (sess w))) then ret tt
  else
    assign (set_latestMediaTimestamp (media_timestamp e)) ;;
    when (aiOpen w) (emit (AiSend (InputAudioAppend (media_payload e)))) ;;
    in_store (addConversation (customerNumber (sess w)) (lit "User audio received") false) ;;
    remember_customer (media_streamSid e) ;;
    when (ends_utterance e) handleEndOfSpeech ;;
    promptAIIfSilent 10000.

(** [connection.on("message", ...)] *)
Definition on_twilio (e : twilio_event) : M world unit :=
  match e with
  | Start e => on_start e
  | Media e => on_media e
  | Mark => on_mark
  | Stop sid => forget_customer sid
  | OtherEvent _ => ret tt
  end.

(** [response.type === "response.audio.delta" && response.delta] *)
Definition on_audio_delta (delta item_id : maybe_string) : M world unit :=
  when (truthy delta)
    (w <- get ;;
     emit (TwilioSend (OutMedia (streamSid (sess w))
             (base64_encode (base64_decode (default [] delta))))) ;;
     when (negb (jtruthy (responseStartTimestampTwilio (sess w))))
       (assign (fun s => set_responseStartTimestampTwilio (latestMediaTimestamp s) s)) ;;
     when (truthy item_id) (assign (set_lastAssistantItem item_id)) ;;
     sendMark).

(** [openAiWs.on("message", ...)] *)
Definition on_ai (e : ai_event) : M world unit :=
  match e with
  | TextDelta delta => on_text_delta delta
  | ContentDone => on_content_done
  | AudioDelta delta item_id => on_audio_delta delta item_id
  | OtherResponse _ => ret tt
  end.

End Handlers.
End Realtime.

(** ** One connection's run *)

(** The three copies of the bridge. *)
Inductive bridge :=
| AdminBridge
| RealtimeBridge
| IndexeeeeBridge.

(** What happens to a connection: a message on either socket, the AI socket
    opening or closing, the telephony socket closing, or time passing until
    the clock reads [T]. *)
Inductive input :=
| FromTwilio (e : twilio_event)
| FromAi (e : ai_event)
| AiOpened
| AiClosed
| TwilioClosed
| Elapse (T : N).

Section Run.
Context `{Runtime}.

Definition step (b : bridge) (i : input) : M world unit :=
  match i with
  | FromTwilio e =>
      match b with
      | AdminBridge => Admin.on_twilio e
      | RealtimeBridge => Realtime.on_twilio e
      | IndexeeeeBridge => Indexeeee.on_twilio e
      end
  | FromAi e =>
      match b with
      | AdminBridge => Admin.on_ai e
      | RealtimeBridge => Realtime.on_ai e
      | IndexeeeeBridge => Indexeeee.on_ai e
      end
  | AiOpened =>
      match b with
      | IndexeeeeBridge => modify (on_aiOpen (fun _ => true))
      | _ => on_ai_open
      end
  | AiClosed => modify (on_aiOpen (fun _ => false))
  | TwilioClosed =>
      match b with
      | IndexeeeeBridge => ret tt
      | _ => modify (on_aiOpen (fun _ => false))
      end
  | Elapse T => elapse T
  end.

Fixpoint run (b : bridge) (inputs : list input) : M world unit :=
  match inputs with
  | [] => ret tt
  | i :: inputs' => step b i ;; run b inputs'
  end.

End Run.

Definition is_silence (t : timer) : bool :=
  match task t with
  | SilencePrompt => true
  | _ => false
  end.

(** The silence timers that are pending. *)
Definition silence_timers (w : world) : list timer :=
  List.filter is_silence (timers w).


(** The times at which a silence timer fired, from a log. *)
Fixpoint silence_fires (l : list call) : list N :=
  match l with
  | TimerFired _ SilencePrompt at_time :: l' => at_time :: silence_fires l'
  | _ :: l' => silence_fires l'
  | [] => []
  end.

(** The email updates asked of the store, from a log. *)
Fixpoint email_updates (l : list call) : list (maybe_string * jsstring) :=
  match l with
  | CallUpdateLeadEmail phone email :: l' => (phone, email) :: email_updates l'
  | _ :: l' => email_updates l'
  | [] => []
  end.

(** Whether a log holds a recording or a transcription. *)
Definition records_or_transcribes (c : call) : bool :=
  match c with
  | CallSaveRecording _ _ _ | CallTranscribe _ _ _ => true
  | _ => false
  end.

(** A log without a recording or a transcription. *)
Definition no_records (l : list call) : Prop :=
  existsb records_or_transcribes l = false.

(** The frames sent on the AI socket, from a log. *)
Fixpoint ai_sends (l : list call) : list ai_command :=
  match l with
  | AiSend m :: l' => m :: ai_sends l'
  | _ :: l' => ai_sends l'
  | [] => []
  end.

(** Both audio accumulators are empty. *)
Definition buffers_empty (s : session) : Prop :=
  incomingAudioBuffer s = [] /\ outgoingAudioBuffer s = [].

(** The accumulators that a bridge keeps are empty (the realtime bridge
    keeps none). *)
Definition quiet (b : bridge) (w : world) : Prop :=
  match b with
  | RealtimeBridge => True
  | _ => buffers_empty (sess w)
  end.

(** An input that carries audio: a [media] event or an AI audio delta. *)
Definition carries_audio (i : input) : bool :=
  match i with
  | FromTwilio (Media _) | FromAi (AudioDelta _ _) => true
  | _ => false
  end.



(** ** The properties as the specification words them

    Each is a predicate on one event in one world, so that it can be tested
    where the code departs from it. *)

Module Stated.
Section Properties.
Context `{Runtime}.

(** A turn whose text holds one address makes exactly one email update, for
    the session's customer and with that address. *)
Definition turn_updates_email_once (w : world) (ij : nat * nat) : Prop :=
  let text := accumulatedText (sess w) in
  EmailShape.sole_address text ij = true ->
  email_updates (log_of (on_content_done w)) =
    [(customerNumber (sess w), substring ij.1 ij.2 text)].


(** A [media] event appends its payload and sets the timestamp whatever the
    state of the AI socket, forwards the payload exactly when that socket
    is open, and signals the end of an utterance. *)
Definition media_appends_and_signals (e : media_event) (w : world) : Prop :=
  let r := Admin.on_media e w in
  incomingAudioBuffer (sess (state_of r)) =
    incomingAudioBuffer (sess w) ++ base64_decode (media_payload e) /\
  latestMediaTimestamp (sess (state_of r)) = media_timestamp e /\
  (In (AiSend (InputAudioAppend (media_payload e))) (log_of r) <-> aiOpen w = true) /\
  (ends_utterance e = true -> In (AiSend SpeechStopped) (log_of r)).

(** After [stop] both accumulators are empty, no silence timer is pending,
    and a later [media] event leaves in [incomingAudio] only its own
    payload. *)
Definition stop_clears_session (sid : maybe_string) (w : world) : Prop :=
  let w' := state_of (Admin.on_stop sid w) in
  incomingAudioBuffer (sess w') = [] /\
  outgoingAudioBuffer (sess w') = [] /\
  silence_timers w' = [] /\
  forall e, aiOpen w' = true ->
    incomingAudioBuffer (sess (state_of (Admin.on_media e w'))) =
      base64_decode (media_payload e).

(** A [media] event of a customer with a lead appends a user-authored
    placeholder entry to that lead's conversation history. *)
Definition media_records_user_entry (e : media_event) (w : world) : Prop :=
  forall l, getLead (customerNumber (sess w)) (store w) = Some l ->
  exists c,
    conversations (store (state_of (Admin.on_media e w))) =
      conversations (store w) ++ [c] /\
    c_lead_id c = l_id l /\
    c_content c = lit "User audio received" /\
    c_is_ai_response c = false.


End Properties.
End Stated.

(** ** A concrete runtime and sample data

    The properties below hold for every [Runtime]; the examples run with
    this one.  Its codec is base64 as RFC 4648 defines it, which is what
    Node computes on canonical input; recordings are always written, and
    transcription returns a fixed text. *)

Module Sample.

Definition sextet (c : N) : option N :=
  if is_upper c then Some (c - 65)
  else if is_lower c then Some (c - 71)
  else if is_digit c then Some (c + 4)
  else if c =? 43 then Some 62
  else if c =? 47 then Some 63
  else None.

Definition byte_of (n : N) : Byte.byte := default Byte.x00 (Byte.of_N (n mod 256)).

Fixpoint decode_sextets (l : list N) : list Byte.byte :=
  match l with
  | a :: b :: c :: d :: l' =>
      byte_of (a * 4 + b / 16) :: byte_of (b * 16 + c / 4) :: byte_of (c * 64 + d)
      :: decode_sextets l'
  | [a; b; c] => [byte_of (a * 4 + b / 16); byte_of (b * 16 + c / 4)]
  | [a; b] => [byte_of (a * 4 + b / 16)]
  | _ => []
  end.

Definition decode (s : list N) : list Byte.byte :=
  decode_sextets (omap sextet s).

Definition digit64 (n : N) : N :=
  if n <? 26 then n + 65
  else if n <? 52 then n + 71
  else if n <? 62 then n - 4
  else if n =? 62 then 43 else 47.

Fixpoint encode_bytes (l : list N) : list N :=
  match l with
  | a :: b :: c :: l' =>
      digit64 (a / 4) :: digit64 ((a mod 4) * 16 + b / 16)
      :: digit64 ((b mod 16) * 4 + c / 64) :: digit64 (c mod 64) :: encode_bytes l'
  | [a; b] =>
      [digit64 (a / 4); digit64 ((a mod 4) * 16 + b / 16); digit64 ((b mod 16) * 4); 61]
  | [a] => [digit64 (a / 4); digit64 ((a mod 4) * 16); 61; 61]
  | [] => []
  end.

Definition encode (l : list Byte.byte) : list N :=
  encode_bytes (List.map Byte.to_N l).

#[global] Instance runtime : Runtime :=
  {| base64_decode := decode;
     base64_encode := encode;
     recording_saved := fun _ _ _ => Some (lit "recordings/outgoing.mp3");
     transcription := fun _ => Some (lit "Hello, this is an automated call.");
     updateCallTranscript := fun _ _ _ db => Some db;
     processAIResponseAndUpdateLead := fun _ _ db => Some db |}.

Definition phone : list N := lit "+12626912510".

(** A store with the one lead that [makeOutgoingCall] adds before dialing. *)
Definition db : database :=
  {| leads := [ {| l_id := 1; l_name := Some (lit "Unknown");
                   l_phone_number := Some phone; l_alternate_phone := None;
                   l_email := None; l_status := Some (lit "called") |} ];
     conversations := [];
     leads_seq := 1;
     conversations_seq := 0 |}.

(** A session after its [start] event, for that lead. *)
Definition started : session :=
  set_customerNumber (Some phone) (set_streamSid (Some (lit "MZ1")) new_session).

Definition world_with (s : session) (open : bool) : world :=
  {| sess := s; store := db; aiOpen := open; now := 0; timers := []; nextTimer := 1 |}.

(** An inbound chunk of three zero bytes that ends an utterance. *)
Definition chunk : media_event :=
  {| media_streamSid := Some (lit "MZ1"); media_timestamp := JStr (lit "20");
     media_payload := lit "AAAA"; media_track := Some (lit "inbound");
     media_chunk := Some (lit "end") |}.

(** A session whose AI turn has accumulated [text]. *)
Definition turn_of (text : string) : world :=
  world_with (set_accumulatedText (lit text) started) true.

(** The same turn in a session whose [start] event carried no customer
    number. *)
Definition anonymous_turn_of (text : string) : world :=
  world_with (set_accumulatedText (lit text) (set_streamSid (Some (lit "MZ1")) new_session))
    true.

Definition start_of_call : start_event :=
  {| start_streamSid := Some (lit "MZ1"); start_customerNumber := Some phone;
     start_To := None; start_to := None |}.


End Sample.

(** ** database.js: the rest of the store

    [leads] declares no UNIQUE column besides the AUTOINCREMENT [id], and
    no statement gives [id] a value: an [INSERT OR REPLACE] never meets a
    row to replace, and inserts.  As above, a statement is taken to run: an
    error of the database engine is not modelled. *)

(** *** Text that is read back as written

    The columns are TEXT and the engine keeps them as UTF-8.  A string of
    JS is a sequence of UTF-16 code units: on its way into the store a
    surrogate that is not one of a pair becomes U+FFFD, so that only
    well-formed text is read back as the code units written.  The engine
    also leaves open what an expression makes of text with a NUL in it.
    What is proved below of text read back is stated for text without
    either. *)

(** A leading surrogate, [D800] to [DBFF]. *)
Definition is_high_surrogate (c : N) : bool := (55296 <=? c) && (c <=? 56319).

(** A trailing surrogate, [DC00] to [DFFF]. *)
Definition is_low_surrogate (c : N) : bool := (56320 <=? c) && (c <=? 57343).

(** [String.prototype.isWellFormed()]: every surrogate is one of a pair. *)
Fixpoint isWellFormed (s : jsstring) : bool :=
  match s with
  | [] => true
  | c :: s' =>
      if is_high_surrogate c then
        match s' with
        | d :: s'' => is_low_surrogate d && isWellFormed s''
        | [] => false
        end
      else negb (is_low_surrogate c) && isWellFormed s'
  end.

(** Text that the store gives back code unit for code unit. *)
Definition kept_as_written (s : jsstring) : bool :=
  forallb (fun c => negb (c =? 0)) s && isWellFormed s.

(** What [initializeDatabase] leaves when the file is new: [CREATE TABLE IF
    NOT EXISTS] keeps the tables of a file that has them. *)
Definition empty_database : database :=
  {| leads := []; conversations := []; leads_seq := 0; conversations_seq := 0 |}.

(** [initializeDatabase()], on a file that may not exist yet ([None]). *)
Definition initializeDatabase (file : option database) : database :=
  default empty_database file.

(** [INSERT INTO leads (...) VALUES (...)], for the columns kept here; a
    column the statement does not name is NULL. *)
Definition insert_row (name phone alternate email status : maybe_string)
    (db : database) : database :=
  {| leads := leads db ++
       [ {| l_id := leads_seq db + 1; l_name := name; l_phone_number := phone;
            l_alternate_phone := alternate; l_email := email;
            l_status := status |} ];
     conversations := conversations db;
     leads_seq := leads_seq db + 1;
     conversations_seq := conversations_seq db |}.

(** [UPDATE leads SET ... WHERE ...]: every row the condition holds for. *)
Definition update_where (p : lead -> bool) (f : lead -> lead) (db : database)
    : database :=
  {| leads := List.map (fun l => if p l then f l else l) (leads db);
     conversations := conversations db;
     leads_seq := leads_seq db;
     conversations_seq := conversations_seq db |}.

Definition with_phone_number (phone : jsstring) (l : lead) : lead :=
  {| l_id := l_id l; l_name := l_name l; l_phone_number := Some phone;
     l_alternate_phone := l_alternate_phone l; l_email := l_email l;
     l_status := l_status l |}.

Definition with_alternate_phone (phone : jsstring) (l : lead) : lead :=
  {| l_id := l_id l; l_name := l_name l; l_phone_number := l_phone_number l;
     l_alternate_phone := Some phone; l_email := l_email l;
     l_status := l_status l |}.

(** The properties of [leadData] that go to the columns kept here.
    [ld_status] is [None] when the object has no [status], which the
    destructuring default turns into ["new"]. *)
Record lead_data := {
  ld_name : maybe_string;
  ld_phone_number : maybe_string;
  ld_alternate_phone : maybe_string;
  ld_email : maybe_string;
  ld_status : option maybe_string
}.

(** [addLead(leadData)] *)
Definition addLead (leadData : lead_data) : M database unit :=
  match standardizePhoneNumber (ld_phone_number leadData) with
  | None => ret tt
  | Some standardizedPhoneNumber =>
      modify (insert_row (ld_name leadData) (Some standardizedPhoneNumber)
                (ld_alternate_phone leadData) (ld_email leadData)
                (default (Some (lit "new")) (ld_status leadData)))
  end.

(** A parsed row of the CSV file: its values by column header. *)
Abbreviation csv_row := (gmap (list N) (list N)).

(** The [data] handler of [importCSV], for one row: the file has no header
    line, so the columns are named by the values of its first record. *)
Definition importCSV_row (row : csv_row) : M database unit :=
  match standardizePhoneNumber (row !! lit "262-691-2510") with
  | Some phoneNumber =>
      modify (insert_row (row !! lit "KENNETH ORLOWSKI") (Some phoneNumber)
                (Some []) None (Some (lit "new")))
  | None => ret tt
  end.

(** [updatePhoneNumberFormat(oldNumber, newNumber)] *)
Definition updatePhoneNumberFormat (oldNumber newNumber : maybe_string)
    : M database unit :=
  match standardizePhoneNumber oldNumber, standardizePhoneNumber newNumber with
  | Some standardizedOldNumber, Some standardizedNewNumber =>
      modify (update_where
                (fun l => maybe_eqb (l_phone_number l) (Some standardizedOldNumber))
                (with_phone_number standardizedNewNumber)) ;;
      modify (update_where
                (fun l => maybe_eqb (l_alternate_phone l) (Some standardizedOldNumber))
                (with_alternate_phone standardizedNewNumber))
  | _, _ => ret tt
  end.

(** [addTwilioDevPhone(phoneNumber)]: [None] is the error thrown for a
    number that has no canonical form. *)
Definition addTwilioDevPhone (phoneNumber : maybe_string) : M database (option unit) :=
  match standardizePhoneNumber phoneNumber with
  | None => ret None
  | Some standardizedNumber =>
      modify (insert_row (Some (lit "Twilio Dev Phone")) (Some standardizedNumber)
                None None (Some (lit "new"))) ;;
      ret (Some tt)
  end.

Definition testPhoneNumber : jsstring := lit "+11234567890".
Definition testEmail : jsstring := lit "test@example.com".

(** [testDatabaseWrite()] *)
Definition testDatabaseWrite : M database bool :=
  result <- updateLeadEmail (Some testPhoneNumber) testEmail ;;
  ret match result with
      | Some l => maybe_eqb (l_email l) (Some testEmail)
      | None => false
      end.

(** *** Reading the tables *)

(** [s.split(sep)] for a separator of one code unit. *)
Fixpoint split_on (sep : N) (s : jsstring) : list jsstring :=
  match s with
  | [] => [[]]
  | c :: s' =>
      if c =? sep then [] :: split_on sep s'
      else match split_on sep s' with
           | piece :: pieces => (c :: piece) :: pieces
           | [] => [[c]]
           end
  end.

(** [s.trimStart()]: white space and line terminators, the code units of
    [\s]. *)
Fixpoint trimStart (s : jsstring) : jsstring :=
  match s with
  | c :: s' => if is_space c then trimStart s' else s
  | [] => []
  end.

(** [s.trim()] *)
Definition trim (s : jsstring) : jsstring :=
  reverse (trimStart (reverse (trimStart s))).

(** [[...new Set(l)]]: the first occurrence of each string, in order. *)
Fixpoint distinct (l : list jsstring) : list jsstring :=
  match l with
  | [] => []
  | x :: l' => x :: List.filter (fun y => negb (eqb x y)) (distinct l')
  end.

(** The strings that [getAllPhoneNumbers] reads one stored number as. *)
Definition number_parts (number : jsstring) : list jsstring :=
  if includes number (lit "/") then List.map trim (split_on 47 number)
  else [number].

(** [getAllPhoneNumbers()] *)
Definition getAllPhoneNumbers (db : database) : list jsstring :=
  let rows := leads db in
  let phoneNumbers :=
    List.flat_map number_parts
      (omap (fun row => if truthy (l_phone_number row) then l_phone_number row else None)
            rows) in
  distinct (omap (fun number => standardizePhoneNumber (Some number)) phoneNumbers).

(** *** What the tables keep *)

(** A canonical number: [+1] and ten digits. *)
Definition is_canonical (c : jsstring) : bool :=
  startsWith c (lit "+1") && (length c =? 12)%nat && forallb is_digit (drop 2 c).

(** Every lead has a canonical [phone_number]. *)
Definition phones_canonical (db : database) : Prop :=
  Forall (fun l => exists p, l_phone_number l = Some p /\ is_canonical p = true)
         (leads db).

(** Row ids are distinct and come from the sequence, and every conversation
    belongs to a lead of the table. *)
Definition rows_consistent (db : database) : Prop :=
  List.NoDup (List.map l_id (leads db)) /\
  Forall (fun l => l_id l <= leads_seq db) (leads db) /\
  Forall (fun c => In (c_lead_id c) (List.map l_id (leads db))) (conversations db).

(** A call to one of the functions of [database.js] that write. *)
Inductive store_call :=
| AddLead (leadData : lead_data)
| ImportRow (row : csv_row)
| UpdateLeadStatus (phoneNumber : maybe_string) (status : jsstring)
| AddConversation (phoneNumber : maybe_string) (content : jsstring) (isAiResponse : bool)
| UpdatePhoneNumberFormat (oldNumber newNumber : maybe_string)
| AddTwilioDevPhone (phoneNumber : maybe_string)
| UpdateLeadEmail (phoneNumber : maybe_string) (email : jsstring)
| TestDatabaseWrite.

Definition perform (c : store_call) : M database unit :=
  match c with
  | AddLead leadData => addLead leadData
  | ImportRow row => importCSV_row row
  | UpdateLeadStatus phoneNumber status => updateLeadStatus phoneNumber status
  | AddConversation phoneNumber content isAiResponse =>
      addConversation phoneNumber content isAiResponse
  | UpdatePhoneNumberFormat oldNumber newNumber =>
      updatePhoneNumberFormat oldNumber newNumber
  | AddTwilioDevPhone phoneNumber => r <- addTwilioDevPhone phoneNumber ;; ret tt
  | UpdateLeadEmail phoneNumber email => r <- updateLeadEmail phoneNumber email ;; ret tt
  | TestDatabaseWrite => r <- testDatabaseWrite ;; ret tt
  end.

(** A sequence of such calls, each finished before the next. *)
Fixpoint perform_all (cs : list store_call) : M database unit :=
  match cs with
  | [] => ret tt
  | c :: cs' => perform c ;; perform_all cs'
  end.

(** A table written before numbers were canonical: one lead, stored with
    the number as it was typed. *)
Definition legacy_db : database :=
  {| leads := [ {| l_id := 1; l_name := Some (lit "KENNETH ORLOWSKI");
                   l_phone_number := Some (lit "262-691-2510");
                   l_alternate_phone := None; l_email := None;
                   l_status := Some (lit "new") |} ];
     conversations := [];
     leads_seq := 1;
     conversations_seq := 0 |}.

(** *** Queries that sort

    The wall-clock columns ([timestamp], [last_updated]) are not kept, so
    the order that an [ORDER BY] on one of them gives is taken from outside.
    All that is assumed of it is that it rearranges the rows selected. *)

Class RowOrder := {
  by_timestamp_asc : list conversation -> list conversation;
  by_timestamp_desc : list conversation -> list conversation;
  by_last_updated_desc : list lead -> list lead;
  by_timestamp_asc_perm : forall rows, by_timestamp_asc rows ≡ₚ rows;
  by_timestamp_desc_perm : forall rows, by_timestamp_desc rows ≡ₚ rows;
  by_last_updated_desc_perm : forall rows, by_last_updated_desc rows ≡ₚ rows
}.

(** [LIMIT ? OFFSET ?], for integers of 64 bits: a negative limit is no
    limit, a negative offset is none. *)
Definition limit_offset {A} (limit offset : Z) (rows : list A) : list A :=
  let rest := drop (Z.to_nat offset) rows in
  if (limit <? 0)%Z then rest else take (Z.to_nat limit) rest.

(** [Number.MAX_SAFE_INTEGER], 2^53 - 1. *)
Definition MAX_SAFE_INTEGER : Z := 9007199254740991.

(** [Number.isSafeInteger]: the integers on which the arithmetic of JS
    numbers is that of the integers. *)
Definition isSafeInteger (z : Z) : bool :=
  (- MAX_SAFE_INTEGER <=? z)%Z && (z <=? MAX_SAFE_INTEGER)%Z.

(** A number that may not be finite. *)
Inductive jsnumber :=
| Finite (z : Z)
| Infinite
| NotANumber.

(** [Math.ceil(count / pageSize)] for a count that is not negative. *)
Definition ceil_quotient (count pageSize : Z) : jsnumber :=
  if (pageSize =? 0)%Z then
    if (count =? 0)%Z then NotANumber else Infinite
  else Finite (- ((- count) / pageSize))%Z.

(** An element of [leads] in what [getPaginatedLeadData] returns. *)
Record lead_summary := {
  s_id : N;
  s_name : maybe_string;
  s_phone_number : maybe_string;
  s_email : maybe_string;
  s_status : maybe_string;
  s_conversations : list conversation
}.

Record lead_page := {
  page_leads : list lead_summary;
  currentPage : Z;
  totalPages : jsnumber;
  pageSize : Z
}.

Section Queries.
Context `{RowOrder}.

(** [getConversationHistory(phoneNumber)] *)
Definition getConversationHistory (phoneNumber : maybe_string) (db : database)
    : list conversation :=
  match standardizePhoneNumber phoneNumber with
  | None => []
  | Some standardizedPhoneNumber =>
      match getLead (Some standardizedPhoneNumber) db with
      | Some lead =>
          by_timestamp_desc
            (List.filter (fun c => c_lead_id c =? l_id lead) (conversations db))
      | None => []
      end
  end.

(** [WHERE lead_id = ? AND (is_ai_response = 1 OR content != 'User audio
    received')] *)
Definition meaningful (lead_id : N) (c : conversation) : bool :=
  (c_lead_id c =? lead_id)
  && (c_is_ai_response c || negb (eqb (c_content c) (lit "User audio received"))).

(** [getLeadData(phoneNumber)]: [{ ...lead, conversations }], or [null]. *)
Definition getLeadData (phoneNumber : maybe_string) (db : database)
    : option (lead * list conversation) :=
  match standardizePhoneNumber phoneNumber with
  | None => None
  | Some standardizedPhoneNumber =>
      match getLead (Some standardizedPhoneNumber) db with
      | Some lead =>
          Some (lead,
                by_timestamp_asc (List.filter (meaningful (l_id lead)) (conversations db)))
      | None => None
      end
  end.

(** [WHERE lead_id = ? AND content != 'User audio received' AND
    is_ai_response = 1] *)
Definition spoken_by_ai (lead_id : N) (c : conversation) : bool :=
  (c_lead_id c =? lead_id)
  && negb (eqb (c_content c) (lit "User audio received"))
  && c_is_ai_response c.

Definition summary (db : database) (lead : lead) : lead_summary :=
  {| s_id := l_id lead;
     s_name := l_name lead;
     s_phone_number := l_phone_number lead;
     s_email := if truthy (l_email lead) then l_email lead else None;
     s_status := l_status lead;
     s_conversations :=
       by_timestamp_asc (List.filter (spoken_by_ai (l_id lead)) (conversations db)) |}.

(** [getPaginatedLeadData(page = 1, pageSize = 10)], with [None] for an
    argument left out.

    The page, the size and the offset are JS numbers, and the size and the
    offset are bound to [LIMIT ? OFFSET ?] as such.  Where the three are
    safe integers the offset is the integers' product and the engine takes
    both values as integers of 64 bits.  Beyond, the product is rounded, and
    from 2^63 on the engine refuses the value (datatype mismatch) and the
    function throws: that range is left out, and the result is [None]
    there. *)
Definition getPaginatedLeadData (page pageSize : option Z) (db : database)
    : option lead_page :=
  let page_number := default 1%Z page in
  let page_size := default 10%Z pageSize in
  let offset := ((page_number - 1) * page_size)%Z in
  if isSafeInteger page_number && isSafeInteger page_size && isSafeInteger offset then
    let rows := limit_offset page_size offset (by_last_updated_desc (leads db)) in
    Some {| page_leads := List.map (summary db) rows;
            currentPage := page_number;
            totalPages := ceil_quotient (Z.of_nat (length (leads db))) page_size;
            pageSize := page_size |}
  else None.

(** [Number.parseInt(s) || d], with [None] for [NaN]. *)
Definition or_default (parsed : option Z) (d : Z) : Z :=
  match parsed with
  | Some z => if (z =? 0)%Z then d else z
  | None => d
  end.

(** [GET /leads], given what [Number.parseInt] reads in the two query
    parameters. *)
Definition leads_route (page pageSize : option Z) (db : database) : option lead_page :=
  getPaginatedLeadData (Some (or_default page 1)) (Some (or_default pageSize 10)) db.

End Queries.

(** ** admin.js: placing calls *)

(** What [client.calls.create] is given. *)
Record call_request := {
  twiml : jsstring;
  call_to : jsstring;
  call_from : maybe_string
}.

(** The telephony API: the SID of the call it creates, or [None] when the
    request is rejected. *)
Class Telephony := {
  calls_create : call_request -> option jsstring
}.

(** The server outside a connection: the store, the requests made to the
    telephony API so far, and the clock in milliseconds. *)
Record server := {
  sv_store : database;
  placed : list call_request;
  sv_now : N
}.

(** Run a store operation on the server's database. *)
Definition in_db {A} (m : M database A) : M server A :=
  fun s =>
    let '(a, db, l) := m (sv_store s) in
    (a, {| sv_store := db; placed := placed s; sv_now := sv_now s |}, l).

(** [await new Promise((resolve) => setTimeout(resolve, ms))] *)
Definition sleep (ms : N) : M server unit :=
  modify (fun s => {| sv_store := sv_store s; placed := placed s;
                      sv_now := sv_now s + ms |}).

Definition quote : jsstring := [34].

(** The TwiML of an outgoing call: a greeting, then the media stream with
    the customer's number as its parameter. *)
Definition stream_twiml (url standardizedNumber : jsstring) : jsstring :=
  lit "<Response><Say>Hello, this is an automated call.</Say><Connect><Stream url="
  ++ quote ++ url ++ quote
  ++ lit "><Parameter name=" ++ quote ++ lit "customerNumber" ++ quote
  ++ lit " value=" ++ quote ++ standardizedNumber ++ quote
  ++ lit "/></Stream></Connect></Response>".

Definition devPhoneNumber : jsstring := lit "+16286666632".

Section Calls.
Context `{Telephony}.

(** [client.calls.create(request)] *)
Definition create_call (request : call_request) : M server (option jsstring) :=
  fun s =>
    (calls_create request,
     {| sv_store := sv_store s; placed := placed s ++ [request]; sv_now := sv_now s |},
     []).

(** [makeOutgoingCall(to, from, url)]: the call created, or [null]. *)
Definition makeOutgoingCall (to from : maybe_string) (url : jsstring)
    : M server (option jsstring) :=
  match standardizePhoneNumber to with
  | None => ret None
  | Some standardizedNumber =>
      s <- get ;;
      match getLead (Some standardizedNumber) (sv_store s) with
      | Some _ => ret tt
      | None =>
          in_db (addLead {| ld_name := Some (lit "Unknown");
                            ld_phone_number := Some standardizedNumber;
                            ld_alternate_phone := None; ld_email := None;
                            ld_status := Some (Some (lit "new")) |})
      end ;;
      call <- create_call {| twiml := stream_twiml url standardizedNumber;
                             call_to := standardizedNumber; call_from := from |} ;;
      match call with
      | Some sid =>
          in_db (updateLeadStatus (Some standardizedNumber) (lit "called")) ;;
          ret (Some sid)
      | None => ret None
      end
  end.

(** The loop of [initiateCallsToAllNumbers] over the numbers of the table. *)
Fixpoint call_each (phoneNumbers : list jsstring) (standardizedDevPhone from : maybe_string)
    (url : jsstring) : M server unit :=
  match phoneNumbers with
  | [] => ret tt
  | phoneNumber :: rest =>
      when (truthy (Some phoneNumber)
            && negb (maybe_eqb (Some phoneNumber) standardizedDevPhone))
        (call <- makeOutgoingCall (Some phoneNumber) from url ;;
         sleep 5000) ;;
      call_each rest standardizedDevPhone from url
  end.

(** [initiateCallsToAllNumbers()], with the two settings it reads
    ([PHONE_NUMBER_FROM] and [DOMAIN]). *)
Definition initiateCallsToAllNumbers (PHONE_NUMBER_FROM : maybe_string) (DOMAIN : jsstring)
    : M server unit :=
  s <- get ;;
  let phoneNumbers := getAllPhoneNumbers (sv_store s) in
  let standardizedDevPhone := standardizePhoneNumber (Some devPhoneNumber) in
  let url := lit "wss://" ++ DOMAIN ++ lit "/media-stream" in
  if truthy standardizedDevPhone then
    call <- makeOutgoingCall standardizedDevPhone PHONE_NUMBER_FROM url ;;
    ret tt
  else call_each phoneNumbers standardizedDevPhone PHONE_NUMBER_FROM url.

End Calls.

(** ** admin.js: start-up and the test routes *)

(** The callback of [fastify.listen]: the database is opened, the dev phone
    is added and, unless that threw, the write test is run.  [file] is the
    database file as found, [TWILIO_DEV_PHONE] the setting; the recordings
    directory is taken to be there or to be created. *)
Definition on_listen (TWILIO_DEV_PHONE : maybe_string) (file : option database) : database :=
  let twilioDevPhone :=
    if truthy TWILIO_DEV_PHONE then TWILIO_DEV_PHONE else Some devPhoneNumber in
  state_of
    ((added <- addTwilioDevPhone twilioDevPhone ;;
      match added with
      | Some _ => testResult <- testDatabaseWrite ;; ret tt
      | None => ret tt
      end) (initializeDatabase file)).

(** The server started [k] times over the same database file. *)
Fixpoint restarts (k : nat) (TWILIO_DEV_PHONE : maybe_string) (file : option database)
    : option database :=
  match k with
  | O => file
  | S k' => Some (on_listen TWILIO_DEV_PHONE (restarts k' TWILIO_DEV_PHONE file))
  end.

(** [GET /test-lead]: the status code of the reply and the lead read. *)
Definition test_lead_route : M database (nat * option lead) :=
  addLead {| ld_name := Some (lit "Test User");
             ld_phone_number := Some testPhoneNumber;
             ld_alternate_phone := None;
             ld_email := Some testEmail;
             ld_status := Some (Some (lit "new")) |} ;;
  db <- get ;;
  let lead := getLead (Some testPhoneNumber) db in
  ret match lead with
      | Some l => if maybe_eqb (l_email l) (Some testEmail)
                  then (200%nat, lead) else (500%nat, lead)
      | None => (500%nat, lead)
      end.

(** [GET /test-db-write]: the status code of the reply. *)
Definition test_db_write_route : M database nat :=
  result <- testDatabaseWrite ;;
  ret (if result then 200%nat else 500%nat).

(** ** The bridge: what a call adds up to *)

Section CallAudio.
Context `{Runtime}.

(** The bytes that one input adds to the inbound recording of
    [indexeeee.js]. *)
Definition inbound_bytes (i : input) : Buffer :=
  match i with
  | FromTwilio (Media e) =>
      if maybe_eqb (media_track e) (Some (lit "inbound"))
      then base64_decode (media_payload e) else []
  | _ => []
  end.

(** The bytes that one input adds to the recording of the AI's voice. *)
Definition outgoing_bytes (i : input) : Buffer :=
  match i with
  | FromAi (AudioDelta delta _) =>
      if truthy delta then base64_decode (default [] delta) else []
  | _ => []
  end.

End CallAudio.

(** An input between the [start] and the [stop] of a call. *)
Definition mid_call (i : input) : bool :=
  match i with
  | FromTwilio (Start _) | FromTwilio (Stop _) => false
  | _ => true
  end.

(** The recordings and transcriptions asked for, from a log. *)
Definition recordings (l : list call) : list call :=
  List.filter records_or_transcribes l.

(** The frames sent on the telephony socket, from a log. *)
Fixpoint twilio_sends (l : list call) : list twilio_message :=
  match l with
  | TwilioSend m :: l' => m :: twilio_sends l'
  | _ :: l' => twilio_sends l'
  | [] => []
  end.

(** The timers armed, from a log. *)
Fixpoint timers_set (l : list call) : list (timer_task * N) :=
  match l with
  | SetTimeout _ task delay :: l' => (task, delay) :: timers_set l'
  | _ :: l' => timers_set l'
  | [] => []
  end.

(** The status updates asked of the store, from a log. *)
Fixpoint status_updates (l : list call) : list (maybe_string * jsstring) :=
  match l with
  | CallUpdateLeadStatus phone status :: l' => (phone, status) :: status_updates l'
  | _ :: l' => status_updates l'
  | [] => []
  end.

(** A session of the realtime bridge that has no customer number, and none
    to be found in the map under the stream's identifier. *)
Definition numberless (w : world) : Prop :=
  truthy (customerNumber (sess w)) = false /\
  forall v, customerNumbers (sess w) !! streamSid (sess w) = Some v -> truthy v = false.

(** ** The first unnamed file: [isValidEmail] *)

(** [[^\s@]] *)
Definition plain_class (c : N) : bool := negb (is_space c || (c =? 64)).

(** [$] without the [m] flag: the end of the input. *)
Definition at_end : Regex.cont :=
  fun _ pos s c =>
    match s with
    | [] => Some (pos, c)
    | _ :: _ => None
    end.

(** The matcher of [Regex.run], with what follows the pattern given as a
    continuation. *)
Fixpoint run_then (r : Regex.regex) (k : Regex.cont) : Regex.cont :=
  match r with
  | [] => k
  | Regex.Chr p :: r' => fun _ pos s c =>
      match s with
      | x :: s' => if p x then run_then r' k (Some x) (S pos) s' c else None
      | [] => None
      end
  | Regex.Rep p min :: r' => Regex.rep p min (run_then r' k)
  | Regex.WordBoundary :: r' => fun prev pos s c =>
      if Regex.is_boundary prev (head s) then run_then r' k prev pos s c else None
  | Regex.GroupOpen :: r' => fun prev pos s c =>
      run_then r' k prev pos s {| Regex.opened := pos; Regex.group1 := Regex.group1 c |}
  | Regex.GroupClose :: r' => fun prev pos s c =>
      run_then r' k prev pos s
        {| Regex.opened := Regex.opened c;
           Regex.group1 := Some (Regex.opened c, pos) |}
  end.

(** [[^\s@]+@[^\s@]+\.[^\s@]+], between [^] and [$] *)
Definition validEmailRegex : Regex.regex :=
  [ Regex.Rep plain_class 1;
    Regex.Chr (N.eqb 64);
    Regex.Rep plain_class 1;
    Regex.Chr (N.eqb 46);
    Regex.Rep plain_class 1 ].

(** [isValidEmail(email)]: with [^] the pattern is tried at the start of the
    string only, and with [$] it must reach the end. *)
Definition isValidEmail (email : jsstring) : bool :=
  match run_then validEmailRegex at_end None 0%nat email Regex.no_captures with
  | Some _ => true
  | None => false
  end.

(** What one audio delta of the AI puts on the telephony socket: the audio
    re-encoded and, where [sendMark] is not a placeholder and the stream is
    known, a mark. *)
Definition delta_frames `{Runtime} (b : bridge) (sid delta : maybe_string)
    : list twilio_message :=
  if truthy delta then
    OutMedia sid (base64_encode (base64_decode (default [] delta))) ::
    match b with
    | IndexeeeeBridge => []
    | _ => if truthy sid then [OutMark sid (lit "responsePart")] else []
    end
  else [].

(** The marks among frames. *)
Definition marks_of (frames : list twilio_message) : list jsstring :=
  omap (fun m => match m with OutMark _ name => Some name | _ => None end) frames.

(** A sample order: conversations as their ids are, leads with the latest
    id first. *)
Module Rowid.

#[global] Instance order : RowOrder :=
  {| by_timestamp_asc := fun rows => rows;
     by_timestamp_desc := reverse;
     by_last_updated_desc := reverse;
     by_timestamp_asc_perm := fun rows => reflexivity rows;
     by_timestamp_desc_perm := reverse_Permutation;
     by_last_updated_desc_perm := reverse_Permutation |}.

End Rowid.

(** A telephony API that accepts every request. *)
Module Accepting.

#[global] Instance telephony : Telephony :=
  {| calls_create := fun _ => Some (lit "CA1") |}.

End Accepting.

(** ** Proof tactics

    [eff] rewrites a computation applied to a state down to the projections
    of its parts, with the equations collected in the rewrite database
    [eff], and computes the record fields on the way. *)

Create Rewrite HintDb eff.

Ltac fields :=
  cbn [sess store aiOpen now timers nextTimer
       on_sess on_store on_aiOpen on_now on_timers on_nextTimer
       streamSid customerNumber latestMediaTimestamp lastAssistantItem markQueue
       responseStartTimestampTwilio accumulatedText customerNumbers silenceTimeout
       incomingAudioBuffer outgoingAudioBuffer
       set_streamSid set_customerNumber set_latestMediaTimestamp set_lastAssistantItem
       set_markQueue set_responseStartTimestampTwilio set_accumulatedText
       set_customerNumbers set_silenceTimeout set_incomingAudioBuffer
       set_outgoingAudioBuffer] in *.

Ltac eff := repeat (autorewrite with eff in *; fields).

(** * Part II: properties *)

Section PhoneFacts.

Lemma digitsOnly_app a b : digitsOnly (a ++ b) = digitsOnly a ++ digitsOnly b.
Proof. unfold digitsOnly. apply List.filter_app. Qed.

Lemma digitsOnly_idem s : digitsOnly (digitsOnly s) = digitsOnly s.
Proof.
  unfold digitsOnly. induction s as [|c s IH]; simpl; [done|].
  destruct (is_digit c) eqn:E; simpl; [rewrite E, IH|]; done.
Qed.

Lemma startsWith_one_head (s : jsstring) :
  startsWith s (lit "1") = true <-> head s = Some 49.
Proof.
  change (lit "1") with [49]. destruct s as [|c s]; cbn [startsWith head].
  - split; discriminate.
  - rewrite andb_true_r, N.eqb_eq. split; congruence.
Qed.

Lemma digits_nonempty_truthy number :
  digits_of number <> [] -> truthy number = true.
Proof. destruct number as [[|c s]|]; done. Qed.

(** The body of [standardizePhoneNumber] past its null guard. *)
Lemma standardizePhoneNumber_truthy number :
  truthy number = true ->
  standardizePhoneNumber number =
    if (length (digits_of number) =? 11)%nat
       && startsWith (digits_of number) (lit "1")
    then Some (lit "+" ++ digits_of number)
    else if (length (digits_of number) =? 10)%nat
         then Some (lit "+1" ++ digits_of number)
         else None.
Proof. intros H. unfold standardizePhoneNumber. rewrite H. reflexivity. Qed.

Lemma standardizePhoneNumber_falsy number :
  truthy number = false -> standardizePhoneNumber number = None.
Proof. intros H. unfold standardizePhoneNumber. rewrite H. reflexivity. Qed.

End PhoneFacts.

(** C2. Phone canonicalization returns [+1] followed by the ten significant
    digits when the input has exactly ten digit characters, or exactly eleven
    with a leading [1]; in every other case, and for a null or empty input,
    it returns no canonical form. *)
Theorem standardizePhoneNumber_canonical_form (number : maybe_string) :
  (length (digits_of number) = 10%nat ->
     standardizePhoneNumber number = Some (lit "+1" ++ digits_of number)) /\
  (length (digits_of number) = 11%nat -> head (digits_of number) = Some 49 ->
     standardizePhoneNumber number = Some (lit "+1" ++ tail (digits_of number))) /\
  (length (digits_of number) <> 10%nat ->
     ~ (length (digits_of number) = 11%nat /\ head (digits_of number) = Some 49) ->
     standardizePhoneNumber number = None) /\
  standardizePhoneNumber None = None /\
  standardizePhoneNumber (Some []) = None.
Proof.
  repeat split; try reflexivity.
  - intros Hlen.
    rewrite standardizePhoneNumber_truthy
      by (apply digits_nonempty_truthy; intros E; rewrite E in Hlen; done).
    rewrite Hlen. reflexivity.
  - intros Hlen Hhd.
    rewrite standardizePhoneNumber_truthy
      by (apply digits_nonempty_truthy; intros E; rewrite E in Hlen; done).
    rewrite Hlen. apply startsWith_one_head in Hhd as Hsw. rewrite Hsw.
    destruct (digits_of number) as [|c ds]; [done|].
    injection Hhd as ->. reflexivity.
  - intros H10 H11. destruct (truthy number) eqn:Ht.
    2: { by apply standardizePhoneNumber_falsy. }
    rewrite standardizePhoneNumber_truthy by done.
    destruct (Nat.eqb_spec (length (digits_of number)) 11) as [E|E].
    + destruct (startsWith (digits_of number) (lit "1")) eqn:Hsw.
      * exfalso. apply H11. split; [done|]. by apply startsWith_one_head.
      * rewrite E. reflexivity.
    + destruct (Nat.eqb_spec (length (digits_of number)) 10); done.
Qed.

(** The canonical forms at a dashed ten-digit number, at an eleven-digit
    number with its country code, and at a number that is too short. *)
Lemma standardizePhoneNumber_canonical_form_witness :
  standardizePhoneNumber (Some (lit "262-691-2510")) = Some (lit "+12626912510") /\
  standardizePhoneNumber (Some (lit "1 (262) 691-2510")) = Some (lit "+12626912510") /\
  standardizePhoneNumber (Some (lit "691-2510")) = None.
Proof.
  pose proof (standardizePhoneNumber_canonical_form (Some (lit "262-691-2510")))
    as (H10 & _).
  pose proof (standardizePhoneNumber_canonical_form (Some (lit "1 (262) 691-2510")))
    as (_ & H11 & _).
  pose proof (standardizePhoneNumber_canonical_form (Some (lit "691-2510")))
    as (_ & _ & Hno & _).
  split; [|split].
  - apply H10. reflexivity.
  - apply H11; reflexivity.
  - apply Hno; vm_compute; [discriminate | intros [? _]; discriminate].
Defined.

(** C10. Phone canonicalization is idempotent on its canonical forms. *)
Theorem standardizePhoneNumber_idempotent (number : maybe_string) (canon : jsstring) :
  standardizePhoneNumber number = Some canon ->
  standardizePhoneNumber (Some canon) = Some canon.
Proof.
  destruct (truthy number) eqn:Ht.
  2: { rewrite standardizePhoneNumber_falsy by done. discriminate. }
  rewrite standardizePhoneNumber_truthy by done.
  set (ds := digits_of number).
  assert (Hds : digitsOnly ds = ds) by apply digitsOnly_idem.
  assert (Hplus : forall p, digits_of (Some (p ++ ds)) = digitsOnly p ++ ds).
  { intros p. change (digits_of (Some (p ++ ds))) with (digitsOnly (p ++ ds)).
    by rewrite digitsOnly_app, Hds. }
  destruct (Nat.eqb_spec (length ds) 11) as [E11|E11].
  - destruct (startsWith ds (lit "1")) eqn:Hsw; cbn [andb].
    + intros Hc. assert (canon = lit "+" ++ ds) as -> by congruence.
      rewrite standardizePhoneNumber_truthy by done.
      rewrite Hplus. change (digitsOnly (lit "+") ++ ds) with ds.
      rewrite E11, Hsw. reflexivity.
    + destruct (Nat.eqb_spec (length ds) 10); [lia | discriminate].
  - cbn [andb]. destruct (Nat.eqb_spec (length ds) 10) as [E10|E10]; [|discriminate].
    intros Hc. assert (canon = lit "+1" ++ ds) as -> by congruence.
    rewrite standardizePhoneNumber_truthy by done.
    rewrite Hplus. change (digitsOnly (lit "+1") ++ ds) with (49 :: ds).
    cbn [length]. rewrite E10. reflexivity.
Qed.

Lemma standardizePhoneNumber_idempotent_witness :
  standardizePhoneNumber (Some (lit "+12626912510")) = Some (lit "+12626912510").
Proof.
  apply (standardizePhoneNumber_idempotent (Some (lit "(262) 691-2510"))).
  reflexivity.
Defined.

(** ** The matcher *)

Section RegexFacts.
Import Regex.

Lemma after_nil prev : after prev [] = prev.
Proof. reflexivity. Qed.

Lemma after_cons prev x a : after prev (x :: a) = after (Some x) a.
Proof.
  unfold after. destruct a as [|y a]; [reflexivity|].
  rewrite last_cons. destruct (last (y :: a)); reflexivity.
Qed.

Lemma after_app prev a b : after prev (a ++ b) = after (after prev a) b.
Proof.
  revert prev. induction a as [|x a IH]; intros prev; [reflexivity|].
  rewrite <- app_comm_cons, !after_cons. apply IH.
Qed.

(** When the continuation succeeds after some run of the class, the
    repetition succeeds. *)
Lemma rep_complete p min k prev pos a b c :
  Forall (fun x => p x = true) a -> (min <= length a)%nat ->
  is_Some (k (after prev a) (pos + length a)%nat b c) ->
  is_Some (rep p min k prev pos (a ++ b) c).
Proof.
  revert min prev pos. induction a as [|x a IH]; intros min prev pos Ha Hmin Hk.
  - simpl in Hmin. assert (min = 0)%nat as -> by lia.
    rewrite after_nil, Nat.add_0_r in Hk. simpl app.
    destruct b as [|y b]; simpl; [done|].
    destruct (p y); [|done].
    destruct (rep p 0 k (Some y) (S pos) b c); [by eexists | done].
  - apply Forall_cons in Ha as [Hx Ha]. simpl. rewrite Hx.
    rewrite after_cons in Hk.
    replace (pos + length (x :: a))%nat with (S pos + length a)%nat in Hk
      by (simpl; lia).
    destruct (IH (pred min) (Some x) (S pos) Ha ltac:(simpl in Hmin; lia) Hk)
      as [r Hr].
    rewrite Hr. by eexists.
Qed.

(** A repetition that matches stops after some run [a] of the class, and
    the continuation fails after every longer run. *)
Lemma rep_sound p min k prev pos s c r :
  rep p min k prev pos s c = Some r ->
  exists a b, s = a ++ b /\ Forall (fun x => p x = true) a /\ (min <= length a)%nat /\
    k (after prev a) (pos + length a)%nat b c = Some r /\
    (forall a' b', s = a' ++ b' -> Forall (fun x => p x = true) a' ->
       (length a < length a')%nat ->
       k (after prev a') (pos + length a')%nat b' c = None).
Proof.
  revert min prev pos. induction s as [|x s IH]; intros min prev pos Hrep.
  - simpl in Hrep. destruct min; [|done].
    exists [], []. repeat split; [constructor | done | by rewrite Nat.add_0_r |].
    intros a' b' E _ Hlen. destruct a'; simpl in *; [lia | done].
  - simpl in Hrep. destruct (p x) eqn:Hx.
    + destruct (rep p (pred min) k (Some x) (S pos) s c) as [r'|] eqn:Hrec.
      * injection Hrep as ->.
        apply IH in Hrec as (a & b & -> & Ha & Hmin & Hk & Hmax).
        exists (x :: a), b. split; [done|]. split; [by constructor|].
        split; [simpl; lia|]. split.
        { rewrite after_cons.
          by replace (pos + length (x :: a))%nat with (S pos + length a)%nat
            by (simpl; lia). }
        intros a' b' E Ha' Hlen. destruct a' as [|x' a']; [simpl in Hlen; lia|].
        simpl in E. injection E as Ex E. subst x'.
        apply Forall_cons in Ha' as [_ Ha'].
        rewrite after_cons.
        replace (pos + length (x :: a'))%nat with (S pos + length a')%nat
          by (simpl; lia).
        apply Hmax; [done | done | simpl in Hlen; lia].
      * destruct min; [|done].
        exists [], (x :: s). repeat split; [constructor | done | by rewrite Nat.add_0_r |].
        intros a' b' E Ha' Hlen. destruct a' as [|x' a']; [simpl in Hlen; lia|].
        simpl in E. injection E as Ex E. subst x' s.
        apply Forall_cons in Ha' as [_ Ha'].
        destruct (k (after prev (x :: a')) (pos + length (x :: a'))%nat b' c)
          as [r'|] eqn:Hk; [exfalso | done].
        rewrite after_cons in Hk.
        replace (pos + length (x :: a'))%nat with (S pos + length a')%nat in Hk
          by (simpl; lia).
        destruct (rep_complete p 0 k (Some x) (S pos) a' b' c Ha' ltac:(lia))
          as [r'' Hr'']; [by eexists|]. simpl in Hrec. congruence.
    + destruct min; [|done].
      exists [], (x :: s). repeat split; [constructor | done | by rewrite Nat.add_0_r |].
      intros a' b' E Ha' Hlen. destruct a' as [|x' a']; [simpl in Hlen; lia|].
      simpl in E. injection E as Ex E. subst x' s.
      apply Forall_cons in Ha' as [Hx' _]. congruence.
Qed.

(** The search stops at the leftmost start from which the pattern matches. *)
Lemma search_sound r prev pos s i res :
  search r prev pos s = Some (i, res) ->
  exists pre s', s = pre ++ s' /\ i = (pos + length pre)%nat /\
    run r (after prev pre) i s' no_captures = Some res /\
    (forall pre2 s2, s = pre2 ++ s2 -> (length pre2 < length pre)%nat ->
       run r (after prev pre2) (pos + length pre2)%nat s2 no_captures = None).
Proof.
  revert prev pos. induction s as [|x s IH]; intros prev pos Hs; simpl in Hs.
  - destruct (run r prev pos [] no_captures) as [res'|] eqn:Hrun; [|done].
    injection Hs as <- <-. exists [], []. rewrite Nat.add_0_r.
    repeat split; [done|]. intros ? ? _ Hlen. simpl in Hlen. lia.
  - destruct (run r prev pos (x :: s) no_captures) as [res'|] eqn:Hrun.
    + injection Hs as <- <-. exists [], (x :: s). rewrite Nat.add_0_r.
      repeat split; [done|]. intros ? ? _ Hlen. simpl in Hlen. lia.
    + apply IH in Hs as (pre & s' & -> & -> & Hres & Hleft).
      exists (x :: pre), s'. rewrite after_cons.
      replace (pos + length (x :: pre))%nat with (S pos + length pre)%nat
        by (simpl; lia).
      repeat split; [done|].
      intros pre2 s2 E Hlen. destruct pre2 as [|x2 pre2].
      * simpl in E. subst s2. by rewrite Nat.add_0_r.
      * simpl in E. injection E as Ex E. subst x2. rewrite after_cons.
        replace (pos + length (x :: pre2))%nat with (S pos + length pre2)%nat
          by (simpl; lia).
        apply Hleft; [done | simpl in Hlen; lia].
Qed.

(** When the pattern matches from some start, the search finds a match. *)
Lemma search_complete r prev pos pre s' :
  is_Some (run r (after prev pre) (pos + length pre)%nat s' no_captures) ->
  is_Some (search r prev pos (pre ++ s')).
Proof.
  revert prev pos. induction pre as [|x pre IH]; intros prev pos Hrun.
  - rewrite after_nil, Nat.add_0_r in Hrun. destruct Hrun as [res Hrun].
    destruct s'; simpl; rewrite Hrun; by eexists.
  - simpl. destruct (run r prev pos (x :: pre ++ s') no_captures); [by eexists|].
    apply IH. rewrite after_cons in Hrun.
    by replace (pos + length (x :: pre))%nat with (S pos + length pre)%nat in Hrun
      by (simpl; lia).
Qed.

End RegexFacts.

(** ** The extraction pattern and email-shaped substrings *)

Section EmailFacts.
Import Regex EmailShape.

(** A run of a class followed by a code unit outside it is determined by
    the text. *)
Lemma class_run_unique (p : N -> bool) a a' x y b b' :
  a ++ x :: b = a' ++ y :: b' ->
  Forall (fun c => p c = true) a -> Forall (fun c => p c = true) a' ->
  p x = false -> p y = false ->
  a = a' /\ x = y /\ b = b'.
Proof.
  revert a'. induction a as [|u a IH]; intros [|u' a'] E Ha Ha' Hx Hy; simpl in E.
  - by injection E as -> ->.
  - injection E as -> _. apply Forall_cons in Ha' as [Hu _]. congruence.
  - injection E as -> _. apply Forall_cons in Ha as [Hu _]. congruence.
  - injection E as -> E. apply Forall_cons in Ha as [_ Ha].
    apply Forall_cons in Ha' as [_ Ha'].
    destruct (IH a' E Ha Ha' Hx Hy) as (-> & -> & ->). done.
Qed.

(** A run of a class cannot reach past a code unit outside the class. *)
Lemma class_run_stops (p : N -> bool) t rest z x rest2 :
  t ++ rest = z ++ x :: rest2 ->
  Forall (fun c => p c = true) t -> p x = false ->
  (length t <= length z)%nat.
Proof.
  revert z. induction t as [|u t IH]; intros z E Ht Hx; [simpl; lia|].
  apply Forall_cons in Ht as [Hu Ht]. destruct z as [|v z]; simpl in E.
  - injection E as -> _. congruence.
  - injection E as _ E. simpl. apply IH in E; [lia | done | done].
Qed.

Lemma after_last prev (t : jsstring) : t <> [] -> after prev t = last t.
Proof.
  intros Ht. unfold after. destruct (last t) eqn:E; [done|].
  by apply last_None in E.
Qed.

Lemma address_length l d t :
  length (address l d t) = (length l + 1 + length d + 1 + length t)%nat.
Proof. unfold address. rewrite length_app. simpl. rewrite length_app. simpl. lia. Qed.

(** What remains to match after the local part. *)
Lemma run_emailRegex_eq prev pos s c :
  run emailRegex prev pos s c =
  if is_boundary prev (head s) then
    rep local_class 1 (run (List.tail (List.tail emailRegex))) prev pos s c
  else None.
Proof. reflexivity. Qed.

Lemma run_at_eq prev pos s c :
  run (List.tail (List.tail emailRegex)) prev pos s c =
  match s with
  | x :: s' =>
      if 64 =? x
      then rep domain_class 1 (run [Chr (N.eqb 46); Rep tld_class 2; WordBoundary])
             (Some x) (S pos) s' c
      else None
  | [] => None
  end.
Proof. reflexivity. Qed.

Lemma run_dot_eq prev pos s c :
  run [Chr (N.eqb 46); Rep tld_class 2; WordBoundary] prev pos s c =
  match s with
  | x :: s' =>
      if 46 =? x
      then rep tld_class 2 (run [WordBoundary]) (Some x) (S pos) s' c
      else None
  | [] => None
  end.
Proof. reflexivity. Qed.

Lemma run_end_eq prev pos s c :
  run [WordBoundary] prev pos s c =
  if is_boundary prev (head s) then Some (pos, c) else None.
Proof. reflexivity. Qed.

(** From the dot on: the top-level label and the closing boundary. *)
Lemma run_dot_complete prev pos t rest c :
  (2 <= length t)%nat -> Forall (fun x => tld_class x = true) t ->
  is_boundary (last t) (head rest) = true ->
  is_Some (run [Chr (N.eqb 46); Rep tld_class 2; WordBoundary] prev pos
             (46 :: t ++ rest) c).
Proof.
  intros Hlen Ht Hb. rewrite run_dot_eq. simpl N.eqb. cbv iota.
  apply rep_complete; [done | done |].
  rewrite run_end_eq, after_last by (intros ->; simpl in Hlen; lia).
  rewrite Hb. by eexists.
Qed.

(** The pattern matches at the start of every address between boundaries. *)
Lemma run_emailRegex_complete prev pos l d t rest c :
  email_parts l d t ->
  is_boundary prev (head (address l d t ++ rest)) = true ->
  is_boundary (last t) (head rest) = true ->
  is_Some (run emailRegex prev pos (address l d t ++ rest) c).
Proof.
  intros (Hl & Hlc & Hd & Hdc & Ht & Htc) Hb1 Hb2.
  rewrite run_emailRegex_eq, Hb1. unfold address. rewrite <- app_assoc.
  apply rep_complete; [done | destruct l; [done | simpl; lia] |].
  rewrite run_at_eq. simpl app. simpl N.eqb. cbv iota.
  rewrite <- app_assoc. apply rep_complete; [done | destruct d; [done | simpl; lia] |].
  by apply run_dot_complete.
Qed.

(** A match of the pattern is an address between boundaries, and no
    address from the same start is longer. *)
Lemma run_emailRegex_sound prev pos s c e c' :
  run emailRegex prev pos s c = Some (e, c') ->
  exists l d t rest, s = address l d t ++ rest /\ email_parts l d t /\
    is_boundary prev (head s) = true /\
    is_boundary (last t) (head rest) = true /\
    e = (pos + length (address l d t))%nat /\ c' = c /\
    (forall l' d' t' rest', s = address l' d' t' ++ rest' -> email_parts l' d' t' ->
       is_boundary (last t') (head rest') = true ->
       (length (address l' d' t') <= length (address l d t))%nat).
Proof.
  rewrite run_emailRegex_eq. destruct (is_boundary prev (head s)) eqn:Hb1; [|done].
  intros Hrep. apply rep_sound in Hrep as (l & s1 & -> & Hlc & Hl & Hk1 & _).
  rewrite run_at_eq in Hk1. destruct s1 as [|x s1]; [done|].
  destruct (N.eqb_spec 64 x) as [<-|]; [|done].
  apply rep_sound in Hk1 as (d & s2 & -> & Hdc & Hd & Hk2 & Hmaxd).
  rewrite run_dot_eq in Hk2. destruct s2 as [|y s2]; [done|].
  destruct (N.eqb_spec 46 y) as [<-|]; [|done].
  apply rep_sound in Hk2 as (t & rest & -> & Htc & Ht & Hk3 & Hmaxt).
  rewrite run_end_eq in Hk3.
  assert (Htne : t <> []) by (intros ->; simpl in Ht; lia).
  rewrite after_last in Hk3 by done.
  destruct (is_boundary (last t) (head rest)) eqn:Hb2; [|done].
  injection Hk3 as <- <-.
  exists l, d, t, rest.
  assert (Hs : l ++ 64 :: d ++ 46 :: t ++ rest = address l d t ++ rest).
  { unfold address. rewrite <- app_assoc. simpl. by rewrite <- app_assoc. }
  split; [done|]. split.
  { repeat split; try done; intros ->; simpl in *; lia. }
  split; [done|]. split; [done|]. split.
  { rewrite address_length. simpl. lia. }
  split; [done|].
  intros l' d' t' rest' E (Hl' & Hlc' & Hd' & Hdc' & Ht' & Htc') Hb'.
  unfold address in E. rewrite <- app_assoc in E. simpl in E.
  rewrite <- app_assoc in E. simpl in E.
  destruct (class_run_unique local_class _ _ _ _ _ _ E Hlc Hlc' eq_refl eq_refl)
    as (<- & _ & E2).
  rewrite !address_length.
  destruct (decide (length d' <= length d)%nat) as [Hle|Hgt].
  - destruct (decide (length d' = length d)) as [Heq|Hne].
    + apply app_inj_1 in E2 as [<- E3]; [|done]. injection E3 as E3.
      destruct (decide (length t' <= length t)%nat) as [?|Hgt]; [lia|].
      exfalso. specialize (Hmaxt t' rest' E3 Htc' ltac:(lia)).
      rewrite run_end_eq, after_last in Hmaxt by (intros ->; simpl in Ht'; lia).
      by rewrite Hb' in Hmaxt.
    + apply app_eq_app in E2 as [z [[Ed Ez]|[Ed Ez]]].
      * subst d. rewrite length_app in *.
        destruct z as [|u z]; [simpl in *; lia|].
        simpl in Ez. injection Ez as <- Ez.
        pose proof (class_run_stops tld_class _ _ _ _ _ Ez Htc' eq_refl). simpl. lia.
      * subst d'. rewrite length_app in Hle.
        destruct z as [|u z]; [rewrite app_nil_r in Hne; done | simpl in Hle; lia].
  - exfalso. specialize (Hmaxd d' (46 :: t' ++ rest') E2 Hdc' ltac:(lia)).
    destruct (run_dot_complete (after (Some 64) d') (S (pos + length l) + length d')%nat
                t' rest' c Ht' Htc' Hb') as [r Hr].
    congruence.
Qed.

Lemma forallb_Forall_true {A} (f : A -> bool) (l : list A) :
  forallb f l = true <-> Forall (fun x => f x = true) l.
Proof.
  induction l as [|x l IH]; simpl.
  - split; [constructor | done].
  - rewrite andb_true_iff, Forall_cons, IH. done.
Qed.

Lemma is_at_true u i c : is_at u i c = true <-> u !! i = Some c.
Proof.
  unfold is_at. destruct (u !! i) as [x|]; [|split; done].
  rewrite N.eqb_eq. split; congruence.
Qed.

(** [split_at], one condition at a time. *)
Lemma split_at_true u a b :
  split_at u a b = true <->
  u !! a = Some 64 /\ u !! b = Some 46 /\ (0 < a)%nat /\ (S a < b)%nat /\
  (b + 3 <= length u)%nat /\
  Forall (fun c => local_class c = true) (take a u) /\
  Forall (fun c => domain_class c = true) (substring (S a) b u) /\
  Forall (fun c => tld_class c = true) (drop (S b) u).
Proof.
  unfold split_at. rewrite <- !forallb_Forall_true, <- !is_at_true.
  destruct (is_at u a 64); [|intuition discriminate].
  destruct (is_at u b 46); [|intuition discriminate].
  destruct (Nat.ltb_spec 0 a); [|split; [done | lia]].
  destruct (Nat.ltb_spec (S a) b); [|split; [done | lia]].
  destruct (Nat.leb_spec (b + 3) (length u)); [|split; [done | lia]].
  destruct (forallb local_class (take a u)); [|intuition discriminate].
  destruct (forallb domain_class (substring (S a) b u)); intuition discriminate.
Qed.

(** The boolean check holds exactly of the addresses. *)
Lemma email_shaped_address l d t :
  email_parts l d t -> email_shaped (address l d t) = true.
Proof.
  intros (Hl & Hlc & Hd & Hdc & Ht & Htc). unfold email_shaped.
  assert (Hat : address l d t !! length l = Some 64)
    by (by apply list_lookup_middle).
  assert (Hlen := address_length l d t).
  apply existsb_exists. exists (length l). split; [apply in_seq; lia|].
  rewrite (proj2 (is_at_true _ _ _) Hat).
  apply existsb_exists. exists (length l + 1 + length d)%nat.
  split; [apply in_seq; lia|]. apply split_at_true.
  assert (Hdrop : drop (S (length l)) (address l d t) = d ++ 46 :: t).
  { unfold address. change (l ++ 64 :: d ++ 46 :: t) with (l ++ [64] ++ (d ++ 46 :: t)).
    rewrite app_assoc. apply drop_app_length'. rewrite length_app. simpl. lia. }
  split; [done|]. split.
  { unfold address. rewrite lookup_app_r by lia.
    replace (length l + 1 + length d - length l)%nat with (S (length d)) by lia.
    simpl. by apply list_lookup_middle. }
  split; [destruct l; [done | simpl; lia]|].
  split; [destruct d; [done | simpl; lia]|].
  split; [lia|]. split; [unfold address; by rewrite take_app_length|]. split.
  - unfold substring. rewrite Hdrop.
    replace (length l + 1 + length d - S (length l))%nat with (length d) by lia.
    by rewrite take_app_length.
  - replace (S (length l + 1 + length d)) with (S (length l) + S (length d))%nat by lia.
    rewrite <- drop_drop, Hdrop.
    change (d ++ 46 :: t) with (d ++ [46] ++ t). rewrite app_assoc.
    rewrite drop_app_length' by (rewrite length_app; simpl; lia). done.
Qed.

Lemma email_shaped_parts u :
  email_shaped u = true -> exists l d t, u = address l d t /\ email_parts l d t.
Proof.
  unfold email_shaped. intros Hex.
  apply existsb_exists in Hex as (a & _ & Hex).
  destruct (is_at u a 64); [|done].
  apply existsb_exists in Hex as (b & _ & Hsplit).
  apply split_at_true in Hsplit as (Ha & Hb & Ha0 & Hab & Hbu & Hlc & Hdc & Htc).
  exists (take a u), (substring (S a) b u), (drop (S b) u).
  assert (Hmid : (drop (S a) u) !! (b - S a)%nat = Some 46).
  { rewrite lookup_drop. by replace (S a + (b - S a))%nat with b by lia. }
  split.
  - unfold address, substring.
    rewrite <- (take_drop_middle u a 64 Ha) at 1. f_equal. f_equal.
    rewrite <- (take_drop_middle (drop (S a) u) (b - S a) 46 Hmid) at 1.
    f_equal. f_equal. rewrite drop_drop. f_equal. lia.
  - split.
    { intros E. apply (f_equal length) in E. rewrite length_take in E. simpl in E. lia. }
    split; [done|]. split.
    { intros E. apply (f_equal length) in E. unfold substring in E.
      rewrite length_take, length_drop in E. simpl in E. lia. }
    split; [done|]. split; [rewrite length_drop; lia | done].
Qed.

Lemma after_None_last (pre : jsstring) : after None pre = last pre.
Proof. unfold after. by destruct (last pre). Qed.

Lemma before_app (pre s : jsstring) : before (pre ++ s) (length pre) = last pre.
Proof.
  rewrite last_lookup. destruct pre as [|x pre]; [done|].
  cbn [length before Init.Nat.pred]. apply lookup_app_l. simpl. lia.
Qed.

Lemma lookup_app_head (pre s : jsstring) : (pre ++ s) !! length pre = head s.
Proof.
  rewrite lookup_app_r by lia. rewrite Nat.sub_diag. symmetry. apply head_lookup.
Qed.

Lemma last_app_nonempty (a t : jsstring) : t <> [] -> last (a ++ t) = last t.
Proof.
  intros Ht. rewrite last_app. destruct (last t) eqn:E; [done|].
  by apply last_None in E.
Qed.

Lemma last_address l d t : t <> [] -> last (address l d t) = last t.
Proof.
  intros Ht. unfold address.
  change (l ++ 64 :: d ++ 46 :: t) with (l ++ [64] ++ d ++ [46] ++ t).
  rewrite !app_assoc. by apply last_app_nonempty.
Qed.

Lemma ranges_In n i j : In (i, j) (ranges n) <-> (i <= j <= n)%nat.
Proof.
  unfold ranges. rewrite in_flat_map. split.
  - intros (i' & Hi' & Hin). apply in_map_iff in Hin as (j' & [= -> ->] & Hj').
    apply in_seq in Hi', Hj'. lia.
  - intros Hij. exists i. split; [apply in_seq; lia|].
    apply in_map_iff. exists j. split; [done | apply in_seq; lia].
Qed.

(** The listed occurrences are the pairs that [occurs] accepts. *)
Lemma email_occurrences_In text o :
  In o (email_occurrences text) <-> occurs text o = true.
Proof.
  unfold email_occurrences. rewrite filter_In. destruct o as [i j]. split; [tauto|].
  intros Ho. split; [|done]. apply ranges_In. unfold occurs in Ho. simpl in Ho.
  destruct (Nat.leb_spec i j); [|done].
  destruct (Nat.leb_spec j (length text)); [lia | done].
Qed.

(** Whether an address inside a text counts is a matter of its two
    boundaries. *)
Lemma occurs_at_split pre l d t post :
  email_parts l d t ->
  occurs (pre ++ address l d t ++ post)
         (length pre, (length pre + length (address l d t))%nat) =
  is_boundary (after None pre) (head (address l d t ++ post))
  && is_boundary (last t) (head post).
Proof.
  intros Hparts. assert (Ht : t <> []).
  { destruct Hparts as (_ & _ & _ & _ & Ht & _). intros ->. simpl in Ht. lia. }
  unfold occurs. cbn [fst snd].
  destruct (Nat.leb_spec (length pre) (length pre + length (address l d t)));
    [|lia].
  rewrite !length_app.
  destruct (Nat.leb_spec (length pre + length (address l d t))
              (length pre + (length (address l d t) + length post))); [|lia].
  rewrite before_app, lookup_app_head, after_None_last.
  rewrite (app_assoc pre), <- (length_app pre).
  rewrite before_app, lookup_app_head, last_app_nonempty, last_address
    by (try done; unfold address; by destruct l).
  rewrite <- app_assoc.
  assert (Hsub : substring (length pre) (length (pre ++ address l d t))
                   (pre ++ address l d t ++ post) = address l d t).
  { unfold substring. rewrite drop_app_length, length_app.
    replace (length pre + length (address l d t) - length pre)%nat
      with (length (address l d t)) by lia.
    apply take_app_length. }
  rewrite Hsub, email_shaped_address by done.
  destruct (is_boundary (last pre) _), (is_boundary (last t) _); done.
Qed.

(** An occurrence is an address between boundaries. *)
Lemma occurs_parts text i j :
  occurs text (i, j) = true ->
  exists pre l d t post, text = pre ++ address l d t ++ post /\
    length pre = i /\ j = (i + length (address l d t))%nat /\ email_parts l d t /\
    is_boundary (after None pre) (head (address l d t ++ post)) = true /\
    is_boundary (last t) (head post) = true.
Proof.
  intros Ho. assert (Ho' := Ho). unfold occurs in Ho'. cbn [fst snd] in Ho'.
  destruct (Nat.leb_spec i j) as [Hij|]; [|done].
  destruct (Nat.leb_spec j (length text)) as [Hj|]; [|done].
  destruct (is_boundary (before text i) (text !! i)); [|done].
  destruct (is_boundary (before text j) (text !! j)); [|done].
  apply email_shaped_parts in Ho' as (l & d & t & Hu & Hparts).
  assert (Htext : text = take i text ++ address l d t ++ drop j text).
  { rewrite <- Hu. unfold substring.
    rewrite <- (take_drop i text) at 1. f_equal.
    rewrite <- (take_drop (j - i) (drop i text)) at 1. f_equal.
    rewrite drop_drop. f_equal. lia. }
  assert (Hpre : length (take i text) = i) by (rewrite length_take; lia).
  assert (Hlen : length (address l d t) = (j - i)%nat).
  { rewrite <- Hu. unfold substring. rewrite length_take, length_drop. lia. }
  exists (take i text), l, d, t, (drop j text).
  split; [done|]. split; [done|]. split; [lia|]. split; [done|].
  assert (Ho2 : occurs (take i text ++ address l d t ++ drop j text)
                  (length (take i text),
                   (length (take i text) + length (address l d t))%nat) = true).
  { rewrite <- Htext, Hpre, Hlen. by replace (i + (j - i))%nat with j by lia. }
  rewrite occurs_at_split in Ho2 by done. by apply andb_true_iff in Ho2.
Qed.

(** What [aiResponse.match(emailRegex)] returns is an email-shaped
    substring: the one that starts leftmost and, from that start, the
    longest. *)
Lemma exec_emailRegex_sound text m :
  exec emailRegex text = Some m ->
  exists i j, occurs text (i, j) = true /\
    m = {| matched := substring i j text; captured := None |} /\
    (forall o, occurs text o = true ->
       (i <= o.1)%nat /\ (o.1 = i -> (o.2 <= j)%nat)).
Proof.
  unfold exec. destruct (search emailRegex None 0 text) as [[i [e c]]|] eqn:Hs; [|done].
  intros [= <-].
  apply search_sound in Hs as (pre & s' & -> & -> & Hrun & Hleft).
  apply run_emailRegex_sound in Hrun
    as (l & d & t & post & -> & Hparts & Hb1 & Hb2 & -> & -> & Hlong).
  simpl Nat.add. exists (length pre), (length pre + length (address l d t))%nat.
  split; [|split; [done|]].
  { rewrite occurs_at_split by done. by rewrite Hb1, Hb2. }
  intros [i' j'] Ho. cbn [fst snd].
  apply occurs_parts in Ho
    as (pre' & l' & d' & t' & post' & Htext & Hi' & -> & Hparts' & Hb1' & Hb2').
  assert (Hnotleft : ~ (i' < length pre)%nat).
  { intros Hlt. rewrite <- Hi' in Hlt. specialize (Hleft _ _ Htext Hlt).
    destruct (run_emailRegex_complete (after None pre') (0 + length pre')%nat
                l' d' t' post' no_captures Hparts' Hb1' Hb2') as [r Hr].
    congruence. }
  split; [lia|]. intros Heq. subst i'.
  apply app_inj_1 in Htext as [<- Htext]; [|done].
  specialize (Hlong _ _ _ _ Htext Hparts' Hb2'). lia.
Qed.

(** When the text has an email-shaped substring, the match is not [null]. *)
Lemma exec_emailRegex_complete text o :
  occurs text o = true -> is_Some (exec emailRegex text).
Proof.
  destruct o as [i j]. intros Ho.
  apply occurs_parts in Ho
    as (pre & l & d & t & post & -> & _ & _ & Hparts & Hb1 & Hb2).
  destruct (search_complete emailRegex None 0 pre (address l d t ++ post))
    as [[i' [e c]] Hs].
  { by apply run_emailRegex_complete. }
  unfold exec. rewrite Hs. by eexists.
Qed.

(** The address of a text that holds one address is what the pattern
    extracts. *)
Lemma exec_emailRegex_sole_address text ij :
  sole_address text ij = true ->
  exec emailRegex text =
    Some {| matched := substring ij.1 ij.2 text; captured := None |}.
Proof.
  unfold sole_address. intros Hsole. apply andb_true_iff in Hsole as [Ho Hall].
  destruct (exec_emailRegex_complete text ij Ho) as [m Hm].
  destruct (exec_emailRegex_sound text m Hm) as (i & j & Hij & -> & Hfirst).
  rewrite Hm. do 2 f_equal.
  rewrite forallb_forall in Hall.
  specialize (Hall (i, j) (proj2 (email_occurrences_In text (i, j)) Hij)).
  cbn [fst snd] in Hall. apply andb_true_iff in Hall as [H1 H2].
  apply Nat.leb_le in H1, H2.
  destruct (Hfirst ij Ho) as [H3 H4].
  assert (ij.1 = i) as Hi by lia. specialize (H4 Hi).
  assert (ij.2 = j) as Hj by lia. by rewrite Hi, Hj.
Qed.


End EmailFacts.

(** ** The lead store *)

Section StoreFacts.

Lemma eqb_refl (a : jsstring) : eqb a a = true.
Proof. induction a as [|x a IH]; simpl; [done|]. by rewrite N.eqb_refl, IH. Qed.

(** [updateLeadEmail] is one call to the store, whatever it finds there. *)
Lemma updateLeadEmail_log phone email db :
  log_of (updateLeadEmail phone email db) = [CallUpdateLeadEmail phone email].
Proof.
  unfold updateLeadEmail, log_of, bind, emit, get, modify, when, ret.
  destruct (standardizePhoneNumber phone); [|reflexivity].
  destruct (changes _ _ =? 0)%nat; reflexivity.
Qed.

(** The placeholder entry is dropped: the store is left as it was. *)
Lemma addConversation_placeholder phone db :
  addConversation phone (lit "User audio received") false db =
  (tt, db, [CallAddConversation phone (lit "User audio received") false]).
Proof.
  unfold addConversation, bind, emit, get, modify, ret.
  destruct (standardizePhoneNumber phone); [|reflexivity].
  destruct (getLead _ db); [|reflexivity].
  rewrite eqb_refl. reflexivity.
Qed.

(** The calls of [addConversation]: itself, then what [label_update]
    says. *)
Lemma addConversation_log phone content isAi db :
  log_of (addConversation phone content isAi db) =
  CallAddConversation phone content isAi ::
  List.map (fun pe => CallUpdateLeadEmail pe.1 pe.2)
           (label_update phone content isAi db).
Proof.
  unfold addConversation, label_update, log_of, bind, emit, get, modify, ret.
  destruct (standardizePhoneNumber phone) as [std|]; [|reflexivity].
  destruct (getLead (Some std) db) as [l|]; [|reflexivity].
  destruct isAi.
  - rewrite orb_true_r. cbn [andb].
    destruct (includes content (lit "email:")).
    + destruct (Regex.exec emailLabelRegex content) as [m|]; [|reflexivity].
      cbn [andb]. destruct (truthy (Regex.captured m)); [|reflexivity].
      pose proof (updateLeadEmail_log (Some std) (default [] (Regex.captured m))
                    (insert_conversation (l_id l) content true db)) as Hlog.
      unfold log_of in Hlog.
      destruct (updateLeadEmail _ _ _) as [[u db'] log']. simpl in Hlog. subst log'.
      reflexivity.
    + by destruct (Regex.exec emailLabelRegex content).
  - rewrite orb_false_r. cbn [andb].
    destruct (Regex.exec emailLabelRegex content);
      destruct (negb (eqb content (lit "User audio received"))); reflexivity.
Qed.

Lemma email_updates_app l1 l2 :
  email_updates (l1 ++ l2) = email_updates l1 ++ email_updates l2.
Proof.
  induction l1 as [|c l1 IH]; [reflexivity|].
  destruct c; simpl; rewrite ?IH; reflexivity.
Qed.

Lemma email_updates_of_updates (l : list (maybe_string * jsstring)) :
  email_updates (List.map (fun pe => CallUpdateLeadEmail pe.1 pe.2) l) = l.
Proof. induction l as [|[p e] l IH]; simpl; [done|]. by rewrite IH. Qed.

Lemma addConversation_email_updates phone content isAi db :
  email_updates (log_of (addConversation phone content isAi db)) =
  label_update phone content isAi db.
Proof. rewrite addConversation_log. simpl. apply email_updates_of_updates. Qed.

(** [label_update] is at most one update, and none without the label. *)
Lemma label_update_length phone content isAi db :
  (length (label_update phone content isAi db) <= 1)%nat.
Proof.
  unfold label_update. destruct (standardizePhoneNumber phone); [|simpl; lia].
  destruct (getLead _ db), (Regex.exec emailLabelRegex content); try (simpl; lia).
  destruct (_ && _ && _); simpl; lia.
Qed.

Lemma label_update_without_label phone content isAi db :
  includes content (lit "email:") = false -> label_update phone content isAi db = [].
Proof.
  intros Hno. unfold label_update. rewrite Hno, andb_false_r.
  destruct (standardizePhoneNumber phone); [|done].
  by destruct (getLead _ db), (Regex.exec emailLabelRegex content).
Qed.

Lemma no_records_app l1 l2 : no_records l1 -> no_records l2 -> no_records (l1 ++ l2).
Proof. unfold no_records. rewrite existsb_app. by intros -> ->. Qed.

Lemma no_records_updates (l : list (maybe_string * jsstring)) :
  no_records (List.map (fun pe => CallUpdateLeadEmail pe.1 pe.2) l).
Proof. unfold no_records. by induction l. Qed.

Lemma addConversation_no_records phone content isAi db :
  no_records (log_of (addConversation phone content isAi db)).
Proof. rewrite addConversation_log. apply (no_records_updates _). Qed.

End StoreFacts.

(** ** The monad: projections of a computation *)

Section EffFacts.
Context {S A B : Type}.
Implicit Types (m : M S A) (k : A -> M S B) (s : S).

Lemma state_bind m k s :
  state_of (bind m k s) = state_of (k (value_of (m s)) (state_of (m s))).
Proof.
  unfold bind, state_of, value_of. destruct (m s) as [[a s1] l1]. simpl.
  by destruct (k a s1) as [[b s2] l2].
Qed.

Lemma log_bind m k s :
  log_of (bind m k s) =
  log_of (m s) ++ log_of (k (value_of (m s)) (state_of (m s))).
Proof.
  unfold bind, state_of, value_of, log_of. destruct (m s) as [[a s1] l1]. simpl.
  by destruct (k a s1) as [[b s2] l2].
Qed.

Lemma value_bind m k s :
  value_of (bind m k s) = value_of (k (value_of (m s)) (state_of (m s))).
Proof.
  unfold bind, state_of, value_of. destruct (m s) as [[a s1] l1]. simpl.
  by destruct (k a s1) as [[b s2] l2].
Qed.

Lemma state_ret (a : A) s : state_of (ret a s) = s.
Proof. reflexivity. Qed.
Lemma log_ret (a : A) s : log_of (ret a s) = [].
Proof. reflexivity. Qed.
Lemma value_ret (a : A) s : value_of (ret a s) = a.
Proof. reflexivity. Qed.

Lemma state_get s : state_of (get s) = s.
Proof. reflexivity. Qed.
Lemma log_get s : log_of (get s) = [].
Proof. reflexivity. Qed.
Lemma value_get s : value_of (get s) = s.
Proof. reflexivity. Qed.

Lemma state_modify (f : S -> S) s : state_of (modify f s) = f s.
Proof. reflexivity. Qed.
Lemma log_modify (f : S -> S) s : log_of (modify f s) = [].
Proof. reflexivity. Qed.

Lemma state_emit c s : state_of (emit c s) = s.
Proof. reflexivity. Qed.
Lemma log_emit c s : log_of (emit c s) = [c].
Proof. reflexivity. Qed.

Lemma state_when (b : bool) (m : M S unit) s :
  state_of (when b m s) = if b then state_of (m s) else s.
Proof. by destruct b. Qed.
Lemma log_when (b : bool) (m : M S unit) s :
  log_of (when b m s) = if b then log_of (m s) else [].
Proof. by destruct b. Qed.

(** A computation's result is its three projections. *)
Lemma result_eq (r : A * S * list call) a s l :
  value_of r = a -> state_of r = s -> log_of r = l -> r = (a, s, l).
Proof. destruct r as [[a' s'] l']. unfold value_of, state_of, log_of. simpl. congruence. Qed.

End EffFacts.

Lemma state_pair {S A} (a : A) (s : S) l : state_of (a, s, l) = s.
Proof. reflexivity. Qed.
Lemma log_pair {S A} (a : A) (s : S) l : log_of (a, s, l) = l.
Proof. reflexivity. Qed.
Lemma value_pair {S A} (a : A) (s : S) l : value_of (a, s, l) = a.
Proof. reflexivity. Qed.

Lemma state_assign f w : state_of (assign f w) = on_sess f w.
Proof. reflexivity. Qed.
Lemma log_assign f w : log_of (assign f w) = [].
Proof. reflexivity. Qed.

Lemma state_in_store {A} (m : M database A) w :
  state_of (in_store m w) = on_store (fun _ => state_of (m (store w))) w.
Proof. unfold in_store, state_of. by destruct (m (store w)) as [[a db] l]. Qed.
Lemma log_in_store {A} (m : M database A) w :
  log_of (in_store m w) = log_of (m (store w)).
Proof. unfold in_store, log_of. by destruct (m (store w)) as [[a db] l]. Qed.
Lemma value_in_store {A} (m : M database A) w :
  value_of (in_store m w) = value_of (m (store w)).
Proof. unfold in_store, value_of. by destruct (m (store w)) as [[a db] l]. Qed.

#[global] Hint Rewrite @state_bind @log_bind @value_bind @state_ret @log_ret @value_ret
  @state_get @log_get @value_get @state_modify @log_modify @state_emit @log_emit
  @state_when @log_when state_assign log_assign @state_in_store @log_in_store
  @value_in_store @state_pair @log_pair @value_pair : eff.

Section TimerFacts.

(** [promptAIIfSilent] cancels the timer it armed before, arms one for
    [timeoutMs] from now, and keeps its handle. *)
Lemma promptAIIfSilent_eq timeoutMs w :
  promptAIIfSilent timeoutMs w =
  (tt,
   {| sess := set_silenceTimeout (Some (nextTimer w)) (sess w);
      store := store w; aiOpen := aiOpen w; now := now w;
      timers :=
        match silenceTimeout (sess w) with
        | Some h => List.filter (fun t => negb (handle t =? h)) (timers w)
        | None => timers w
        end ++ [ {| handle := nextTimer w; due := now w + timeoutMs;
                    task := SilencePrompt |} ];
      nextTimer := nextTimer w + 1 |},
   match silenceTimeout (sess w) with
   | Some h => [ClearTimeout h]
   | None => []
   end ++ [SetTimeout (nextTimer w) SilencePrompt timeoutMs]).
Proof.
  unfold promptAIIfSilent, clearTimeout, setTimeout, bind, get, modify, emit, ret,
    assign.
  destruct (silenceTimeout (sess w)); reflexivity.
Qed.

End TimerFacts.

Section EventFacts.
Context `{Runtime}.


Lemma state_handleEndOfSpeech w : state_of (handleEndOfSpeech w) = w.
Proof. unfold handleEndOfSpeech. eff. by destruct (aiOpen w). Qed.

Lemma log_handleEndOfSpeech w :
  log_of (handleEndOfSpeech w) = if aiOpen w then [AiSend SpeechStopped] else [].
Proof. unfold handleEndOfSpeech. eff. by destruct (aiOpen w). Qed.

End EventFacts.

Section SingleEvents.
Context `{Runtime}.

Lemma admin_on_media_state e w :
  state_of (Admin.on_media e w) =
  {| sess :=
       set_silenceTimeout (Some (nextTimer w))
         (set_customerNumbers
            match customerNumbers (sess w) !! media_streamSid e with
            | Some _ => customerNumbers (sess w)
            | None => <[media_streamSid e := customerNumber (sess w)]>
                        (customerNumbers (sess w))
            end
            (set_incomingAudioBuffer
               (if aiOpen w
                then incomingAudioBuffer (sess w) ++ base64_decode (media_payload e)
                else incomingAudioBuffer (sess w))
               (set_latestMediaTimestamp (media_timestamp e) (sess w))));
     store := store w; aiOpen := aiOpen w; now := now w;
     timers :=
       match silenceTimeout (sess w) with
       | Some h => List.filter (fun t => negb (handle t =? h)) (timers w)
       | None => timers w
       end ++ [ {| handle := nextTimer w; due := now w + 10000;
                   task := SilencePrompt |} ];
     nextTimer := nextTimer w + 1 |}.
Proof.
  unfold Admin.on_media. eff. rewrite promptAIIfSilent_eq, !state_handleEndOfSpeech.
  unfold remember_customer. eff. rewrite !addConversation_placeholder. eff.
  destruct (aiOpen w) eqn:Ho, (ends_utterance e); eff; rewrite ?Ho; reflexivity.
Qed.

Lemma admin_on_media_log e w :
  log_of (Admin.on_media e w) =
  (if aiOpen w then [AiSend (InputAudioAppend (media_payload e))] else []) ++
  [CallAddConversation (customerNumber (sess w)) (lit "User audio received") false] ++
  (if aiOpen w && ends_utterance e then [AiSend SpeechStopped] else []) ++
  match silenceTimeout (sess w) with
  | Some h => [ClearTimeout h]
  | None => []
  end ++ [SetTimeout (nextTimer w) SilencePrompt 10000].
Proof.
  unfold Admin.on_media. eff. rewrite promptAIIfSilent_eq, !state_handleEndOfSpeech.
  rewrite !log_handleEndOfSpeech.
  unfold remember_customer. eff. rewrite !addConversation_placeholder. eff.
  destruct (aiOpen w) eqn:Ho, (ends_utterance e); eff; rewrite ?Ho; reflexivity.
Qed.

Lemma indexeeee_on_media_state e w :
  state_of (Indexeeee.on_media e w) =
  on_sess (fun s =>
    set_customerNumbers
      match customerNumbers s !! media_streamSid e with
      | Some _ => customerNumbers s
      | None => <[media_streamSid e := customerNumber s]> (customerNumbers s)
      end
      (set_incomingAudioBuffer
         (if maybe_eqb (media_track e) (Some (lit "inbound"))
          then incomingAudioBuffer s ++ base64_decode (media_payload e)
          else incomingAudioBuffer s)
         (set_latestMediaTimestamp (media_timestamp e) s))) w.
Proof.
  unfold Indexeeee.on_media, remember_customer. eff.
  destruct (maybe_eqb (media_track e) (Some (lit "inbound"))), (aiOpen w) eqn:Ho;
    eff; rewrite ?Ho; reflexivity.
Qed.

Lemma indexeeee_on_media_log e w :
  log_of (Indexeeee.on_media e w) =
  if maybe_eqb (media_track e) (Some (lit "inbound")) && aiOpen w
  then [AiSend (InputAudioAppend (media_payload e))]
  else [].
Proof.
  unfold Indexeeee.on_media, remember_customer. eff.
  destruct (maybe_eqb (media_track e) (Some (lit "inbound"))), (aiOpen w) eqn:Ho;
    eff; rewrite ?Ho; reflexivity.
Qed.

End SingleEvents.

(** C5 (amended). In [admin.js] a [media] event always sets
    [latestMediaTimestamp] to the event's timestamp; its payload is
    forwarded as [input_audio_buffer.append] and appended to
    [incomingAudio] exactly when the AI socket is open; the end-of-speech
    signal is sent exactly when the chunk ends an inbound utterance and the
    AI socket is open.  In [indexeeee.js] the timestamp is set likewise, the
    payload is appended exactly when the track is inbound, forwarded when
    moreover the AI socket is open, and no end-of-speech signal is sent. *)
Theorem media_forwards_and_appends_when_open `{Runtime} (e : media_event) (w : world) :
  (let r := Admin.on_media e w in
   latestMediaTimestamp (sess (state_of r)) = media_timestamp e /\
   incomingAudioBuffer (sess (state_of r)) =
     (if aiOpen w
      then incomingAudioBuffer (sess w) ++ base64_decode (media_payload e)
      else incomingAudioBuffer (sess w)) /\
   ai_sends (log_of r) =
     (if aiOpen w then [InputAudioAppend (media_payload e)] else []) ++
     (if aiOpen w && ends_utterance e then [SpeechStopped] else [])) /\
  (let r := Indexeeee.on_media e w in
   latestMediaTimestamp (sess (state_of r)) = media_timestamp e /\
   incomingAudioBuffer (sess (state_of r)) =
     (if maybe_eqb (media_track e) (Some (lit "inbound"))
      then incomingAudioBuffer (sess w) ++ base64_decode (media_payload e)
      else incomingAudioBuffer (sess w)) /\
   ai_sends (log_of r) =
     (if maybe_eqb (media_track e) (Some (lit "inbound")) && aiOpen w
      then [InputAudioAppend (media_payload e)] else [])).
Proof.
  cbv zeta. rewrite admin_on_media_state, admin_on_media_log,
    indexeeee_on_media_state, indexeeee_on_media_log. fields.
  repeat split.
  - destruct (aiOpen w), (ends_utterance e), (silenceTimeout (sess w)); reflexivity.
  - by destruct (maybe_eqb _ _ && aiOpen w).
Qed.

(** With the AI socket closed, an inbound chunk of three bytes that ends an
    utterance is neither appended to [incomingAudio] nor followed by an
    end-of-speech signal. *)
Lemma media_with_ai_closed_is_not_appended :
  let w := Sample.world_with Sample.started false in
  let r := Admin.on_media Sample.chunk w in
  base64_decode (media_payload Sample.chunk) = [Byte.x00; Byte.x00; Byte.x00] /\
  ends_utterance Sample.chunk = true /\
  incomingAudioBuffer (sess (state_of r)) = [] /\
  ai_sends (log_of r) = [] /\
  ~ Stated.media_appends_and_signals Sample.chunk w.
Proof.
  cbv zeta. rewrite admin_on_media_state, admin_on_media_log.
  split; [by vm_compute|]. split; [by vm_compute|]. split; [by vm_compute|].
  split; [by vm_compute|].
  intros (Happ & _). rewrite admin_on_media_state in Happ. vm_compute in Happ.
  discriminate.
Qed.

(** C9. A [mark] event with an empty [pendingMarks] queue returns and leaves
    the whole state as it was, with no call made; with a non-empty queue it
    removes the first entry and changes nothing else.  The three bridges
    agree. *)
Theorem mark_pops_one_pending_mark `{Runtime} (b : bridge) (w : world) :
  (markQueue (sess w) = [] -> step b (FromTwilio Mark) w = (tt, w, [])) /\
  (forall m q, markQueue (sess w) = m :: q ->
     step b (FromTwilio Mark) w = (tt, on_sess (set_markQueue q) w, [])).
Proof.
  assert (Hstep : step b (FromTwilio Mark) w = on_mark w) by (by destruct b).
  rewrite Hstep. unfold on_mark. split.
  - intros Hq. apply result_eq; eff; rewrite Hq; reflexivity.
  - intros m q Hq. apply result_eq; eff; rewrite Hq; try reflexivity.
    cbn [length Nat.ltb Nat.leb]. unfold on_sess. by rewrite Hq.
Qed.

Lemma mark_pops_one_pending_mark_witness :
  step AdminBridge (FromTwilio Mark) (Sample.world_with Sample.started true) =
    (tt, Sample.world_with Sample.started true, []) /\
  step AdminBridge (FromTwilio Mark)
    (Sample.world_with
       (set_markQueue [lit "responsePart"; lit "responsePart"] Sample.started) true) =
    (tt, Sample.world_with (set_markQueue [lit "responsePart"] Sample.started) true, []).
Proof.
  split.
  - apply (proj1 (mark_pops_one_pending_mark AdminBridge _)). reflexivity.
  - apply (proj2 (mark_pops_one_pending_mark AdminBridge
             (Sample.world_with
                (set_markQueue [lit "responsePart"; lit "responsePart"] Sample.started)
                true)) (lit "responsePart") [lit "responsePart"]).
    reflexivity.
Defined.

(** C8 (amended). On every [media] event [admin.js] asks the store to append
    the placeholder entry ["User audio received"], flagged user-authored,
    for the session's customer; the store drops that entry, so the database
    is left as it was. *)
Theorem media_placeholder_entry_is_dropped `{Runtime} (e : media_event) (w : world) :
  In (CallAddConversation (customerNumber (sess w)) (lit "User audio received") false)
     (log_of (Admin.on_media e w)) /\
  store (state_of (Admin.on_media e w)) = store w /\
  forall phone db,
    state_of (addConversation phone (lit "User audio received") false db) = db.
Proof.
  rewrite admin_on_media_state, admin_on_media_log. fields. repeat split.
  - apply in_or_app. right. by left.
  - intros phone db. by rewrite addConversation_placeholder.
Qed.

(** A customer with a lead sends audio, and the lead's history stays
    empty. *)
Lemma media_records_no_conversation_entry :
  let w := Sample.world_with Sample.started true in
  is_Some (getLead (customerNumber (sess w)) (store w)) /\
  conversations (store (state_of (Admin.on_media Sample.chunk w))) = [] /\
  ~ Stated.media_records_user_entry Sample.chunk w.
Proof.
  cbv zeta. rewrite admin_on_media_state. split; [by eexists|]. split; [done|].
  intros Hrec. destruct (Hrec _ eq_refl) as (c & Hc & _).
  rewrite admin_on_media_state in Hc. vm_compute in Hc. discriminate.
Qed.

(** ** The [stop] event *)

Section StopFacts.
Context `{Runtime}.

(** Transcribing touches nothing but the database. *)
Lemma transcribeAndSaveRecording_frame sid customer path w :
  exists db', state_of (Admin.transcribeAndSaveRecording sid customer path w) =
              on_store (fun _ => db') w.
Proof.
  unfold Admin.transcribeAndSaveRecording. eff.
  destruct (transcription path) as [text|]; eff; [|by exists (store w); destruct w].
  destruct (updateCallTranscript sid (lit "outgoing") text (store w)) as [db1|]; eff;
    [|by exists (store w); destruct w].
  destruct (processAIResponseAndUpdateLead sid text db1) as [db2|]; eff;
    eexists; reflexivity.
Qed.

Lemma set_outgoingAudioBuffer_same s :
  outgoingAudioBuffer s = [] -> set_outgoingAudioBuffer [] s = s.
Proof. destruct s. simpl. by intros ->. Qed.

Lemma length_zero_nil {A} (l : list A) : (0 <? length l)%nat = false -> l = [].
Proof. by destruct l. Qed.

(** [admin.js]: after [stop] the outgoing accumulator is empty and, the
    database apart, only the map of customer numbers has changed. *)
Lemma admin_on_stop_state sid w :
  exists db',
    state_of (Admin.on_stop sid w) =
    {| sess := set_outgoingAudioBuffer []
                 (set_customerNumbers (delete sid (customerNumbers (sess w))) (sess w));
       store := db'; aiOpen := aiOpen w; now := now w; timers := timers w;
       nextTimer := nextTimer w |}.
Proof.
  unfold Admin.on_stop, forget_customer, Admin.saveRecording. eff.
  destruct (0 <? length (outgoingAudioBuffer (sess w)))%nat eqn:Hlen; eff.
  - destruct (recording_saved _ _ _) as [path|]; eff; [|by eexists].
    destruct (transcribeAndSaveRecording_frame
                (streamSid (sess w)) (customerNumber (sess w)) path
                (on_sess (fun s => set_customerNumbers
                                     (delete sid (customerNumbers s)) s) w))
      as [db' ->]. eff. by eexists.
  - exists (store w). apply length_zero_nil in Hlen.
    rewrite set_outgoingAudioBuffer_same by done. reflexivity.
Qed.

(** [admin.js]: with nothing in the outgoing accumulator, [stop] makes no
    call. *)
Lemma admin_on_stop_silent sid w :
  outgoingAudioBuffer (sess w) = [] ->
  log_of (Admin.on_stop sid w) = [] /\
  state_of (Admin.on_stop sid w) = on_sess (fun s => set_customerNumbers
                                       (delete sid (customerNumbers s)) s) w.
Proof.
  intros Hout. unfold Admin.on_stop, forget_customer. eff. rewrite Hout. by eff.
Qed.

Lemma indexeeee_on_stop_state sid w :
  state_of (Indexeeee.on_stop sid w) =
  on_sess (fun s => set_outgoingAudioBuffer []
             (set_incomingAudioBuffer []
                (set_customerNumbers (delete sid (customerNumbers s)) s))) w.
Proof.
  unfold Indexeeee.on_stop, forget_customer, Indexeeee.saveRecording. eff.
  destruct (incomingAudioBuffer (sess w)) as [|x i] eqn:Hin;
    destruct (outgoingAudioBuffer (sess w)) as [|y o] eqn:Hout;
    cbn [length Nat.ltb Nat.leb orb]; eff; try reflexivity.
  unfold on_sess. f_equal. destruct (sess w). simpl in *. by subst.
Qed.

Lemma indexeeee_on_stop_silent sid w :
  incomingAudioBuffer (sess w) = [] -> outgoingAudioBuffer (sess w) = [] ->
  log_of (Indexeeee.on_stop sid w) = [].
Proof.
  intros Hin Hout. unfold Indexeeee.on_stop, forget_customer. eff.
  rewrite Hin, Hout. by eff.
Qed.

End StopFacts.

(** C3 (amended). After a [stop] event the outgoing accumulator is empty in
    both recording bridges, and the handler leaves the pending timers and
    [silenceTimeout] as they were: a silence timer is cancelled only by the
    next rearm.  In [indexeeee.js] the incoming accumulator is empty as
    well, so a later [media] event leaves in it only its own payload. *)
Theorem stop_empties_outgoing_audio_and_keeps_timers `{Runtime}
    (sid : maybe_string) (w : world) :
  (let w' := state_of (Admin.on_stop sid w) in
   outgoingAudioBuffer (sess w') = [] /\
   timers w' = timers w /\
   silenceTimeout (sess w') = silenceTimeout (sess w)) /\
  (let w' := state_of (Indexeeee.on_stop sid w) in
   incomingAudioBuffer (sess w') = [] /\
   outgoingAudioBuffer (sess w') = [] /\
   timers w' = timers w /\
   silenceTimeout (sess w') = silenceTimeout (sess w) /\
   forall e,
     incomingAudioBuffer (sess (state_of (Indexeeee.on_media e w'))) =
       if maybe_eqb (media_track e) (Some (lit "inbound"))
       then base64_decode (media_payload e) else []).
Proof.
  cbv zeta. destruct (admin_on_stop_state sid w) as [db' ->].
  rewrite indexeeee_on_stop_state. fields. repeat split.
  intros e. rewrite indexeeee_on_media_state. fields. reflexivity.
Qed.

(** A call in [admin.js]: the stream starts, the AI socket opens, one
    inbound chunk arrives, the stream stops.  The chunk's three bytes are
    still in [incomingAudio], the silence timer is still pending, and the
    next chunk is appended to those three bytes. *)
Lemma stop_keeps_incoming_audio_and_silence_timer :
  let w := state_of (run AdminBridge
             [FromTwilio (Start Sample.start_of_call); AiOpened;
              FromTwilio (Media Sample.chunk)] (new_world Sample.db)) in
  let w' := state_of (Admin.on_stop (Some (lit "MZ1")) w) in
  incomingAudioBuffer (sess w') = [Byte.x00; Byte.x00; Byte.x00] /\
  silence_timers w' = [ {| handle := 2; due := 10000; task := SilencePrompt |} ] /\
  incomingAudioBuffer (sess (state_of (Admin.on_media Sample.chunk w'))) =
    [Byte.x00; Byte.x00; Byte.x00; Byte.x00; Byte.x00; Byte.x00] /\
  ~ Stated.stop_clears_session (Some (lit "MZ1")) w.
Proof.
  cbv zeta. split; [by vm_compute|]. split; [by vm_compute|].
  split; [by vm_compute|].
  intros (Hin & _). vm_compute in Hin. discriminate.
Qed.

(** ** Timers and the passing of time *)

Section ElapseFacts.

Lemma state_run_task t w : state_of (run_task t w) = w.
Proof. destruct t; unfold run_task; eff; try reflexivity. by destruct (aiOpen w). Qed.

Lemma run_task_no_records t w : no_records (log_of (run_task t w)).
Proof. destruct t; unfold run_task; eff; try reflexivity. by destruct (aiOpen w). Qed.

(** Time passing changes the clock and the pending timers only, and
    records nothing. *)
Lemma elapse_rounds_frame n T w :
  let r := elapse_rounds n T w in
  sess (state_of r) = sess w /\ store (state_of r) = store w /\
  aiOpen (state_of r) = aiOpen w /\ nextTimer (state_of r) = nextTimer w /\
  no_records (log_of r).
Proof.
  revert w. induction n as [|n IH]; intros w; cbv zeta.
  - simpl. by destruct (earliest (timers w)).
  - simpl. destruct (earliest (timers w)) as [t|]; [|done].
    destruct (due t <=? T); [|done]. eff. rewrite state_run_task.
    destruct (IH (on_now (fun n => N.max n (due t))
                   (on_timers (List.filter
                      (fun t' => negb (handle t' =? handle t))) w)))
      as (-> & -> & -> & -> & Hlog).
    repeat split. apply (no_records_app [_]); [done|].
    by apply no_records_app; [apply run_task_no_records|].
Qed.

End ElapseFacts.

(** ** A completed AI turn *)

Section TurnFacts.

(** The calls of the turn-complete handler: with a customer number, the
    conversation entry and then the email update when the pattern matches;
    in every case the text-to-speech frame and the timer of the nudge. *)
Lemma on_content_done_log w :
  log_of (on_content_done w) =
  (if truthy (customerNumber (sess w)) then
     log_of (addConversation (customerNumber (sess w)) (accumulatedText (sess w)) true
               (store w)) ++
     match Regex.exec emailRegex (accumulatedText (sess w)) with
     | Some m => [CallUpdateLeadEmail (customerNumber (sess w)) (Regex.matched m)]
     | None => []
     end
   else []) ++
  [TwilioSend (OutTts (streamSid (sess w)) (accumulatedText (sess w)));
   SetTimeout (nextTimer w) ContinueConversation 5000].
Proof.
  unfold on_content_done, setTimeout. eff.
  destruct (truthy (customerNumber (sess w))); eff; [|reflexivity].
  destruct (Regex.exec emailRegex (accumulatedText (sess w))) as [m|]; eff.
  - rewrite updateLeadEmail_log. by rewrite <- !app_assoc.
  - by rewrite <- !app_assoc.
Qed.

(** The email updates of a completed turn: what [addConversation] makes of
    an [email:] label, then the match of the extraction pattern. *)
Lemma on_content_done_email_updates w :
  email_updates (log_of (on_content_done w)) =
  if truthy (customerNumber (sess w)) then
    label_update (customerNumber (sess w)) (accumulatedText (sess w)) true (store w) ++
    match Regex.exec emailRegex (accumulatedText (sess w)) with
    | Some m => [(customerNumber (sess w), Regex.matched m)]
    | None => []
    end
  else [].
Proof.
  rewrite on_content_done_log, email_updates_app.
  destruct (truthy (customerNumber (sess w))); [|reflexivity].
  rewrite email_updates_app, addConversation_email_updates, app_nil_r.
  by destruct (Regex.exec emailRegex (accumulatedText (sess w))).
Qed.

Lemma on_content_done_no_records w : no_records (log_of (on_content_done w)).
Proof.
  rewrite on_content_done_log. apply no_records_app; [|reflexivity].
  destruct (truthy (customerNumber (sess w))); [|reflexivity].
  apply no_records_app; [apply addConversation_no_records|].
  by destruct (Regex.exec emailRegex (accumulatedText (sess w))).
Qed.

(** Of the session, a completed turn changes the accumulated text only. *)
Lemma on_content_done_sess w :
  sess (state_of (on_content_done w)) = set_accumulatedText [] (sess w).
Proof.
  unfold on_content_done, setTimeout. eff.
  destruct (truthy (customerNumber (sess w))); eff; [|reflexivity].
  destruct (Regex.exec emailRegex (accumulatedText (sess w))); eff; reflexivity.
Qed.

End TurnFacts.

(** C1 (amended). When the text of a completed AI turn holds one address,
    the pattern extracts exactly that address.  With the session's customer
    number set, the handler's extraction then makes exactly one email
    update, for the customer number and with the address; the conversation
    entry that the handler stores first adds at most one email update of
    its own, and none when the text does not contain [email:], so that the
    turn then makes exactly one email update in all.  Without a customer
    number the turn makes no email update. *)
Theorem turn_complete_extracts_the_address (w : world) (ij : nat * nat) :
  EmailShape.sole_address (accumulatedText (sess w)) ij = true ->
  let text := accumulatedText (sess w) in
  let customer := customerNumber (sess w) in
  Regex.exec emailRegex text =
    Some {| Regex.matched := substring ij.1 ij.2 text; Regex.captured := None |} /\
  (truthy customer = true ->
   email_updates (log_of (on_content_done w)) =
     label_update customer text true (store w) ++ [(customer, substring ij.1 ij.2 text)] /\
   (length (label_update customer text true (store w)) <= 1)%nat /\
   (includes text (lit "email:") = false ->
    email_updates (log_of (on_content_done w)) = [(customer, substring ij.1 ij.2 text)])) /\
  (truthy customer = false -> email_updates (log_of (on_content_done w)) = []).
Proof.
  intros Hsole text customer.
  pose proof (exec_emailRegex_sole_address text ij Hsole) as Hexec.
  split; [done|]. split.
  - intros Hcustomer.
    assert (Hupd : email_updates (log_of (on_content_done w)) =
              label_update customer text true (store w) ++
              [(customer, substring ij.1 ij.2 text)]).
    { rewrite on_content_done_email_updates. fold text customer.
      by rewrite Hcustomer, Hexec. }
    split; [done|]. split; [apply label_update_length|].
    intros Hno. by rewrite Hupd, label_update_without_label.
  - intros Hno. rewrite on_content_done_email_updates. fold customer.
    by rewrite Hno.
Qed.

(** The turn of the specification's example: one email update, with the
    whole address. *)
Lemma turn_complete_extracts_the_address_witness :
  let w := Sample.turn_of "Thank you, I've recorded your email as jane.doe@example.com" in
  Regex.exec emailRegex (accumulatedText (sess w)) =
    Some {| Regex.matched := lit "jane.doe@example.com"; Regex.captured := None |} /\
  email_updates (log_of (on_content_done w)) =
    [(Some Sample.phone, lit "jane.doe@example.com")].
Proof.
  pose proof (turn_complete_extracts_the_address
    (Sample.turn_of "Thank you, I've recorded your email as jane.doe@example.com")
    (39, 59)%nat ltac:(vm_compute; reflexivity)) as (Hexec & Hset & _).
  destruct (Hset eq_refl) as (_ & _ & Hone).
  split; [exact Hexec | exact (Hone ltac:(vm_compute; reflexivity))].
Defined.

(** Two turns that say [Your email: jo@ex.com], the only email-shaped
    substring of that text.  To a customer with a lead, the conversation
    entry updates the email and so does the extraction: two updates.  In a
    session without a customer number there is none. *)
Lemma turn_with_email_label_updates_twice :
  EmailShape.email_occurrences (lit "Your email: jo@ex.com") = [(12, 21)%nat] /\
  ~ Stated.turn_updates_email_once (Sample.turn_of "Your email: jo@ex.com")
      (12, 21)%nat /\
  ~ Stated.turn_updates_email_once (Sample.anonymous_turn_of "Your email: jo@ex.com")
      (12, 21)%nat.
Proof.
  split; [by vm_compute|]. split.
  - intros Honce. specialize (Honce ltac:(vm_compute; reflexivity)).
    vm_compute in Honce. discriminate.
  - intros Honce. specialize (Honce ltac:(vm_compute; reflexivity)).
    vm_compute in Honce. discriminate.
Qed.

Example turn_with_email_label :
  email_updates (log_of (on_content_done (Sample.turn_of "Your email: jo@ex.com"))) =
    [(Some Sample.phone, lit "jo@ex.com"); (Some Sample.phone, lit "jo@ex.com")] /\
  email_updates
    (log_of (on_content_done (Sample.anonymous_turn_of "Your email: jo@ex.com"))) = [].
Proof. vm_compute. done. Qed.




(** ** A call without audio *)

Section QuietCall.
Context `{Runtime}.

Lemma on_ai_open_frame w :
  sess (state_of (on_ai_open w)) = sess w /\ log_of (on_ai_open w) =
    [SetTimeout (nextTimer w) InitializeSession 100].
Proof. unfold on_ai_open, setTimeout. eff. done. Qed.

(** An input without audio keeps the accumulators empty and records
    nothing. *)
Lemma step_without_audio b i w :
  carries_audio i = false -> quiet b w ->
  quiet b (state_of (step b i w)) /\ no_records (log_of (step b i w)).
Proof.
  intros Hi Hq. destruct i as [e|e| | | |T]; cbn [step].
  - (* telephony *)
    destruct e as [e|e| |sid|ev]; [|done| | |].
    + destruct b; cbn [Admin.on_twilio Realtime.on_twilio Indexeeee.on_twilio].
      * unfold Admin.on_start. eff. done.
      * split; [done|]. unfold Realtime.on_start. eff.
        by destruct (truthy _).
      * unfold Admin.on_start. eff. done.
    + assert (Hm : state_of (on_mark w) =
                   on_sess (fun s => set_markQueue
                              (if (0 <? length (markQueue s))%nat
                               then tail (markQueue s) else markQueue s) s) w
                   /\ log_of (on_mark w) = []).
      { unfold on_mark. eff. unfold on_sess.
        destruct (0 <? length (markQueue (sess w)))%nat; [done|].
        split; [|done]. destruct w as [[]]; reflexivity. }
      destruct Hm as [Hs Hl].
      destruct b; cbn [Admin.on_twilio Realtime.on_twilio Indexeeee.on_twilio];
        rewrite Hs, Hl; done.
    + destruct b; cbn [Admin.on_twilio Realtime.on_twilio Indexeeee.on_twilio].
      * destruct Hq as [Hin Hout].
        destruct (admin_on_stop_silent sid w Hout) as [-> ->]. done.
      * unfold forget_customer. eff. done.
      * destruct Hq as [Hin Hout].
        rewrite indexeeee_on_stop_state, indexeeee_on_stop_silent by done. done.
    + destruct b; cbn [Admin.on_twilio Realtime.on_twilio Indexeeee.on_twilio];
        by eff.
  - (* AI socket *)
    destruct e as [delta| |delta item|ty]; [| |done|].
    + assert (Ht : sess (state_of (on_text_delta delta w)) =
                   set_accumulatedText (if truthy delta
                     then accumulatedText (sess w) ++ default [] delta
                     else accumulatedText (sess w)) (sess w)
                   /\ log_of (on_text_delta delta w) = []).
      { unfold on_text_delta. eff. unfold on_sess.
        destruct (truthy delta); [done|].
        split; [|done]. by destruct (sess w). }
      destruct Ht as [Hs Hl].
      destruct b; cbn [Admin.on_ai Realtime.on_ai Indexeeee.on_ai quiet];
        rewrite ?Hs, ?Hl; try done; by eff.
    + destruct b; cbn [Admin.on_ai Realtime.on_ai Indexeeee.on_ai quiet];
        try (by eff); unfold buffers_empty;
        rewrite ?on_content_done_sess; (split; [done | apply on_content_done_no_records]).
    + destruct b; cbn [Admin.on_ai Realtime.on_ai Indexeeee.on_ai]; by eff.
  - (* the AI socket opens *)
    destruct (on_ai_open_frame w) as [Hs Hl].
    destruct b; cbn [quiet]; unfold buffers_empty; rewrite ?Hs, ?Hl; by eff.
  - by eff.
  - destruct b; by eff.
  - destruct (elapse_rounds_frame (length (timers w)) T w) as (Hs & _ & _ & _ & Hl).
    unfold elapse. split; [|done]. destruct b; cbn [quiet]; unfold buffers_empty;
      by rewrite ?Hs.
Qed.

Lemma run_without_audio b inputs w :
  forallb (fun i => negb (carries_audio i)) inputs = true -> quiet b w ->
  quiet b (state_of (run b inputs w)) /\ no_records (log_of (run b inputs w)).
Proof.
  revert w. induction inputs as [|i inputs IH]; intros w Hall Hq; [done|].
  simpl in Hall. apply andb_true_iff in Hall as [Hi Hall].
  apply negb_true_iff in Hi.
  destruct (step_without_audio b i w Hi Hq) as [Hq1 Hl1].
  cbn [run]. eff.
  destruct (IH _ Hall Hq1) as [Hq2 Hl2]. split; [done|].
  by apply no_records_app.
Qed.

End QuietCall.

Section QuietStart.
Context `{Runtime}.

(** A [start] event leaves the accumulators empty and records nothing. *)
Lemma start_is_quiet b e w :
  quiet b (state_of (step b (FromTwilio (Start e)) w)) /\
  no_records (log_of (step b (FromTwilio (Start e)) w)).
Proof.
  destruct b; cbn [step Admin.on_twilio Realtime.on_twilio Indexeeee.on_twilio quiet].
  - unfold Admin.on_start. eff. done.
  - split; [done|]. unfold Realtime.on_start. eff. by destruct (truthy _).
  - unfold Admin.on_start. eff. done.
Qed.

(** With empty accumulators a [stop] event makes no call at all. *)
Lemma stop_when_quiet_is_silent b sid w :
  quiet b w -> log_of (step b (FromTwilio (Stop sid)) w) = [].
Proof.
  intros Hq. destruct b; cbn [step Admin.on_twilio Realtime.on_twilio Indexeeee.on_twilio].
  - destruct Hq as [_ Hout]. by destruct (admin_on_stop_silent sid w Hout).
  - unfold forget_customer. by eff.
  - destruct Hq as [Hin Hout]. by apply indexeeee_on_stop_silent.
Qed.

Lemma run_app b inputs1 inputs2 w :
  state_of (run b (inputs1 ++ inputs2) w) =
    state_of (run b inputs2 (state_of (run b inputs1 w))) /\
  log_of (run b (inputs1 ++ inputs2) w) =
    log_of (run b inputs1 w) ++ log_of (run b inputs2 (state_of (run b inputs1 w))).
Proof.
  revert w. induction inputs1 as [|i inputs1 IH]; intros w; [done|].
  cbn [run app]. eff. destruct (IH (state_of (step b i w))) as [-> ->].
  by rewrite app_assoc.
Qed.

End QuietStart.

(** C7. When a [start] event is followed by a [stop] event with no [media]
    event and no AI audio in between, whatever else happens in between, both
    accumulators are empty at [stop], the [stop] event makes no call, and
    the whole run holds no recording and no transcription. *)
Theorem start_then_stop_records_nothing `{Runtime} (b : bridge) (w : world)
    (e : start_event) (between : list input) (sid : maybe_string) :
  forallb (fun i => negb (carries_audio i)) between = true ->
  let at_stop := state_of (run b (FromTwilio (Start e) :: between) w) in
  quiet b at_stop /\
  log_of (step b (FromTwilio (Stop sid)) at_stop) = [] /\
  no_records
    (log_of (run b (FromTwilio (Start e) :: between ++ [FromTwilio (Stop sid)]) w)).
Proof.
  intros Hbetween at_stop.
  destruct (start_is_quiet b e w) as [Hq0 Hl0].
  destruct (run_without_audio b between _ Hbetween Hq0) as [Hq1 Hl1].
  assert (Hat : at_stop = state_of (run b between
                             (state_of (step b (FromTwilio (Start e)) w)))).
  { unfold at_stop. cbn [run]. by eff. }
  rewrite Hat. split; [done|].
  pose proof (stop_when_quiet_is_silent b sid _ Hq1) as Hstop.
  split; [done|].
  change (FromTwilio (Start e) :: between ++ [FromTwilio (Stop sid)])
    with ((FromTwilio (Start e) :: between) ++ [FromTwilio (Stop sid)]).
  destruct (run_app b (FromTwilio (Start e) :: between) [FromTwilio (Stop sid)] w)
    as [_ ->].
  apply no_records_app.
  - cbn [run]. eff. by apply no_records_app.
  - fold at_stop. rewrite Hat. cbn [run]. eff. rewrite Hstop. done.
Qed.

(** A call in [admin.js] that stops before any audio: the AI socket opens,
    a text delta and a stray [mark] arrive, time passes. *)
Lemma start_then_stop_records_nothing_witness :
  let between := [AiOpened; FromAi (TextDelta (Some (lit "Hi")));
                  FromTwilio Mark; Elapse 200] in
  let at_stop := state_of (run AdminBridge
                   (FromTwilio (Start Sample.start_of_call) :: between)
                   (new_world Sample.db)) in
  quiet AdminBridge at_stop /\
  log_of (step AdminBridge (FromTwilio (Stop (Some (lit "MZ1")))) at_stop) = [] /\
  no_records
    (log_of (run AdminBridge
       (FromTwilio (Start Sample.start_of_call)
          :: between ++ [FromTwilio (Stop (Some (lit "MZ1")))])
       (new_world Sample.db))).
Proof.
  exact (start_then_stop_records_nothing AdminBridge (new_world Sample.db)
           Sample.start_of_call
           [AiOpened; FromAi (TextDelta (Some (lit "Hi"))); FromTwilio Mark; Elapse 200]
           (Some (lit "MZ1")) eq_refl).
Defined.

(** ** The silence timer *)

Section SilenceTimer.







End SilenceTimer.

Section Elapse.








End Elapse.

Section TimersInvariant.
Context `{Runtime}.

Lemma NoDup_snoc {A} (l : list A) x :
  List.NoDup l -> ~ In x l -> List.NoDup (l ++ [x]).
Proof.
  induction l as [|y l IH]; simpl; intros Hnd Hx.
  - apply NoDup_cons_iff. split; [by intros [] | constructor].
  - apply NoDup_cons_iff in Hnd as [Hy Hnd]. apply NoDup_cons_iff. split.
    + intros Hin. apply in_app_iff in Hin as [?|[->|[]]]; [done|]. apply Hx. by left.
    + apply IH; [done|]. intros ?. apply Hx. by right.
Qed.




End TimersInvariant.

Section StepInvariant.
Context `{Runtime}.






End StepInvariant.

Section Rearm.
Context `{Runtime}.










End Rearm.




Example two_rearms_then_one_fire :
  silence_fires
    (log_of (run AdminBridge
       [FromTwilio (Start Sample.start_of_call); AiOpened;
        FromTwilio (Media Sample.chunk); Elapse 4000;
        FromTwilio (Media Sample.chunk); Elapse 20000] (new_world Sample.db))) = [14000].
Proof. vm_compute. reflexivity. Qed.

(** ** The store: writing and reading back *)

Section StoreRoundTrips.

(** A canonical form is its own canonical form. *)
Lemma standardizePhoneNumber_fixed number canon :
  standardizePhoneNumber number = Some canon ->
  standardizePhoneNumber (Some canon) = Some canon.
Proof.
  destruct (truthy number) eqn:Ht.
  2: { rewrite standardizePhoneNumber_falsy by done. discriminate. }
  rewrite standardizePhoneNumber_truthy by done.
  set (ds := digits_of number).
  assert (Hplus : forall p, digits_of (Some (p ++ ds)) = digitsOnly p ++ ds).
  { intros p. change (digits_of (Some (p ++ ds))) with (digitsOnly (p ++ ds)).
    rewrite digitsOnly_app. f_equal. apply digitsOnly_idem. }
  destruct (Nat.eqb_spec (length ds) 11) as [E11|E11]; cbn [andb].
  - destruct (startsWith ds (lit "1")) eqn:Hsw.
    + intros Hc. assert (canon = lit "+" ++ ds) as -> by congruence.
      rewrite standardizePhoneNumber_truthy by done.
      rewrite Hplus. change (digitsOnly (lit "+") ++ ds) with ds.
      by rewrite E11, Hsw.
    + destruct (Nat.eqb_spec (length ds) 10); [lia | discriminate].
  - destruct (Nat.eqb_spec (length ds) 10) as [E10|E10]; [|discriminate].
    intros Hc. assert (canon = lit "+1" ++ ds) as -> by congruence.
    rewrite standardizePhoneNumber_truthy by done.
    rewrite Hplus. change (digitsOnly (lit "+1") ++ ds) with (49 :: ds).
    cbn [length]. by rewrite E10.
Qed.

Lemma getLead_canonical number canon db :
  standardizePhoneNumber number = Some canon ->
  getLead number db = List.find (lead_matches canon) (leads db).
Proof. intros Hc. unfold getLead. by rewrite Hc. Qed.

Lemma getLead_fixed number canon db :
  standardizePhoneNumber number = Some canon ->
  getLead (Some canon) db = getLead number db.
Proof.
  intros Hc. rewrite (getLead_canonical number canon) by done.
  apply getLead_canonical. by apply (standardizePhoneNumber_fixed number).
Qed.

(** An update that keeps the two phone columns keeps which row is found. *)
Lemma find_update phone (f : lead -> lead) (ls : list lead) :
  (forall l, lead_matches phone (f l) = lead_matches phone l) ->
  List.find (lead_matches phone)
    (List.map (fun l => if lead_matches phone l then f l else l) ls) =
  f <$> List.find (lead_matches phone) ls.
Proof.
  intros Hf. induction ls as [|l ls IH]; [done|]. cbn [List.map List.find].
  destruct (lead_matches phone l) eqn:Hm.
  - by rewrite Hf, Hm.
  - by rewrite Hm.
Qed.

Lemma find_none_changes phone db :
  List.find (lead_matches phone) (leads db) = None <-> changes phone db = 0%nat.
Proof.
  unfold changes. induction (leads db) as [|l ls IH]; [done|].
  cbn [List.find List.filter]. destruct (lead_matches phone l); [|done].
  split; discriminate.
Qed.

Lemma update_none phone f db :
  changes phone db = 0%nat -> update_leads phone f db = db.
Proof.
  intros Hc. apply find_none_changes in Hc. destruct db as [ls cs n m].
  unfold update_leads. cbn in *. f_equal.
  induction ls as [|l ls IH]; [done|]. cbn in *.
  destruct (lead_matches phone l); [done|]. by rewrite IH.
Qed.

Lemma find_app_l {A} (p : A -> bool) (l1 l2 : list A) x :
  List.find p l1 = Some x -> List.find p (l1 ++ l2) = Some x.
Proof. induction l1 as [|y l1 IH]; [done|]. simpl. by destruct (p y). Qed.

Lemma find_app_r {A} (p : A -> bool) (l1 l2 : list A) :
  List.find p l1 = None -> List.find p (l1 ++ l2) = List.find p l2.
Proof. induction l1 as [|y l1 IH]; [done|]. simpl. by destruct (p y). Qed.

Lemma lead_matches_own phone l :
  l_phone_number l = Some phone -> lead_matches phone l = true.
Proof. intros Hp. unfold lead_matches. rewrite Hp. cbn. by rewrite eqb_refl. Qed.

(** [updateLeadEmail] on a number with a canonical form, in closed form. *)
Lemma updateLeadEmail_state number email canon db :
  standardizePhoneNumber number = Some canon ->
  state_of (updateLeadEmail number email db) =
    if (changes canon db =? 0)%nat
    then insert_lead canon email db
    else update_leads canon (with_email email) db.
Proof.
  intros Hc. unfold updateLeadEmail. rewrite Hc. eff.
  destruct (Nat.eqb_spec (changes canon db) 0) as [E|E]; [|done].
  by rewrite update_none.
Qed.

Lemma updateLeadEmail_value number email canon db :
  standardizePhoneNumber number = Some canon ->
  value_of (updateLeadEmail number email db) =
    getLead number (state_of (updateLeadEmail number email db)).
Proof.
  intros Hc. rewrite <- (getLead_fixed number canon) by done.
  unfold updateLeadEmail. rewrite Hc. by eff.
Qed.

Lemma updateLeadEmail_invalid number email db :
  standardizePhoneNumber number = None ->
  state_of (updateLeadEmail number email db) = db /\
  value_of (updateLeadEmail number email db) = None.
Proof. intros Hc. unfold updateLeadEmail. rewrite Hc. by eff. Qed.

Lemma with_email_same email l : l_email l = Some email -> with_email email l = l.
Proof. destruct l. cbn. by intros ->. Qed.

End StoreRoundTrips.

Lemma updateLeadEmail_reads_back_the_email_aux number email canon db :
  standardizePhoneNumber number = Some canon ->
  exists l,
    value_of (updateLeadEmail number email db) = Some l /\
    getLead number (state_of (updateLeadEmail number email db)) = Some l /\
    l_email l = Some email /\
    lead_matches canon l = true.
Proof.
  intros Hc. rewrite (updateLeadEmail_value number email canon) by done.
  rewrite (updateLeadEmail_state number email canon) by done.
  rewrite !(getLead_canonical number canon) by done.
  destruct (Nat.eqb_spec (changes canon db) 0) as [E|E].
  - apply find_none_changes in E. eexists. split; [|split; [|split]].
    + unfold insert_lead. cbn [leads]. rewrite find_app_r by done.
      cbn [List.find]. rewrite lead_matches_own by done. reflexivity.
    + unfold insert_lead. cbn [leads]. rewrite find_app_r by done.
      cbn [List.find]. rewrite lead_matches_own by done. reflexivity.
    + reflexivity.
    + by apply lead_matches_own.
  - unfold update_leads. cbn [leads]. rewrite find_update by done.
    destruct (List.find (lead_matches canon) (leads db)) as [l|] eqn:Hf.
    + exists (with_email email l). repeat split.
      apply List.find_some in Hf as [_ Hm]. exact Hm.
    + by apply find_none_changes in Hf.
Qed.

(** X1. For a number that has a canonical form and an email that the store
    gives back as written (well-formed text without a NUL), [updateLeadEmail]
    returns a lead, the one [getLead] finds afterwards, and that lead
    carries the email just written: the branch that reports a failed update
    is not taken. *)
Theorem updateLeadEmail_reads_back_the_email (number : maybe_string)
    (email canon : jsstring) (db : database) :
  standardizePhoneNumber number = Some canon ->
  kept_as_written email = true ->
  exists l,
    value_of (updateLeadEmail number email db) = Some l /\
    getLead number (state_of (updateLeadEmail number email db)) = Some l /\
    l_email l = Some email /\
    lead_matches canon l = true.
Proof. intros Hc _. by apply updateLeadEmail_reads_back_the_email_aux. Qed.

Lemma updateLeadEmail_reads_back_the_email_witness :
  exists l,
    value_of (updateLeadEmail (Some (lit "(262) 691-2510")) (lit "jane@example.com")
                Sample.db) = Some l /\
    l_email l = Some (lit "jane@example.com").
Proof.
  destruct (updateLeadEmail_reads_back_the_email (Some (lit "(262) 691-2510"))
              (lit "jane@example.com") Sample.phone Sample.db) as (l & Hv & _ & He & _).
  - reflexivity.
  - reflexivity.
  - exists l. by split.
Defined.

Section StoreUpdates.

Lemma update_leads_idem phone email db :
  update_leads phone (with_email email) (update_leads phone (with_email email) db) =
  update_leads phone (with_email email) db.
Proof.
  unfold update_leads. cbn [leads conversations leads_seq conversations_seq]. f_equal.
  rewrite List.map_map. apply List.map_ext. intros l.
  destruct (lead_matches phone l) eqn:Hm.
  - change (lead_matches phone (with_email email l)) with (lead_matches phone l).
    by rewrite Hm.
  - by rewrite Hm.
Qed.

Lemma changes_update phone f db :
  (forall l, lead_matches phone (f l) = lead_matches phone l) ->
  changes phone (update_leads phone f db) = changes phone db.
Proof.
  intros Hf. unfold changes, update_leads. cbn [leads].
  induction (leads db) as [|l ls IH]; [done|]. cbn [List.map List.filter].
  destruct (lead_matches phone l) eqn:Hm.
  - rewrite Hf, Hm. cbn [length]. by rewrite IH.
  - by rewrite Hm.
Qed.

Lemma changes_insert_row phone name alternate email status db :
  changes phone (insert_row name (Some phone) alternate email status db) =
  S (changes phone db).
Proof.
  unfold changes, insert_row. cbn [leads]. rewrite List.filter_app, length_app.
  cbn [List.filter]. rewrite lead_matches_own by done. cbn [length]. lia.
Qed.

Lemma insert_lead_row phone email db :
  insert_lead phone email db =
  insert_row None (Some phone) None (Some email) (Some (lit "new")) db.
Proof. reflexivity. Qed.

End StoreUpdates.

(** X2. A second call of [updateLeadEmail] with the same number and email
    adds no row and changes no column that is kept here: the id, the name,
    the two numbers, the email and the status of every lead, and every
    conversation, are as the first call left them.  (The statement of the
    source writes [last_updated] again on the rows it matches; that column
    is not kept, and nothing is said of it.) *)
Theorem updateLeadEmail_again_changes_no_kept_column (number : maybe_string)
    (email : jsstring) (db : database) :
  let db1 := state_of (updateLeadEmail number email db) in
  let db2 := state_of (updateLeadEmail number email db1) in
  length (leads db2) = length (leads db1) /\
  Forall2 (fun l2 l1 =>
             l_id l2 = l_id l1 /\ l_name l2 = l_name l1 /\
             l_phone_number l2 = l_phone_number l1 /\
             l_alternate_phone l2 = l_alternate_phone l1 /\
             l_email l2 = l_email l1 /\ l_status l2 = l_status l1)
          (leads db2) (leads db1) /\
  conversations db2 = conversations db1.
Proof.
  cbn zeta.
  assert (Hsame : state_of (updateLeadEmail number email
                              (state_of (updateLeadEmail number email db))) =
                  state_of (updateLeadEmail number email db)).
  { destruct (standardizePhoneNumber number) as [canon|] eqn:Hc.
    2: { by rewrite !(proj1 (updateLeadEmail_invalid number email _ Hc)). }
    rewrite !(updateLeadEmail_state number email canon) by done.
    destruct (Nat.eqb_spec (changes canon db) 0) as [E|E].
    - rewrite insert_lead_row, changes_insert_row. cbn [Nat.eqb].
      rewrite <- insert_lead_row. unfold update_leads, insert_lead.
      cbn [leads conversations leads_seq conversations_seq]. f_equal.
      rewrite List.map_app. f_equal.
      + apply find_none_changes in E. induction (leads db) as [|l ls IH]; [done|].
        cbn in *. destruct (lead_matches canon l); [done|]. by rewrite IH.
      + cbn [List.map]. by rewrite lead_matches_own.
    - rewrite changes_update by done.
      destruct (Nat.eqb_spec (changes canon db) 0); [done|].
      apply update_leads_idem. }
  rewrite Hsame. split; [done|]. split; [|done].
  induction (leads (state_of (updateLeadEmail number email db))) as [|l ls IH];
    constructor; done.
Qed.

(** X3. [updateLeadEmail] changes nothing but the email of the leads it
    matches: a lead under another number stays as it is, the conversations
    are untouched, and no lead is removed. *)
Theorem updateLeadEmail_leaves_other_leads (number : maybe_string)
    (email canon : jsstring) (db : database) :
  standardizePhoneNumber number = Some canon ->
  let db' := state_of (updateLeadEmail number email db) in
  (forall l, In l (leads db) -> lead_matches canon l = false -> In l (leads db')) /\
  conversations db' = conversations db /\
  List.map l_id (leads db) `prefix_of` List.map l_id (leads db').
Proof.
  intros Hc. cbn zeta. rewrite (updateLeadEmail_state number email canon) by done.
  destruct (changes canon db =? 0)%nat.
  - split; [|split].
    + intros l Hin _. unfold insert_lead. cbn [leads]. apply in_or_app. by left.
    + reflexivity.
    + unfold insert_lead. cbn [leads]. rewrite List.map_app. by eexists.
  - split; [|split].
    + intros l Hin Hm. unfold update_leads. cbn [leads]. apply in_map_iff.
      exists l. by rewrite Hm.
    + reflexivity.
    + unfold update_leads. cbn [leads]. rewrite List.map_map.
      erewrite List.map_ext; [reflexivity|]. intros l. cbn beta.
      by destruct (lead_matches canon l).
Qed.

Lemma updateLeadEmail_leaves_other_leads_witness :
  let db' := state_of (updateLeadEmail (Some (lit "414-555-0100")) (lit "bob@example.com")
                         Sample.db) in
  (forall l, In l (leads Sample.db) -> lead_matches (lit "+14145550100") l = false ->
             In l (leads db')) /\
  conversations db' = conversations Sample.db /\
  List.map l_id (leads Sample.db) `prefix_of` List.map l_id (leads db').
Proof.
  apply (updateLeadEmail_leaves_other_leads (Some (lit "414-555-0100"))).
  reflexivity.
Defined.

(** X4. The write test succeeds on every store, so that [GET
    /test-db-write] answers 200, and it leaves in the table a lead for its
    test number that carries its test email. *)
Theorem testDatabaseWrite_succeeds_and_leaves_its_lead (db : database) :
  value_of (testDatabaseWrite db) = true /\
  value_of (test_db_write_route db) = 200%nat /\
  exists l,
    getLead (Some testPhoneNumber) (state_of (testDatabaseWrite db)) = Some l /\
    l_email l = Some testEmail.
Proof.
  assert (Hc : standardizePhoneNumber (Some testPhoneNumber) = Some testPhoneNumber)
    by reflexivity.
  destruct (updateLeadEmail_reads_back_the_email_aux (Some testPhoneNumber) testEmail
              testPhoneNumber db Hc) as (l & Hv & Hg & He & _).
  unfold test_db_write_route, testDatabaseWrite. eff. rewrite Hv, He.
  cbn [maybe_eqb]. rewrite eqb_refl. split; [done|]. split; [done|]. by exists l.
Qed.

Section StoreWrites.

Lemma addLead_state leadData canon db :
  standardizePhoneNumber (ld_phone_number leadData) = Some canon ->
  state_of (addLead leadData db) =
  insert_row (ld_name leadData) (Some canon) (ld_alternate_phone leadData)
    (ld_email leadData) (default (Some (lit "new")) (ld_status leadData)) db.
Proof. intros Hc. unfold addLead. rewrite Hc. by eff. Qed.

Lemma find_insert_row phone name alternate email status db :
  List.find (lead_matches phone)
    (leads (insert_row name (Some phone) alternate email status db)) =
  match List.find (lead_matches phone) (leads db) with
  | Some l => Some l
  | None => Some {| l_id := leads_seq db + 1; l_name := name;
                    l_phone_number := Some phone; l_alternate_phone := alternate;
                    l_email := email; l_status := status |}
  end.
Proof.
  unfold insert_row. cbn [leads].
  destruct (List.find (lead_matches phone) (leads db)) as [l|] eqn:Hf.
  - by apply find_app_l.
  - rewrite find_app_r by done. cbn [List.find]. by rewrite lead_matches_own.
Qed.

Lemma updateLeadStatus_state number status canon db :
  standardizePhoneNumber number = Some canon ->
  state_of (updateLeadStatus number status db) =
  update_leads canon (with_status status) db.
Proof. intros Hc. unfold updateLeadStatus. rewrite Hc. by eff. Qed.

Lemma getLead_invalid number db :
  standardizePhoneNumber number = None -> getLead number db = None.
Proof. intros Hc. unfold getLead. by rewrite Hc. Qed.

End StoreWrites.

(** X5. [addLead] never replaces a row: with a number that has a canonical
    form it adds one, so a lead that was already there for that number is
    still the one [getLead] finds, and the data added is found only when the
    number was new. *)
Theorem addLead_adds_a_row_behind_the_old_one (leadData : lead_data)
    (canon : jsstring) (db : database) :
  standardizePhoneNumber (ld_phone_number leadData) = Some canon ->
  let db' := state_of (addLead leadData db) in
  length (leads db') = S (length (leads db)) /\
  (forall l, getLead (Some canon) db = Some l -> getLead (Some canon) db' = Some l) /\
  (getLead (Some canon) db = None ->
   exists l, getLead (Some canon) db' = Some l /\
             l_phone_number l = Some canon /\
             l_name l = ld_name leadData /\
             l_email l = ld_email leadData /\
             l_status l = default (Some (lit "new")) (ld_status leadData)).
Proof.
  intros Hc. cbn zeta. rewrite (addLead_state leadData canon) by done.
  assert (Hfix := standardizePhoneNumber_fixed _ _ Hc).
  rewrite !(getLead_canonical (Some canon) canon) by done.
  rewrite find_insert_row. split; [|split].
  - unfold insert_row. cbn [leads]. rewrite length_app. cbn [length]. lia.
  - by intros l ->.
  - intros ->. eexists. by repeat split.
Qed.

Lemma addLead_adds_a_row_behind_the_old_one_witness :
  let leadData := {| ld_name := Some (lit "Jane"); ld_phone_number := Some (lit "262-691-2510");
                     ld_alternate_phone := None; ld_email := Some (lit "jane@example.com");
                     ld_status := None |} in
  let db' := state_of (addLead leadData Sample.db) in
  length (leads db') = 2%nat /\
  (l_name <$> getLead (Some Sample.phone) db') = Some (Some (lit "Unknown")).
Proof.
  cbn zeta.
  destruct (addLead_adds_a_row_behind_the_old_one
              {| ld_name := Some (lit "Jane"); ld_phone_number := Some (lit "262-691-2510");
                 ld_alternate_phone := None; ld_email := Some (lit "jane@example.com");
                 ld_status := None |} Sample.phone Sample.db) as (Hn & Hold & _).
  - reflexivity.
  - split; [exact Hn|]. erewrite Hold by (vm_compute; reflexivity). reflexivity.
Defined.

(** X6. A number that has no canonical form changes nothing: every function
    of the store that is given one returns without touching the tables, and
    [addTwilioDevPhone] throws. *)
Theorem number_without_canonical_form_changes_nothing (number : maybe_string)
    (db : database) :
  standardizePhoneNumber number = None ->
  getLead number db = None /\
  (forall leadData, ld_phone_number leadData = number ->
     state_of (addLead leadData db) = db) /\
  (forall status, state_of (updateLeadStatus number status db) = db) /\
  (forall email, state_of (updateLeadEmail number email db) = db /\
                 value_of (updateLeadEmail number email db) = None) /\
  (forall content isAiResponse,
     state_of (addConversation number content isAiResponse db) = db) /\
  (forall other, state_of (updatePhoneNumberFormat number other db) = db /\
                 state_of (updatePhoneNumberFormat other number db) = db) /\
  addTwilioDevPhone number db = (None, db, []).
Proof.
  intros Hc. repeat split.
  - by apply getLead_invalid.
  - intros d <-. unfold addLead. by rewrite Hc.
  - unfold updateLeadStatus. rewrite Hc. by eff.
  - by apply updateLeadEmail_invalid.
  - by apply updateLeadEmail_invalid.
  - unfold addConversation. rewrite Hc. by eff.
  - unfold updatePhoneNumberFormat. by rewrite Hc.
  - unfold updatePhoneNumberFormat. rewrite Hc.
    by destruct (standardizePhoneNumber other).
  - unfold addTwilioDevPhone. by rewrite Hc.
Qed.

Lemma number_without_canonical_form_changes_nothing_witness :
  state_of (updateLeadStatus (Some (lit "691-2510")) (lit "called") Sample.db) = Sample.db /\
  addTwilioDevPhone (Some (lit "691-2510")) Sample.db = (None, Sample.db, []).
Proof.
  destruct (number_without_canonical_form_changes_nothing (Some (lit "691-2510"))
              Sample.db) as (_ & _ & Hs & _ & _ & _ & Ht).
  - reflexivity.
  - split; [apply Hs | exact Ht].
Defined.

Lemma updateLeadStatus_getLead number status db :
  let db' := state_of (updateLeadStatus number status db) in
  (forall l, getLead number db = Some l ->
     getLead number db' = Some (with_status status l)) /\
  (getLead number db = None -> db' = db).
Proof.
  cbn zeta. destruct (standardizePhoneNumber number) as [canon|] eqn:Hc.
  - rewrite (updateLeadStatus_state number status canon) by done.
    rewrite !(getLead_canonical number canon) by done. split.
    + intros l Hf. unfold update_leads. cbn [leads].
      rewrite find_update by done. by rewrite Hf.
    + intros Hf. apply update_none. by apply find_none_changes.
  - split.
    + by rewrite getLead_invalid.
    + intros _. unfold updateLeadStatus. rewrite Hc. by eff.
Qed.

(** X7. [updateLeadStatus] is read back by [getLead]: the lead found for the
    number is the one found before, with the new status.  When no lead
    matches, the status is lost: nothing is inserted and the store is
    unchanged. *)
Theorem updateLeadStatus_is_read_back (number : maybe_string) (status : jsstring)
    (db : database) :
  let db' := state_of (updateLeadStatus number status db) in
  (forall l, getLead number db = Some l ->
     getLead number db' = Some (with_status status l)) /\
  (getLead number db = None -> db' = db).
Proof. apply updateLeadStatus_getLead. Qed.

Lemma updateLeadStatus_is_read_back_witness :
  (l_status <$> getLead (Some (lit "262 691 2510"))
     (state_of (updateLeadStatus (Some (lit "262 691 2510")) (lit "call_completed")
                  Sample.db))) = Some (Some (lit "call_completed")) /\
  state_of (updateLeadStatus (Some (lit "414 555 0100")) (lit "call_completed") Sample.db)
    = Sample.db.
Proof.
  destruct (updateLeadStatus_is_read_back (Some (lit "262 691 2510"))
              (lit "call_completed") Sample.db) as [Hfound _].
  destruct (updateLeadStatus_is_read_back (Some (lit "414 555 0100"))
              (lit "call_completed") Sample.db) as [_ Hlost].
  split.
  - erewrite Hfound by (vm_compute; reflexivity). reflexivity.
  - apply Hlost. reflexivity.
Defined.

(** X8. [addConversation] for a number that no lead has stores nothing, not
    even a response of the AI: the entry is lost without an error. *)
Theorem addConversation_without_a_lead_stores_nothing (number : maybe_string)
    (content : jsstring) (isAiResponse : bool) (db : database) :
  getLead number db = None ->
  state_of (addConversation number content isAiResponse db) = db /\
  email_updates (log_of (addConversation number content isAiResponse db)) = [].
Proof.
  intros Hf. split.
  - unfold addConversation. destruct (standardizePhoneNumber number) as [canon|] eqn:Hc.
    + eff. rewrite (getLead_fixed number canon) by done. rewrite Hf. by eff.
    + by eff.
  - rewrite addConversation_email_updates. unfold label_update.
    destruct (standardizePhoneNumber number) as [canon|] eqn:Hc; [|done].
    rewrite (getLead_fixed number canon) by done. by rewrite Hf.
Qed.

Lemma addConversation_without_a_lead_stores_nothing_witness :
  state_of (addConversation (Some (lit "414 555 0100"))
              (lit "My email: bob@example.com") true Sample.db) = Sample.db.
Proof.
  apply (addConversation_without_a_lead_stores_nothing (Some (lit "414 555 0100"))).
  reflexivity.
Defined.

(** ** The store: what every write keeps *)

Section StoreInvariants.

Lemma eqb_eq (a b : jsstring) : eqb a b = true <-> a = b.
Proof.
  revert b. induction a as [|x a IH]; intros [|y b]; cbn [eqb]; try done.
  rewrite andb_true_iff, N.eqb_eq, IH. split; [by intros [-> ->] | by intros [= -> ->]].
Qed.

Lemma maybe_eqb_Some (a : maybe_string) (b : jsstring) :
  maybe_eqb a (Some b) = true <-> a = Some b.
Proof.
  destruct a as [a|]; cbn [maybe_eqb]; [|done].
  rewrite eqb_eq. split; congruence.
Qed.

Lemma digitsOnly_digits s : forallb is_digit (digitsOnly s) = true.
Proof.
  unfold digitsOnly. induction s as [|c s IH]; [done|]. cbn [List.filter].
  destruct (is_digit c) eqn:E; [|done]. cbn [forallb]. by rewrite E.
Qed.

Lemma standardizePhoneNumber_is_canonical number canon :
  standardizePhoneNumber number = Some canon -> is_canonical canon = true.
Proof.
  destruct (truthy number) eqn:Ht.
  2: { rewrite standardizePhoneNumber_falsy by done. discriminate. }
  rewrite standardizePhoneNumber_truthy by done.
  pose proof (digitsOnly_digits (default [] number)) as Hds.
  fold (digits_of number) in Hds. set (ds := digits_of number) in *.
  destruct (Nat.eqb_spec (length ds) 11) as [E11|E11]; cbn [andb].
  - destruct (startsWith ds (lit "1")) eqn:Hsw.
    + intros Hc. assert (canon = lit "+" ++ ds) as -> by congruence.
      apply startsWith_one_head in Hsw. destruct ds as [|d ds']; [done|].
      injection Hsw as ->. cbn [forallb] in Hds. apply andb_true_iff in Hds as [_ Hds].
      unfold is_canonical. change (lit "+" ++ 49 :: ds') with (43 :: 49 :: ds').
      change (lit "+1") with [43; 49]. cbn [startsWith drop length] in *.
      rewrite drop_0, Hds, !N.eqb_refl. cbn [andb].
      rewrite andb_true_r. apply Nat.eqb_eq. lia.
    + destruct (Nat.eqb_spec (length ds) 10); [lia | discriminate].
  - destruct (Nat.eqb_spec (length ds) 10) as [E10|E10]; [|discriminate].
    intros Hc. assert (canon = lit "+1" ++ ds) as -> by congruence.
    unfold is_canonical. change (lit "+1" ++ ds) with (43 :: 49 :: ds).
    change (lit "+1") with [43; 49]. cbn [startsWith drop length].
    rewrite drop_0, Hds, !N.eqb_refl. cbn [andb].
    rewrite andb_true_r. apply Nat.eqb_eq. lia.
Qed.

(** A canonical number is [+1] and ten digits. *)
Lemma is_canonical_shape c :
  is_canonical c = true <->
  exists ds, c = 43 :: 49 :: ds /\ length ds = 10%nat /\ forallb is_digit ds = true.
Proof.
  unfold is_canonical. change (lit "+1") with [43; 49]. split.
  - intros H. apply andb_true_iff in H as [H Hd]. apply andb_true_iff in H as [Hs Hl].
    destruct c as [|a [|b ds]]; cbn [startsWith] in Hs; try done.
    apply andb_true_iff in Hs as [Ha Hs]. apply andb_true_iff in Hs as [Hb _].
    apply N.eqb_eq in Ha, Hb. subst a b. exists ds. cbn [drop length] in *.
    rewrite drop_0 in Hd. apply Nat.eqb_eq in Hl. split; [done|]. split; [lia|done].
  - intros (ds & -> & Hl & Hd). cbn [startsWith drop length].
    rewrite drop_0, Hd, !N.eqb_refl, Hl. reflexivity.
Qed.

Lemma digitsOnly_all_digits ds : forallb is_digit ds = true -> digitsOnly ds = ds.
Proof.
  unfold digitsOnly. induction ds as [|d ds IH]; [done|]. cbn [forallb List.filter].
  intros H. apply andb_true_iff in H as [Hd H]. by rewrite Hd, IH.
Qed.

Lemma is_canonical_fixed c :
  is_canonical c = true -> standardizePhoneNumber (Some c) = Some c.
Proof.
  intros (ds & -> & Hl & Hd)%is_canonical_shape.
  rewrite standardizePhoneNumber_truthy by done.
  change (digits_of (Some (43 :: 49 :: ds))) with (49 :: digitsOnly ds).
  rewrite digitsOnly_all_digits by done. cbn [length]. rewrite Hl.
  change (lit "1") with [49]. cbn [startsWith Nat.eqb andb]. by rewrite N.eqb_refl.
Qed.

Lemma update_leads_where phone f db :
  update_leads phone f db = update_where (lead_matches phone) f db.
Proof. reflexivity. Qed.

Lemma phones_canonical_insert name phone alternate email status db :
  is_canonical phone = true -> phones_canonical db ->
  phones_canonical (insert_row name (Some phone) alternate email status db).
Proof.
  intros Hp Hdb. unfold phones_canonical, insert_row. cbn [leads].
  apply Forall_app. split; [done|]. constructor; [|constructor]. by exists phone.
Qed.

Lemma phones_canonical_update p f db :
  (forall l, (exists n, l_phone_number l = Some n /\ is_canonical n = true) ->
             exists n, l_phone_number (f l) = Some n /\ is_canonical n = true) ->
  phones_canonical db -> phones_canonical (update_where p f db).
Proof.
  intros Hf Hdb. unfold phones_canonical, update_where in *. cbn [leads].
  induction Hdb as [|l ls Hl Hls IH]; [constructor|]. cbn [List.map].
  constructor; [|done]. destruct (p l); [by apply Hf | done].
Qed.

Lemma phones_canonical_conversation id content isAi db :
  phones_canonical db -> phones_canonical (insert_conversation id content isAi db).
Proof. done. Qed.

Lemma phones_canonical_updateLeadEmail number email db :
  phones_canonical db -> phones_canonical (state_of (updateLeadEmail number email db)).
Proof.
  intros Hdb. destruct (standardizePhoneNumber number) as [canon|] eqn:Hc.
  - rewrite (updateLeadEmail_state number email canon) by done.
    destruct (changes canon db =? 0)%nat.
    + rewrite insert_lead_row. apply phones_canonical_insert; [|done].
      by apply (standardizePhoneNumber_is_canonical number).
    + rewrite update_leads_where. by apply phones_canonical_update.
  - by rewrite (proj1 (updateLeadEmail_invalid number email db Hc)).
Qed.

(** What [addConversation] leaves: the entry, when it is kept, and the email
    update, when the text carries the label. *)
Lemma addConversation_state number content isAi db :
  state_of (addConversation number content isAi db) = db \/
  exists l canon,
    standardizePhoneNumber number = Some canon /\
    getLead number db = Some l /\
    let db1 := insert_conversation (l_id l) content isAi db in
    state_of (addConversation number content isAi db) = db1 \/
    exists email,
      state_of (addConversation number content isAi db) =
      state_of (updateLeadEmail (Some canon) email db1).
Proof.
  unfold addConversation. destruct (standardizePhoneNumber number) as [canon|] eqn:Hc;
    eff; [|by left].
  rewrite (getLead_fixed number canon) by done.
  destruct (getLead number db) as [l|] eqn:Hl; eff; [|by left].
  destruct (negb (eqb content (lit "User audio received")) || isAi); eff; [|by left].
  right. exists l, canon. split; [done|]. split; [done|]. cbn zeta.
  destruct (isAi && includes content (lit "email:")); eff; [|by left].
  destruct (Regex.exec emailLabelRegex content) as [m|]; eff; [|by left].
  destruct (truthy (Regex.captured m)); eff; [|by left].
  right. by eexists.
Qed.

Lemma perform_phones_canonical c db :
  phones_canonical db -> phones_canonical (state_of (perform c db)).
Proof.
  intros Hdb. destruct c as [d|row|p s|p content ai|old new|p|p e|]; cbn [perform].
  - unfold addLead. destruct (standardizePhoneNumber (ld_phone_number d)) eqn:Hc; eff;
      [|done].
    apply phones_canonical_insert; [|done].
    by apply (standardizePhoneNumber_is_canonical (ld_phone_number d)).
  - unfold importCSV_row.
    destruct (standardizePhoneNumber (row !! lit "262-691-2510")) eqn:Hc; eff; [|done].
    apply phones_canonical_insert; [|done].
    by apply (standardizePhoneNumber_is_canonical (row !! lit "262-691-2510")).
  - unfold updateLeadStatus. destruct (standardizePhoneNumber p) eqn:Hc; eff; [|done].
    rewrite update_leads_where. by apply phones_canonical_update.
  - destruct (addConversation_state p content ai db)
      as [->|(l & canon & Hc & Hl & [->|[email ->]])]; [done|done|].
    by apply phones_canonical_updateLeadEmail.
  - unfold updatePhoneNumberFormat.
    destruct (standardizePhoneNumber old) as [o|] eqn:Ho; [|done].
    destruct (standardizePhoneNumber new) as [n|] eqn:Hn; [|done]. eff.
    apply phones_canonical_update; [done|]. apply phones_canonical_update; [|done].
    intros l _. exists n. split; [done|].
    by apply (standardizePhoneNumber_is_canonical new).
  - unfold addTwilioDevPhone. destruct (standardizePhoneNumber p) eqn:Hc; eff; [|done].
    apply phones_canonical_insert; [|done].
    by apply (standardizePhoneNumber_is_canonical p).
  - eff. by apply phones_canonical_updateLeadEmail.
  - unfold testDatabaseWrite. eff. by apply phones_canonical_updateLeadEmail.
Qed.

End StoreInvariants.

(** X9. Whatever the functions of the store are called with, and in
    whatever order, every lead keeps a canonical [phone_number]: the
    property holds of a new database and each call keeps it. *)
Theorem stored_phone_numbers_stay_canonical (cs : list store_call) (db : database) :
  phones_canonical db -> phones_canonical (state_of (perform_all cs db)).
Proof.
  revert db. induction cs as [|c cs IH]; intros db Hdb; cbn [perform_all]; eff; [done|].
  apply IH. by apply perform_phones_canonical.
Qed.

Lemma stored_phone_numbers_stay_canonical_witness :
  phones_canonical
    (state_of (perform_all
       [ AddTwilioDevPhone (Some (lit "+16286666632"));
         TestDatabaseWrite;
         AddLead {| ld_name := Some (lit "Unknown"); ld_phone_number := Some (lit "262-691-2510");
                    ld_alternate_phone := None; ld_email := None; ld_status := None |};
         UpdatePhoneNumberFormat (Some (lit "262-691-2510")) (Some (lit "1 414 555 0100")) ]
       (initializeDatabase None))).
Proof.
  apply stored_phone_numbers_stay_canonical. constructor.
Defined.

Section RowInvariants.

Lemma rows_consistent_insert name phone alternate email status db :
  rows_consistent db -> rows_consistent (insert_row name phone alternate email status db).
Proof.
  intros (Hnd & Hle & Hfk). unfold rows_consistent, insert_row.
  cbn [leads conversations leads_seq]. rewrite List.map_app. cbn [List.map l_id].
  split; [|split].
  - apply NoDup_snoc; [done|]. intros Hin. apply in_map_iff in Hin as (l & Hid & Hin).
    rewrite List.Forall_forall in Hle. specialize (Hle l Hin). lia.
  - apply Forall_app. split.
    + eapply Forall_impl; [exact Hle|]. cbn beta. intros l Hl. lia.
    + constructor; [|constructor]. cbn [l_id]. lia.
  - eapply Forall_impl; [exact Hfk|]. cbn beta. intros c Hc.
    apply in_or_app. by left.
Qed.

Lemma rows_consistent_update p f db :
  (forall l, l_id (f l) = l_id l) ->
  rows_consistent db -> rows_consistent (update_where p f db).
Proof.
  intros Hf (Hnd & Hle & Hfk).
  assert (Hids : List.map l_id (List.map (fun l => if p l then f l else l) (leads db))
                 = List.map l_id (leads db)).
  { rewrite List.map_map. apply List.map_ext. intros l. cbn beta.
    by destruct (p l). }
  unfold rows_consistent, update_where. cbn [leads conversations leads_seq].
  rewrite Hids. split; [done|]. split; [|done].
  clear Hids Hnd Hfk. induction Hle as [|l ls Hl Hls IH]; [constructor|].
  cbn [List.map]. constructor; [|done]. destruct (p l); [by rewrite Hf | done].
Qed.

Lemma rows_consistent_conversation l content isAi db :
  In l (leads db) ->
  rows_consistent db -> rows_consistent (insert_conversation (l_id l) content isAi db).
Proof.
  intros Hin (Hnd & Hle & Hfk). unfold rows_consistent, insert_conversation.
  cbn [leads conversations leads_seq]. split; [done|]. split; [done|].
  apply Forall_app. split; [done|]. constructor; [|constructor]. cbn [c_lead_id].
  by apply in_map.
Qed.

Lemma rows_consistent_updateLeadEmail number email db :
  rows_consistent db -> rows_consistent (state_of (updateLeadEmail number email db)).
Proof.
  intros Hdb. destruct (standardizePhoneNumber number) as [canon|] eqn:Hc.
  - rewrite (updateLeadEmail_state number email canon) by done.
    destruct (changes canon db =? 0)%nat.
    + rewrite insert_lead_row. by apply rows_consistent_insert.
    + rewrite update_leads_where. by apply rows_consistent_update.
  - by rewrite (proj1 (updateLeadEmail_invalid number email db Hc)).
Qed.

Lemma getLead_In number db l : getLead number db = Some l -> In l (leads db).
Proof.
  unfold getLead. destruct (standardizePhoneNumber number); [|done].
  intros Hf. by apply List.find_some in Hf as [Hin _].
Qed.

Lemma perform_rows_consistent c db :
  rows_consistent db -> rows_consistent (state_of (perform c db)).
Proof.
  intros Hdb. destruct c as [d|row|p s|p content ai|old new|p|p e|]; cbn [perform].
  - unfold addLead. destruct (standardizePhoneNumber (ld_phone_number d)); eff; [|done].
    by apply rows_consistent_insert.
  - unfold importCSV_row.
    destruct (standardizePhoneNumber (row !! lit "262-691-2510")); eff; [|done].
    by apply rows_consistent_insert.
  - unfold updateLeadStatus. destruct (standardizePhoneNumber p); eff; [|done].
    rewrite update_leads_where. by apply rows_consistent_update.
  - destruct (addConversation_state p content ai db)
      as [->|(l & canon & Hc & Hl & [->|[email ->]])]; [done| |].
    + apply rows_consistent_conversation; [|done]. by apply (getLead_In p).
    + apply rows_consistent_updateLeadEmail.
      apply rows_consistent_conversation; [|done]. by apply (getLead_In p).
  - unfold updatePhoneNumberFormat.
    destruct (standardizePhoneNumber old) as [o|]; [|done].
    destruct (standardizePhoneNumber new) as [n|]; [|done]. eff.
    apply rows_consistent_update; [done|]. by apply rows_consistent_update.
  - unfold addTwilioDevPhone. destruct (standardizePhoneNumber p); eff; [|done].
    by apply rows_consistent_insert.
  - eff. by apply rows_consistent_updateLeadEmail.
  - unfold testDatabaseWrite. eff. by apply rows_consistent_updateLeadEmail.
Qed.

End RowInvariants.

(** X10. No call to the store breaks the tables: lead ids stay distinct and
    within the sequence, and every conversation still belongs to a lead of
    the table, since an entry is stored under the id of a lead that was
    found and no function removes a lead. *)
Theorem conversations_keep_their_lead (cs : list store_call) (db : database) :
  rows_consistent db -> rows_consistent (state_of (perform_all cs db)).
Proof.
  revert db. induction cs as [|c cs IH]; intros db Hdb; cbn [perform_all]; eff; [done|].
  apply IH. by apply perform_rows_consistent.
Qed.

Lemma conversations_keep_their_lead_witness :
  rows_consistent
    (state_of (perform_all
       [ AddLead {| ld_name := Some (lit "Unknown"); ld_phone_number := Some (lit "262-691-2510");
                    ld_alternate_phone := None; ld_email := None; ld_status := None |};
         AddConversation (Some (lit "+12626912510")) (lit "Your email: jane@example.com") true;
         UpdateLeadStatus (Some (lit "+12626912510")) (lit "call_completed") ]
       (initializeDatabase None))).
Proof.
  apply conversations_keep_their_lead. repeat split; constructor.
Defined.

(** ** The numbers to call *)

Section PhoneList.

Lemma distinct_In (l : list jsstring) x : In x (distinct l) <-> In x l.
Proof.
  induction l as [|y l IH]; [done|]. cbn [distinct In].
  rewrite List.filter_In, IH. split.
  - intros [->|[Hin _]]; [by left | by right].
  - intros [->|Hin]; [by left|].
    destruct (eqb y x) eqn:E; [left; by apply eqb_eq | by right].
Qed.

Lemma distinct_NoDup (l : list jsstring) : List.NoDup (distinct l).
Proof.
  induction l as [|y l IH]; cbn [distinct]; [constructor|]. constructor.
  - rewrite List.filter_In. intros [_ Hne]. by rewrite eqb_refl in Hne.
  - by apply List.NoDup_filter.
Qed.

Lemma includes_one (s : jsstring) c :
  includes s [c] = existsb (fun d => c =? d) s.
Proof.
  induction s as [|d s IH]; [done|]. cbn [includes startsWith existsb].
  by rewrite IH, andb_true_r.
Qed.

Lemma is_canonical_no_slash c : is_canonical c = true -> includes c (lit "/") = false.
Proof.
  intros (ds & -> & _ & Hd)%is_canonical_shape. change (lit "/") with [47].
  rewrite includes_one. cbn [existsb]. change (47 =? 43) with false.
  change (47 =? 49) with false. cbn [orb].
  induction ds as [|d ds IH]; [done|]. cbn [existsb forallb] in *.
  apply andb_true_iff in Hd as [Hd Hds]. rewrite IH by done.
  unfold is_digit, in_range in Hd. apply andb_true_iff in Hd as [Hlo _].
  apply N.leb_le in Hlo. destruct (N.eqb_spec 47 d); [lia|done].
Qed.

Lemma is_canonical_truthy c : is_canonical c = true -> truthy (Some c) = true.
Proof. by intros (ds & -> & _)%is_canonical_shape. Qed.

End PhoneList.

(** X11. [getAllPhoneNumbers] returns canonical numbers only, each of them
    once, whatever the [phone_number] column holds. *)
Theorem getAllPhoneNumbers_are_canonical_and_distinct (db : database) :
  List.NoDup (getAllPhoneNumbers db) /\
  Forall (fun c => is_canonical c = true) (getAllPhoneNumbers db).
Proof.
  split; [apply distinct_NoDup|]. apply List.Forall_forall. intros c Hin.
  unfold getAllPhoneNumbers in Hin. rewrite distinct_In in Hin.
  apply list_elem_of_In, list_elem_of_omap in Hin as (number & _ & Hc).
  by apply (standardizePhoneNumber_is_canonical (Some number)).
Qed.

(** X12. On a store whose leads have canonical numbers, which is what the
    functions of the store keep, [getAllPhoneNumbers] is the [phone_number]
    column with its repetitions dropped: every lead's number is in the
    list. *)
Theorem getAllPhoneNumbers_lists_every_lead (db : database) :
  phones_canonical db ->
  getAllPhoneNumbers db = distinct (omap l_phone_number (leads db)) /\
  forall l, In l (leads db) ->
    exists c, l_phone_number l = Some c /\ In c (getAllPhoneNumbers db).
Proof.
  intros Hdb.
  assert (Heq : getAllPhoneNumbers db = distinct (omap l_phone_number (leads db))).
  { unfold getAllPhoneNumbers, phones_canonical in *. f_equal.
    induction Hdb as [|l ls (p & Hp & Hcan) _ IH]; [done|].
    cbn [omap list_omap]. rewrite Hp, is_canonical_truthy by done.
    cbn [List.flat_map]. unfold number_parts at 1.
    rewrite is_canonical_no_slash by done. cbn [app omap list_omap].
    rewrite is_canonical_fixed by done. f_equal. exact IH. }
  split; [done|]. intros l Hin. unfold phones_canonical in Hdb.
  rewrite List.Forall_forall in Hdb. destruct (Hdb l Hin) as (c & Hc & _).
  exists c. split; [done|]. rewrite Heq. apply distinct_In.
  apply list_elem_of_In, list_elem_of_omap. exists l. split; [|done].
  by apply list_elem_of_In.
Qed.

Lemma getAllPhoneNumbers_lists_every_lead_witness :
  getAllPhoneNumbers
    (state_of (perform_all [ TestDatabaseWrite;
                             AddTwilioDevPhone (Some (lit "628-666-6632"));
                             AddTwilioDevPhone (Some (lit "628-666-6632")) ]
                 empty_database)) =
  [ lit "+11234567890"; lit "+16286666632" ].
Proof.
  destruct (getAllPhoneNumbers_lists_every_lead
              (state_of (perform_all [ TestDatabaseWrite;
                                       AddTwilioDevPhone (Some (lit "628-666-6632"));
                                       AddTwilioDevPhone (Some (lit "628-666-6632")) ]
                           empty_database))) as [Heq _].
  - repeat constructor; by eexists.
  - rewrite Heq. reflexivity.
Defined.

(** ** Changing a number *)

Section PhoneFormat.

Lemma updatePhoneNumberFormat_state old new o n db :
  standardizePhoneNumber old = Some o -> standardizePhoneNumber new = Some n ->
  state_of (updatePhoneNumberFormat old new db) =
  update_where (fun l => maybe_eqb (l_alternate_phone l) (Some o)) (with_alternate_phone n)
    (update_where (fun l => maybe_eqb (l_phone_number l) (Some o)) (with_phone_number n) db).
Proof. intros Ho Hn. unfold updatePhoneNumberFormat. rewrite Ho, Hn. by eff. Qed.

Lemma update_where_same p f db :
  (forall l, p l = true -> f l = l) -> update_where p f db = db.
Proof.
  intros Hf. destruct db as [ls cs a b]. unfold update_where. cbn. f_equal.
  induction ls as [|l ls IH]; [done|]. cbn [List.map]. rewrite IH. f_equal.
  destruct (p l) eqn:E; [by apply Hf | done].
Qed.

End PhoneFormat.

(** X13. [updatePhoneNumberFormat] with two numbers that have canonical forms
    keeps every row and, when the forms differ, leaves no lead with the old
    form in either phone column; when the two have the same canonical form
    the store is unchanged. *)
Theorem updatePhoneNumberFormat_moves_the_number (oldNumber newNumber : maybe_string)
    (o n : jsstring) (db : database) :
  standardizePhoneNumber oldNumber = Some o ->
  standardizePhoneNumber newNumber = Some n ->
  let db' := state_of (updatePhoneNumberFormat oldNumber newNumber db) in
  List.map l_id (leads db') = List.map l_id (leads db) /\
  (o <> n -> Forall (fun l => l_phone_number l <> Some o /\ l_alternate_phone l <> Some o)
                    (leads db')) /\
  (o = n -> db' = db).
Proof.
  intros Ho Hn. cbn zeta. rewrite (updatePhoneNumberFormat_state _ _ o n) by done.
  split; [|split].
  - unfold update_where. cbn [leads]. rewrite !List.map_map. apply List.map_ext.
    intros l. cbn beta. destruct (maybe_eqb (l_phone_number l) (Some o));
      by destruct (maybe_eqb _ (Some o)).
  - intros Hne. unfold update_where. cbn [leads]. rewrite List.map_map.
    apply List.Forall_forall. intros l' Hin. apply in_map_iff in Hin as (l & <- & _).
    destruct (maybe_eqb (l_phone_number l) (Some o)) eqn:Ep.
    + destruct (maybe_eqb (l_alternate_phone (with_phone_number n l)) (Some o)) eqn:Ea;
        cbn [with_phone_number with_alternate_phone l_phone_number l_alternate_phone] in *.
      * split; congruence.
      * split; [congruence|]. intros Ha. apply maybe_eqb_Some in Ha. congruence.
    + destruct (maybe_eqb (l_alternate_phone l) (Some o)) eqn:Ea;
        cbn [with_alternate_phone l_phone_number l_alternate_phone].
      * split; [|congruence]. intros Hp. apply maybe_eqb_Some in Hp. congruence.
      * split; intros Hp; apply maybe_eqb_Some in Hp; congruence.
  - intros <-. rewrite (update_where_same _ _ db).
    + apply update_where_same. intros l Hl. apply maybe_eqb_Some in Hl.
      destruct l. cbn in *. by subst.
    + intros l Hl. apply maybe_eqb_Some in Hl. destruct l. cbn in *. by subst.
Qed.

Lemma updatePhoneNumberFormat_moves_the_number_witness :
  Forall (fun l => l_phone_number l <> Some Sample.phone /\
                   l_alternate_phone l <> Some Sample.phone)
    (leads (state_of (updatePhoneNumberFormat (Some (lit "262-691-2510"))
                        (Some (lit "414-555-0100")) Sample.db))) /\
  state_of (updatePhoneNumberFormat (Some (lit "262-691-2510"))
              (Some (lit "+1 (262) 691-2510")) Sample.db) = Sample.db.
Proof.
  split.
  - apply (updatePhoneNumberFormat_moves_the_number (Some (lit "262-691-2510"))
             (Some (lit "414-555-0100")) Sample.phone (lit "+14145550100") Sample.db);
      [reflexivity | reflexivity | vm_compute; discriminate].
  - apply (updatePhoneNumberFormat_moves_the_number (Some (lit "262-691-2510"))
             (Some (lit "+1 (262) 691-2510")) Sample.phone Sample.phone Sample.db);
      reflexivity.
Defined.

(** X14. [updatePhoneNumberFormat] looks rows up by the canonical form of the
    old number, so a lead whose stored numbers are not canonical is never
    rewritten, whatever the two arguments are. *)
Theorem updatePhoneNumberFormat_skips_uncanonical_rows (oldNumber newNumber : maybe_string)
    (db : database) (l : lead) :
  In l (leads db) ->
  (forall p, l_phone_number l = Some p -> is_canonical p = false) ->
  (forall p, l_alternate_phone l = Some p -> is_canonical p = false) ->
  In l (leads (state_of (updatePhoneNumberFormat oldNumber newNumber db))).
Proof.
  intros Hin Hp Ha.
  destruct (standardizePhoneNumber oldNumber) as [o|] eqn:Ho.
  2: { unfold updatePhoneNumberFormat. by rewrite Ho. }
  destruct (standardizePhoneNumber newNumber) as [n|] eqn:Hn.
  2: { unfold updatePhoneNumberFormat. by rewrite Ho, Hn. }
  rewrite (updatePhoneNumberFormat_state _ _ o n) by done.
  pose proof (standardizePhoneNumber_is_canonical _ _ Ho) as Hcan.
  unfold update_where. cbn [leads]. rewrite List.map_map. apply in_map_iff.
  exists l. split; [|done].
  destruct (maybe_eqb (l_phone_number l) (Some o)) eqn:Ep.
  { apply maybe_eqb_Some in Ep. apply Hp in Ep. congruence. }
  destruct (maybe_eqb (l_alternate_phone l) (Some o)) eqn:Ea; [|done].
  apply maybe_eqb_Some in Ea. apply Ha in Ea. congruence.
Qed.

Lemma updatePhoneNumberFormat_skips_uncanonical_rows_witness :
  In {| l_id := 1; l_name := Some (lit "KENNETH ORLOWSKI");
        l_phone_number := Some (lit "262-691-2510");
        l_alternate_phone := None; l_email := None;
        l_status := Some (lit "new") |}
     (leads (state_of (updatePhoneNumberFormat (Some (lit "262-691-2510"))
                         (Some (lit "+12626912510")) legacy_db))).
Proof.
  apply updatePhoneNumberFormat_skips_uncanonical_rows;
    [by left | by intros p [= <-] | done].
Defined.

(** ** Reading leads and conversations *)

Section QueryFacts.
Context `{RowOrder}.

Lemma updateLeadEmail_conversations number email db :
  conversations (state_of (updateLeadEmail number email db)) = conversations db.
Proof.
  destruct (standardizePhoneNumber number) as [canon|] eqn:Hc.
  - rewrite (updateLeadEmail_state number email canon) by done.
    by destruct (changes canon db =? 0)%nat.
  - by rewrite (proj1 (updateLeadEmail_invalid number email db Hc)).
Qed.

(** What [addConversation] leaves for a lead that exists and a content that
    is kept. *)
Lemma addConversation_kept number content isAi db l :
  getLead number db = Some l ->
  negb (eqb content (lit "User audio received")) || isAi = true ->
  let db' := state_of (addConversation number content isAi db) in
  conversations db' =
    conversations db ++
    [ {| c_id := conversations_seq db + 1; c_lead_id := l_id l;
         c_content := content; c_is_ai_response := isAi |} ] /\
  exists l', getLead number db' = Some l' /\ l_id l' = l_id l.
Proof.
  intros Hl Hkeep. cbn zeta.
  destruct (standardizePhoneNumber number) as [canon|] eqn:Hc.
  2: { by rewrite getLead_invalid in Hl. }
  unfold addConversation. rewrite Hc. eff.
  rewrite (getLead_fixed number canon) by done. rewrite Hl. eff. rewrite Hkeep. eff.
  set (db1 := insert_conversation (l_id l) content isAi db).
  assert (Hl1 : getLead number db1 = Some l) by exact Hl.
  destruct (isAi && includes content (lit "email:")); eff; [|by eauto].
  destruct (Regex.exec emailLabelRegex content) as [m|]; eff; [|by eauto].
  destruct (truthy (Regex.captured m)); eff; [|by eauto].
  rewrite updateLeadEmail_conversations. split; [done|].
  rewrite <- (getLead_fixed number canon) by done.
  rewrite (updateLeadEmail_state (Some canon) _ canon)
    by (by apply (standardizePhoneNumber_fixed number)).
  rewrite (getLead_fixed number canon) by done.
  rewrite (getLead_canonical number canon) in Hl1 |- * by done.
  destruct (Nat.eqb_spec (changes canon db1) 0) as [E|E].
  { apply find_none_changes in E. congruence. }
  unfold update_leads. cbn [leads]. rewrite find_update by done. rewrite Hl1.
  by eexists.
Qed.

Lemma flat_map_map {A B C} (f : B -> C) (g : A -> list B) (l : list A) :
  List.flat_map (fun x => List.map f (g x)) l = List.map f (List.flat_map g l).
Proof.
  induction l as [|x l IH]; [done|]. cbn [List.flat_map].
  by rewrite List.map_app, IH.
Qed.

Lemma flat_map_ext_in {A B} (f g : A -> list B) (l : list A) :
  (forall x, In x l -> f x = g x) -> List.flat_map f l = List.flat_map g l.
Proof.
  induction l as [|x l IH]; [done|]. intros Hfg. cbn [List.flat_map].
  rewrite (Hfg x) by (by left). rewrite IH; [done|].
  intros y Hy. apply Hfg. by right.
Qed.

(** Consecutive pages of [size] rows make up the first [n * size] rows. *)
Lemma pages_concat {A} (rows : list A) (size n : nat) :
  List.flat_map (fun k => take size (drop ((k - 1) * size) rows)) (seq 1 n) =
  take (n * size) rows.
Proof.
  induction n as [|n IH]; [done|].
  rewrite seq_S, List.flat_map_app, IH. cbn [List.flat_map]. rewrite app_nil_r.
  replace (1 + n - 1)%nat with n by lia.
  rewrite take_take_drop. f_equal. lia.
Qed.

Lemma limit_offset_page {A} (rows : list A) (size k : nat) :
  (0 < size)%nat -> (0 < k)%nat ->
  limit_offset (Z.of_nat size) ((Z.of_nat k - 1) * Z.of_nat size) rows =
  take size (drop ((k - 1) * size) rows).
Proof.
  intros Hs Hk. unfold limit_offset.
  destruct (Z.ltb_spec (Z.of_nat size) 0); [lia|].
  rewrite Nat2Z.id. do 2 f_equal. nia.
Qed.

(** The number of pages, for a page size that is positive. *)
Lemma ceil_quotient_pages (count size : nat) :
  (0 < size)%nat ->
  exists n, ceil_quotient (Z.of_nat count) (Z.of_nat size) = Finite (Z.of_nat n) /\
            (count <= n * size)%nat /\ ((n - 1) * size < count \/ n = 0)%nat.
Proof.
  intros Hs. unfold ceil_quotient. destruct (Z.eqb_spec (Z.of_nat size) 0); [lia|].
  pose proof (Z.mul_div_le (- Z.of_nat count) (Z.of_nat size) ltac:(lia)) as Hle.
  pose proof (Z.mul_succ_div_gt (- Z.of_nat count) (Z.of_nat size) ltac:(lia)) as Hgt.
  set (q := (- Z.of_nat count / Z.of_nat size)%Z) in *.
  exists (Z.to_nat (- q)). assert (q <= 0)%Z by nia.
  rewrite Z2Nat.id by lia. split; [done|]. split; [nia|].
  destruct (Z.eqb_spec q 0); [right; lia | left; nia].
Qed.

End QueryFacts.

(** X15. An entry that [addConversation] keeps is read back: for a number
    that has a lead, and a content that the store gives back as written
    (well-formed text without a NUL) and that is the AI's or is not the
    placeholder, [getLeadData] afterwards returns that lead with the entry
    among its conversations, and [getConversationHistory] lists it too. *)
Theorem addConversation_entry_is_read_back `{RowOrder} (number : maybe_string)
    (content : jsstring) (isAiResponse : bool) (db : database) (l : lead) :
  getLead number db = Some l ->
  kept_as_written content = true ->
  isAiResponse = true \/ content <> lit "User audio received" ->
  let db' := state_of (addConversation number content isAiResponse db) in
  let entry := {| c_id := conversations_seq db + 1; c_lead_id := l_id l;
                  c_content := content; c_is_ai_response := isAiResponse |} in
  (exists l' entries,
     getLeadData number db' = Some (l', entries) /\ l_id l' = l_id l /\ In entry entries) /\
  In entry (getConversationHistory number db').
Proof.
  intros Hl _ Hkeep. cbn zeta.
  assert (Hk : negb (eqb content (lit "User audio received")) || isAiResponse = true).
  { destruct Hkeep as [->|Hne]; [by rewrite orb_true_r|].
    destruct (eqb content (lit "User audio received")) eqn:E; [|done].
    by apply eqb_eq in E. }
  destruct (addConversation_kept number content isAiResponse db l Hl Hk)
    as (Hconv & l' & Hl' & Hid).
  destruct (standardizePhoneNumber number) as [canon|] eqn:Hc.
  2: { by rewrite getLead_invalid in Hl. }
  unfold getLeadData, getConversationHistory. rewrite Hc.
  rewrite (getLead_fixed number canon) by done. rewrite Hl', Hconv, Hid. split.
  - eexists _, _. split; [reflexivity|]. split; [done|].
    eapply Permutation_in; [symmetry; apply by_timestamp_asc_perm|].
    apply List.filter_In. split; [apply in_or_app; right; by left|].
    unfold meaningful. cbn [c_lead_id c_is_ai_response c_content].
    by rewrite N.eqb_refl, orb_comm, Hk.
  - eapply Permutation_in; [symmetry; apply by_timestamp_desc_perm|].
    apply List.filter_In. split; [apply in_or_app; right; by left|].
    cbn [c_lead_id]. apply N.eqb_refl.
Qed.

Lemma addConversation_entry_is_read_back_witness :
  let db' := state_of (addConversation (Some (lit "262-691-2510"))
                         (lit "Thank you, I've recorded your email.") true Sample.db) in
  exists l' entries,
    getLeadData (Some (lit "262-691-2510")) db' = Some (l', entries) /\
    l_id l' = 1 /\
    In {| c_id := 1; c_lead_id := 1;
          c_content := lit "Thank you, I've recorded your email.";
          c_is_ai_response := true |} entries.
Proof.
  cbn zeta.
  refine (proj1 (addConversation_entry_is_read_back (Some (lit "262-691-2510"))
                   (lit "Thank you, I've recorded your email.") true Sample.db
                   {| l_id := 1; l_name := Some (lit "Unknown");
                      l_phone_number := Some Sample.phone; l_alternate_phone := None;
                      l_email := None; l_status := Some (lit "called") |} _ _ _)).
  - reflexivity.
  - reflexivity.
  - by left.
Defined.

(** X16. With a positive page size, all numbers being safe integers: every
    page from the first to [totalPages] is returned, [totalPages] is the
    same number on every page returned, a page holds at most [size] leads,
    the pages from the first to [totalPages] put end to end list every lead
    once in the order of the query, and a page after the last is empty. *)
Theorem lead_pages_partition_the_table `{RowOrder} (size : nat) (db : database) :
  (0 < size)%nat ->
  (Z.of_nat size <= MAX_SAFE_INTEGER)%Z ->
  (Z.of_nat (length (leads db)) <= MAX_SAFE_INTEGER)%Z ->
  let page k := getPaginatedLeadData (Some (Z.of_nat k)) (Some (Z.of_nat size)) db in
  exists n,
    (forall k, (1 <= k <= n)%nat -> is_Some (page k)) /\
    (forall k p, page k = Some p ->
       totalPages p = Finite (Z.of_nat n) /\
       (length (page_leads p) <= size)%nat /\
       ((n < k)%nat -> page_leads p = [])) /\
    List.flat_map (fun k => from_option page_leads [] (page k)) (seq 1 n) =
      List.map (summary db) (by_last_updated_desc (leads db)).
Proof.
  intros Hs Hsize Hrows. cbn zeta.
  destruct (ceil_quotient_pages (length (leads db)) size Hs) as (n & Hn & Hcover & Hlast).
  assert (Hlen : length (by_last_updated_desc (leads db)) = length (leads db))
    by apply Permutation_length, by_last_updated_desc_perm.
  assert (Hsafe : forall k, (1 <= k <= n)%nat ->
            isSafeInteger (Z.of_nat k) && isSafeInteger (Z.of_nat size)
            && isSafeInteger ((Z.of_nat k - 1) * Z.of_nat size) = true).
  { intros k Hk. unfold isSafeInteger, MAX_SAFE_INTEGER in *.
    assert ((Z.of_nat k - 1) * Z.of_nat size <= Z.of_nat (length (leads db)))%Z by nia.
    assert (Z.of_nat k <= Z.of_nat (length (leads db)))%Z by nia.
    repeat (apply andb_true_intro; split); apply Z.leb_le; nia. }
  exists n. unfold getPaginatedLeadData. cbn [default]. unfold id.
  split; [|split].
  - intros k Hk. by rewrite Hsafe.
  - intros k p.
    destruct (isSafeInteger (Z.of_nat k) && isSafeInteger (Z.of_nat size)
              && isSafeInteger ((Z.of_nat k - 1) * Z.of_nat size)); [|done].
    intros [= <-]. cbn [totalPages page_leads]. split; [done|]. split.
    + rewrite length_map. unfold limit_offset.
      destruct (Z.ltb_spec (Z.of_nat size) 0); [lia|].
      rewrite length_take, Nat2Z.id. lia.
    + intros Hk. rewrite limit_offset_page by lia.
      rewrite drop_ge; [by rewrite take_nil|]. rewrite Hlen. nia.
  - rewrite (flat_map_ext_in _
               (fun k => List.map (summary db)
                           (take size (drop ((k - 1) * size)
                                         (by_last_updated_desc (leads db)))))).
    + rewrite (flat_map_map (summary db)
                 (fun k => take size (drop ((k - 1) * size)
                                        (by_last_updated_desc (leads db))))).
      f_equal. rewrite pages_concat. apply take_ge. lia.
    + intros k Hk. apply in_seq in Hk. rewrite Hsafe by lia.
      cbn [from_option page_leads]. by rewrite limit_offset_page by lia.
Qed.

Lemma lead_pages_partition_the_table_witness :
  exists n,
    List.flat_map (fun k => from_option page_leads []
                              (getPaginatedLeadData (Some (Z.of_nat k)) (Some 1%Z)
                                 (insert_lead (lit "+14145550100")
                                    (lit "bob@example.com") Sample.db)))
      (seq 1 n) =
    List.map (summary (insert_lead (lit "+14145550100") (lit "bob@example.com") Sample.db))
      (by_last_updated_desc
         (leads (insert_lead (lit "+14145550100") (lit "bob@example.com") Sample.db))).
Proof.
  destruct (lead_pages_partition_the_table 1
              (insert_lead (lit "+14145550100") (lit "bob@example.com") Sample.db))
    as (n & _ & _ & Hall).
  - lia.
  - by vm_compute.
  - by vm_compute.
  - by exists n.
Defined.

(** X17. [GET /leads], where the numbers read are safe integers: the page
    size handed on is never zero, so [totalPages] is an integer; and a
    negative page size is handed on as the LIMIT, which is then no limit:
    the first page lists every lead. *)
Theorem leads_route_page_size `{RowOrder} (page pageSize : option Z) (db : database) :
  (isSafeInteger (or_default page 1) = true ->
   isSafeInteger (or_default pageSize 10) = true ->
   isSafeInteger ((or_default page 1 - 1) * or_default pageSize 10) = true ->
   exists p z, leads_route page pageSize db = Some p /\ totalPages p = Finite z) /\
  (forall size, pageSize = Some size ->
     (- MAX_SAFE_INTEGER <= size < 0)%Z -> or_default page 1 = 1%Z ->
     exists p, leads_route page pageSize db = Some p /\
       page_leads p = List.map (summary db) (by_last_updated_desc (leads db))).
Proof.
  unfold leads_route, getPaginatedLeadData. cbn [default]. unfold id. split.
  - intros -> -> ->. cbn [andb]. eexists _, _. split; [reflexivity|].
    cbn [totalPages]. unfold ceil_quotient.
    assert (or_default pageSize 10 <> 0)%Z as Hne.
    { unfold or_default. destruct pageSize as [z|]; [|done].
      destruct (Z.eqb_spec z 0); [done|done]. }
    destruct (Z.eqb_spec (or_default pageSize 10) 0); [done|]. reflexivity.
  - intros size -> Hneg ->. unfold or_default.
    destruct (Z.eqb_spec size 0); [lia|].
    assert (isSafeInteger size = true) as ->.
    { unfold isSafeInteger, MAX_SAFE_INTEGER in *.
      apply andb_true_intro; split; apply Z.leb_le; lia. }
    rewrite Z.mul_0_l. cbn [isSafeInteger andb]. eexists. split; [reflexivity|].
    cbn [page_leads]. unfold limit_offset.
    destruct (Z.ltb_spec size 0); [|lia]. done.
Qed.

Lemma leads_route_page_size_witness :
  exists p, leads_route None (Some (-1)%Z) Sample.db = Some p /\
    page_leads p = List.map (summary Sample.db) (by_last_updated_desc (leads Sample.db)).
Proof.
  apply (proj2 (leads_route_page_size None (Some (-1)%Z) Sample.db) (-1)%Z);
    [reflexivity | by vm_compute | reflexivity].
Defined.

(** ** Placing calls *)

Section CallFacts.
Context `{Telephony}.

(** [makeOutgoingCall] on a number that has a canonical form, in closed
    form: the lead is added when there is none, the request is made, and the
    status is set when the request is accepted. *)
Lemma makeOutgoingCall_valid to from url n s :
  standardizePhoneNumber to = Some n ->
  let db1 :=
    match getLead (Some n) (sv_store s) with
    | Some _ => sv_store s
    | None => insert_row (Some (lit "Unknown")) (Some n) None None (Some (lit "new"))
                (sv_store s)
    end in
  let request := {| twiml := stream_twiml url n; call_to := n; call_from := from |} in
  value_of (makeOutgoingCall to from url s) = calls_create request /\
  state_of (makeOutgoingCall to from url s) =
    {| sv_store := match calls_create request with
                   | Some _ => update_leads n (with_status (lit "called")) db1
                   | None => db1
                   end;
       placed := placed s ++ [request];
       sv_now := sv_now s |}.
Proof.
  intros Hn. assert (Hfix := standardizePhoneNumber_fixed _ _ Hn). cbn zeta.
  unfold makeOutgoingCall. rewrite Hn.
  unfold bind, get, ret, in_db, create_call, addLead, updateLeadStatus, emit, modify.
  cbn [ld_phone_number ld_name ld_alternate_phone ld_email ld_status default].
  rewrite Hfix.
  destruct (getLead (Some n) (sv_store s)) as [l|];
    cbn [sv_store placed sv_now];
    destruct (calls_create _) as [sid|]; cbn [sv_store placed sv_now];
    rewrite ?Hfix; unfold value_of, state_of; cbn; split; try reflexivity;
    destruct s; reflexivity.
Qed.

Lemma makeOutgoingCall_invalid to from url s :
  standardizePhoneNumber to = None ->
  makeOutgoingCall to from url s = (None, s, []).
Proof. intros Hn. unfold makeOutgoingCall. by rewrite Hn. Qed.

End CallFacts.

(** X18. An outgoing call that the telephony API accepts leaves the lead of
    the number with the status [called]: the lead found afterwards is the
    one that was there, or a new lead named [Unknown] when there was none,
    and the request dials the canonical number and passes it to the media
    stream as [customerNumber]. *)
Theorem makeOutgoingCall_marks_the_lead_called `{Telephony} (to from : maybe_string)
    (url n sid : jsstring) (s : server) :
  standardizePhoneNumber to = Some n ->
  let request := {| twiml := stream_twiml url n; call_to := n; call_from := from |} in
  calls_create request = Some sid ->
  let r := makeOutgoingCall to from url s in
  value_of r = Some sid /\
  placed (state_of r) = placed s ++ [request] /\
  exists l,
    getLead (Some n) (sv_store (state_of r)) = Some l /\
    l_status l = Some (lit "called") /\
    match getLead (Some n) (sv_store s) with
    | Some l0 => l = with_status (lit "called") l0 /\
                 length (leads (sv_store (state_of r))) = length (leads (sv_store s))
    | None => l_name l = Some (lit "Unknown") /\ l_phone_number l = Some n /\
              length (leads (sv_store (state_of r))) = S (length (leads (sv_store s)))
    end.
Proof.
  intros Hn request Hsid. cbn zeta.
  destruct (makeOutgoingCall_valid to from url n s Hn) as [Hv Hs].
  fold request in Hv, Hs. rewrite Hv, Hs, Hsid. cbn [sv_store placed].
  split; [done|]. split; [done|].
  assert (Hfix := standardizePhoneNumber_fixed _ _ Hn).
  rewrite !(getLead_canonical (Some n) n) by done.
  unfold update_leads. cbn [leads]. rewrite find_update by done.
  rewrite length_map.
  destruct (List.find (lead_matches n) (leads (sv_store s))) as [l0|] eqn:Hf.
  - rewrite Hf. by eexists.
  - rewrite find_insert_row, Hf. eexists. split; [reflexivity|].
    split; [done|]. split; [done|]. split; [done|].
    unfold insert_row. cbn [leads]. rewrite length_app. cbn [length]. lia.
Qed.

Lemma makeOutgoingCall_marks_the_lead_called_witness :
  let r := makeOutgoingCall (Some (lit "414-555-0100")) (Some (lit "+12625550199"))
             (lit "wss://example.com/media-stream")
             {| sv_store := Sample.db; placed := []; sv_now := 0 |} in
  value_of r = Some (lit "CA1") /\
  List.map call_to (placed (state_of r)) = [lit "+14145550100"] /\
  (l_status <$> getLead (Some (lit "+14145550100")) (sv_store (state_of r)))
    = Some (Some (lit "called")).
Proof.
  cbn zeta.
  destruct (makeOutgoingCall_marks_the_lead_called
              (Some (lit "414-555-0100")) (Some (lit "+12625550199"))
              (lit "wss://example.com/media-stream") (lit "+14145550100") (lit "CA1")
              {| sv_store := Sample.db; placed := []; sv_now := 0 |})
    as (Hv & Hp & l & Hl & Hst & _); [reflexivity | reflexivity |].
  split; [exact Hv|]. split; [by rewrite Hp|]. by rewrite Hl, <- Hst.
Defined.

(** X19. An outgoing call that is not made changes no status: for a number
    without a canonical form nothing is requested and the store is
    untouched; when the telephony API rejects the request the function
    returns [null], the lead that was added for a new number stays with the
    status [new], and a lead that was there keeps its status. *)
Theorem makeOutgoingCall_failure_changes_no_status `{Telephony} (to from : maybe_string)
    (url : jsstring) (s : server) :
  (standardizePhoneNumber to = None ->
     makeOutgoingCall to from url s = (None, s, [])) /\
  (forall n, standardizePhoneNumber to = Some n ->
     calls_create {| twiml := stream_twiml url n; call_to := n; call_from := from |} = None ->
     let r := makeOutgoingCall to from url s in
     value_of r = None /\
     length (placed (state_of r)) = S (length (placed s)) /\
     match getLead (Some n) (sv_store s) with
     | Some l0 => sv_store (state_of r) = sv_store s
     | None => exists l, getLead (Some n) (sv_store (state_of r)) = Some l /\
                         l_status l = Some (lit "new")
     end).
Proof.
  split; [apply makeOutgoingCall_invalid|]. intros n Hn Hrej. cbn zeta.
  destruct (makeOutgoingCall_valid to from url n s Hn) as [Hv Hs].
  rewrite Hv, Hs, Hrej. cbn [sv_store placed]. split; [done|]. split.
  { rewrite length_app. cbn [length]. lia. }
  assert (Hfix := standardizePhoneNumber_fixed _ _ Hn).
  rewrite !(getLead_canonical (Some n) n) by done.
  destruct (List.find (lead_matches n) (leads (sv_store s))) as [l0|] eqn:Hf; [done|].
  rewrite find_insert_row, Hf. by eexists.
Qed.

Lemma makeOutgoingCall_failure_changes_no_status_witness :
  makeOutgoingCall (Some (lit "691-2510")) None (lit "wss://example.com/media-stream")
    {| sv_store := Sample.db; placed := []; sv_now := 0 |} =
  (None, {| sv_store := Sample.db; placed := []; sv_now := 0 |}, []).
Proof.
  apply (proj1 (makeOutgoingCall_failure_changes_no_status (Some (lit "691-2510")) None
                  (lit "wss://example.com/media-stream")
                  {| sv_store := Sample.db; placed := []; sv_now := 0 |})).
  reflexivity.
Defined.

(** X20. [initiateCallsToAllNumbers] makes one request, to the dev phone,
    whatever numbers the table holds: the number written in the function
    always has a canonical form, so the function returns after that call and
    the loop over the leads is never entered. *)
Theorem initiateCallsToAllNumbers_calls_the_dev_phone_only `{Telephony}
    (PHONE_NUMBER_FROM : maybe_string) (DOMAIN : jsstring) (s : server) :
  placed (state_of (initiateCallsToAllNumbers PHONE_NUMBER_FROM DOMAIN s)) =
  placed s ++
  [ {| twiml := stream_twiml (lit "wss://" ++ DOMAIN ++ lit "/media-stream") devPhoneNumber;
       call_to := devPhoneNumber;
       call_from := PHONE_NUMBER_FROM |} ] /\
  sv_now (state_of (initiateCallsToAllNumbers PHONE_NUMBER_FROM DOMAIN s)) = sv_now s.
Proof.
  assert (Hdev : standardizePhoneNumber (Some devPhoneNumber) = Some devPhoneNumber)
    by reflexivity.
  unfold initiateCallsToAllNumbers. rewrite Hdev.
  change (truthy (Some devPhoneNumber)) with true. cbv iota. eff.
  destruct (makeOutgoingCall_valid (Some devPhoneNumber) PHONE_NUMBER_FROM
              (lit "wss://" ++ DOMAIN ++ lit "/media-stream") devPhoneNumber s Hdev)
    as [_ Hs].
  rewrite Hs. by cbn [placed sv_now].
Qed.

(** ** Start-up and the test routes *)

Section StartFacts.

Lemma changes_insert_other phone name other alternate email status db :
  lead_matches phone
    {| l_id := leads_seq db + 1; l_name := name; l_phone_number := other;
       l_alternate_phone := alternate; l_email := email; l_status := status |} = false ->
  changes phone (insert_row name other alternate email status db) = changes phone db.
Proof.
  intros Hm. unfold changes, insert_row. cbn [leads].
  rewrite List.filter_app, length_app. cbn [List.filter]. rewrite Hm. cbn [length]. lia.
Qed.

Lemma lead_matches_other phone p l :
  l_phone_number l = Some p -> l_alternate_phone l = None ->
  lead_matches phone l = eqb p phone.
Proof.
  intros Hp Ha. unfold lead_matches. rewrite Hp, Ha. cbn [maybe_eqb].
  by rewrite orb_false_r.
Qed.

Lemma eqb_sym (a b : jsstring) : eqb a b = eqb b a.
Proof.
  destruct (eqb a b) eqn:E1, (eqb b a) eqn:E2; try done.
  - apply eqb_eq in E1. subst. by rewrite eqb_refl in E2.
  - apply eqb_eq in E2. subst. by rewrite eqb_refl in E1.
Qed.

(** One start adds one row under the dev phone's number. *)
Lemma on_listen_changes env c file :
  standardizePhoneNumber (if truthy env then env else Some devPhoneNumber) = Some c ->
  changes c (on_listen env file) = S (changes c (initializeDatabase file)).
Proof.
  intros Hc. unfold on_listen. set (db := initializeDatabase file).
  unfold addTwilioDevPhone. rewrite Hc. eff. unfold testDatabaseWrite. eff.
  set (db1 := insert_row _ _ _ _ _ db).
  assert (H1 : changes c db1 = S (changes c db)) by apply changes_insert_row.
  rewrite (updateLeadEmail_state (Some testPhoneNumber) testEmail testPhoneNumber)
    by reflexivity.
  destruct (Nat.eqb_spec (changes testPhoneNumber db1) 0) as [E|E].
  - rewrite insert_lead_row, changes_insert_other; [done|].
    rewrite (lead_matches_other c testPhoneNumber) by done.
    destruct (eqb testPhoneNumber c) eqn:Eq; [|done].
    apply eqb_eq in Eq. subst c. lia.
  - unfold changes, update_leads in *. cbn [leads]. rewrite <- H1.
    clear. induction (leads db1) as [|l ls IH]; [done|]. cbn [List.map List.filter].
    destruct (lead_matches testPhoneNumber l);
      change (lead_matches c (with_email testEmail l)) with (lead_matches c l);
      destruct (lead_matches c l); cbn [length]; by rewrite IH.
Qed.

End StartFacts.

(** X21. Every start of the server adds one more lead under the dev phone's
    number: the insert finds nothing to replace, so after [k] starts on the
    same file the table holds [k] more rows for that number than before. *)
Theorem each_start_adds_a_dev_phone_row (k : nat) (TWILIO_DEV_PHONE : maybe_string)
    (c : jsstring) (file : option database) :
  standardizePhoneNumber
    (if truthy TWILIO_DEV_PHONE then TWILIO_DEV_PHONE else Some devPhoneNumber) = Some c ->
  changes c (initializeDatabase (restarts k TWILIO_DEV_PHONE file)) =
  (changes c (initializeDatabase file) + k)%nat.
Proof.
  intros Hc. induction k as [|k IH]; cbn [restarts]; [lia|].
  cbn [initializeDatabase default]. unfold id.
  rewrite (on_listen_changes _ c) by done. rewrite IH. lia.
Qed.

Lemma each_start_adds_a_dev_phone_row_witness :
  changes devPhoneNumber (initializeDatabase (restarts 3 None None)) = 3%nat.
Proof.
  apply (each_start_adds_a_dev_phone_row 3 None devPhoneNumber None). reflexivity.
Defined.

(** X22. [GET /test-lead] adds a lead on every request and answers 200
    exactly when the first lead under the test number, which is an older one
    when there is any, carries the test email; after the write test has run
    it answers 200. *)
Theorem test_lead_route_reads_the_oldest_lead (db : database) :
  let r := test_lead_route db in
  length (leads (state_of r)) = S (length (leads db)) /\
  ((value_of r).1 = 200%nat <->
   forall l, getLead (Some testPhoneNumber) db = Some l -> l_email l = Some testEmail) /\
  (value_of (test_lead_route (state_of (testDatabaseWrite db)))).1 = 200%nat.
Proof.
  assert (Hc : standardizePhoneNumber (Some testPhoneNumber) = Some testPhoneNumber)
    by reflexivity.
  assert (Hcode : forall db0,
    (value_of (test_lead_route db0)).1 = 200%nat <->
    forall l, getLead (Some testPhoneNumber) db0 = Some l -> l_email l = Some testEmail).
  { intros db0. unfold test_lead_route. eff.
    rewrite (addLead_state _ testPhoneNumber) by done.
    rewrite !(getLead_canonical (Some testPhoneNumber) testPhoneNumber) by done.
    rewrite find_insert_row. cbn [ld_name ld_alternate_phone ld_email ld_status default].
    destruct (List.find (lead_matches testPhoneNumber) (leads db0)) as [l|].
    - destruct (maybe_eqb (l_email l) (Some testEmail)) eqn:E; cbn [fst].
      + apply maybe_eqb_Some in E. split; [|done]. by intros _ l' [= <-].
      + split; [done|]. intros Hl. specialize (Hl l eq_refl).
        apply maybe_eqb_Some in Hl. congruence.
    - cbn [l_email]. change (maybe_eqb (Some testEmail) (Some testEmail)) with (eqb testEmail testEmail).
      rewrite eqb_refl. cbn [fst]. split; [done|done]. }
  cbn zeta. split; [|split].
  - unfold test_lead_route. eff. rewrite (addLead_state _ testPhoneNumber) by done.
    unfold insert_row. cbn [leads]. rewrite length_app. cbn [length]. lia.
  - apply Hcode.
  - apply Hcode. intros l Hl.
    destruct (updateLeadEmail_reads_back_the_email_aux (Some testPhoneNumber) testEmail
                testPhoneNumber db Hc) as (l' & _ & Hg & He & _).
    unfold testDatabaseWrite in Hl. revert Hl. eff. intros Hl. congruence.
Qed.

(** ** The bridge: recordings *)

Section RecordingFacts.
Context `{Runtime}.

Lemma recordings_app l1 l2 : recordings (l1 ++ l2) = recordings l1 ++ recordings l2.
Proof. apply List.filter_app. Qed.

Lemma no_records_recordings l : no_records l -> recordings l = [].
Proof.
  unfold no_records, recordings. induction l as [|c l IH]; [done|].
  cbn [existsb List.filter]. destruct (records_or_transcribes c); [done|]. exact IH.
Qed.

Lemma state_on_mark w :
  state_of (on_mark w) =
    on_sess (fun s => set_markQueue
               (if (0 <? length (markQueue s))%nat
                then tail (markQueue s) else markQueue s) s) w /\
  log_of (on_mark w) = [].
Proof.
  unfold on_mark. eff. unfold on_sess.
  destruct (0 <? length (markQueue (sess w)))%nat; [done|].
  split; [|done]. destruct w as [[]]; reflexivity.
Qed.

Lemma indexeeee_on_audio_delta delta item w :
  let r := Indexeeee.on_audio_delta delta item w in
  incomingAudioBuffer (sess (state_of r)) = incomingAudioBuffer (sess w) /\
  outgoingAudioBuffer (sess (state_of r)) =
    outgoingAudioBuffer (sess w) ++ outgoing_bytes (FromAi (AudioDelta delta item)) /\
  streamSid (sess (state_of r)) = streamSid (sess w) /\
  no_records (log_of r).
Proof.
  cbn zeta. unfold Indexeeee.on_audio_delta, outgoing_bytes. eff.
  destruct (truthy delta); eff; [|by rewrite app_nil_r].
  destruct (negb (jtruthy (responseStartTimestampTwilio (sess w)))),
    (truthy item); eff; done.
Qed.

(** One input of a call on [indexeeee.js]: the two accumulators grow by the
    audio it carries, and nothing is recorded yet. *)
Lemma indexeeee_step_audio i w :
  mid_call i = true ->
  let r := step IndexeeeeBridge i w in
  incomingAudioBuffer (sess (state_of r)) = incomingAudioBuffer (sess w) ++ inbound_bytes i /\
  outgoingAudioBuffer (sess (state_of r)) = outgoingAudioBuffer (sess w) ++ outgoing_bytes i /\
  streamSid (sess (state_of r)) = streamSid (sess w) /\
  no_records (log_of r).
Proof.
  intros Hi. cbn zeta. destruct i as [e|e| | | |T]; cbn [step].
  - destruct e as [e|e| |sid|ev]; try done; cbn [Indexeeee.on_twilio].
    + rewrite indexeeee_on_media_state, indexeeee_on_media_log. fields.
      cbn [inbound_bytes outgoing_bytes]. rewrite app_nil_r.
      destruct (maybe_eqb (media_track e) (Some (lit "inbound")));
        [|rewrite app_nil_r]; (repeat split; try done); by destruct (_ && _).
    + destruct (state_on_mark w) as [-> ->]. fields.
      cbn [inbound_bytes outgoing_bytes]. by rewrite !app_nil_r.
    + eff. cbn [inbound_bytes outgoing_bytes]. by rewrite !app_nil_r.
  - destruct e as [delta| |delta item|ty]; cbn [Indexeeee.on_ai];
      try (eff; cbn [inbound_bytes outgoing_bytes]; by rewrite !app_nil_r).
    destruct (indexeeee_on_audio_delta delta item w) as (-> & -> & -> & Hl).
    cbn [inbound_bytes]. by rewrite app_nil_r.
  - eff. cbn [inbound_bytes outgoing_bytes]. by rewrite !app_nil_r.
  - eff. cbn [inbound_bytes outgoing_bytes]. by rewrite !app_nil_r.
  - eff. cbn [inbound_bytes outgoing_bytes]. by rewrite !app_nil_r.
  - destruct (elapse_rounds_frame (length (timers w)) T w) as (Hs & _ & _ & _ & Hl).
    unfold elapse. rewrite Hs. cbn [inbound_bytes outgoing_bytes].
    by rewrite !app_nil_r.
Qed.

Lemma indexeeee_run_audio inputs w :
  forallb mid_call inputs = true ->
  let r := run IndexeeeeBridge inputs w in
  incomingAudioBuffer (sess (state_of r)) =
    incomingAudioBuffer (sess w) ++ List.flat_map inbound_bytes inputs /\
  outgoingAudioBuffer (sess (state_of r)) =
    outgoingAudioBuffer (sess w) ++ List.flat_map outgoing_bytes inputs /\
  streamSid (sess (state_of r)) = streamSid (sess w) /\
  no_records (log_of r).
Proof.
  revert w. induction inputs as [|i inputs IH]; intros w Hall; cbn zeta.
  { cbn [run List.flat_map]. eff. by rewrite !app_nil_r. }
  cbn [forallb] in Hall. apply andb_true_iff in Hall as [Hi Hall].
  destruct (indexeeee_step_audio i w Hi) as (Hin & Hout & Hsid & Hl).
  destruct (IH (state_of (step IndexeeeeBridge i w)) Hall) as (Hin' & Hout' & Hsid' & Hl').
  cbn [run List.flat_map]. eff. rewrite Hin', Hout', Hsid', Hin, Hout, Hsid, !app_assoc.
  repeat split. by apply no_records_app.
Qed.

Lemma indexeeee_on_stop_log sid w :
  log_of (Indexeeee.on_stop sid w) =
  if (0 <? length (incomingAudioBuffer (sess w)))%nat
     || (0 <? length (outgoingAudioBuffer (sess w)))%nat
  then [CallSaveRecording (streamSid (sess w)) (incomingAudioBuffer (sess w))
          (outgoingAudioBuffer (sess w))]
  else [].
Proof.
  unfold Indexeeee.on_stop, forget_customer, Indexeeee.saveRecording. eff.
  by destruct (_ || _); eff.
Qed.

End RecordingFacts.

(** X23. On [indexeeee.js], a call from its [start] to its [stop] is recorded
    once and in full: the one recording saved is under the stream's
    identifier and holds, in order, the decoded payload of every inbound
    [media] event and every audio delta of the AI, whatever the state of the
    AI socket; with no audio at all nothing is saved.  Both accumulators are
    empty afterwards. *)
Theorem indexeeee_call_is_recorded_in_full `{Runtime} (e : start_event)
    (inputs : list input) (sid : maybe_string) (w : world) :
  forallb mid_call inputs = true ->
  let r := run IndexeeeeBridge
             (FromTwilio (Start e) :: inputs ++ [FromTwilio (Stop sid)]) w in
  let inbound := List.flat_map inbound_bytes inputs in
  let outgoing := List.flat_map outgoing_bytes inputs in
  recordings (log_of r) =
    (if (0 <? length inbound)%nat || (0 <? length outgoing)%nat
     then [CallSaveRecording (start_streamSid e) inbound outgoing]
     else []) /\
  buffers_empty (sess (state_of r)).
Proof.
  intros Hall. cbn zeta. cbn [run]. eff.
  set (w0 := state_of (step IndexeeeeBridge (FromTwilio (Start e)) w)).
  assert (Hw0 : incomingAudioBuffer (sess w0) = [] /\ outgoingAudioBuffer (sess w0) = []
                /\ streamSid (sess w0) = start_streamSid e
                /\ log_of (step IndexeeeeBridge (FromTwilio (Start e)) w) = []).
  { subst w0. cbn [step Indexeeee.on_twilio]. unfold Admin.on_start. by eff. }
  destruct Hw0 as (Hin0 & Hout0 & Hsid0 & Hl0). rewrite Hl0. cbn [app].
  destruct (run_app IndexeeeeBridge inputs [FromTwilio (Stop sid)] w0) as [-> ->].
  destruct (indexeeee_run_audio inputs w0 Hall) as (Hin & Hout & Hsid & Hl).
  rewrite Hin0 in Hin. rewrite Hout0 in Hout. cbn [app] in Hin, Hout.
  set (w1 := state_of (run IndexeeeeBridge inputs w0)) in *.
  cbn [run step Indexeeee.on_twilio]. eff. rewrite app_nil_r.
  rewrite recordings_app, (no_records_recordings _ Hl). cbn [app].
  rewrite indexeeee_on_stop_state, indexeeee_on_stop_log. fields.
  rewrite Hin, Hout, Hsid, Hsid0. split; [|done].
  by destruct (_ || _).
Qed.

Lemma indexeeee_call_is_recorded_in_full_witness :
  recordings
    (log_of (run IndexeeeeBridge
               [ FromTwilio (Start Sample.start_of_call);
                 FromTwilio (Media Sample.chunk);
                 FromAi (AudioDelta (Some (lit "AAAA")) None);
                 FromTwilio (Media Sample.chunk);
                 FromTwilio (Stop (Some (lit "MZ1"))) ]
               (new_world Sample.db))) =
  [ CallSaveRecording (Some (lit "MZ1"))
      [Byte.x00; Byte.x00; Byte.x00; Byte.x00; Byte.x00; Byte.x00]
      [Byte.x00; Byte.x00; Byte.x00] ].
Proof.
  refine (proj1 (indexeeee_call_is_recorded_in_full Sample.start_of_call
                   [ FromTwilio (Media Sample.chunk);
                     FromAi (AudioDelta (Some (lit "AAAA")) None);
                     FromTwilio (Media Sample.chunk) ]
                   (Some (lit "MZ1")) (new_world Sample.db) _)).
  reflexivity.
Defined.

Section StopWithAudio.
Context `{Runtime}.

Lemma status_updates_app l1 l2 :
  status_updates (l1 ++ l2) = status_updates l1 ++ status_updates l2.
Proof.
  induction l1 as [|c l1 IH]; [done|]. destruct c; cbn [app status_updates];
    by rewrite ?IH.
Qed.

Lemma addConversation_status_updates number content isAi db :
  status_updates (log_of (addConversation number content isAi db)) = [].
Proof.
  rewrite addConversation_log. cbn [status_updates].
  by induction (label_update number content isAi db).
Qed.

Lemma updateLeadStatus_log number status db :
  log_of (updateLeadStatus number status db) = [CallUpdateLeadStatus number status].
Proof. unfold updateLeadStatus. eff. by destruct (standardizePhoneNumber number). Qed.

(** Transcribing asks for one transcription, and no status. *)
Lemma transcribeAndSaveRecording_log sid customer path w :
  let l := log_of (Admin.transcribeAndSaveRecording sid customer path w) in
  recordings l = [CallTranscribe sid customer path] /\ status_updates l = [].
Proof.
  cbn zeta. unfold Admin.transcribeAndSaveRecording. eff.
  destruct (transcription path) as [text|]; eff; [|done].
  destruct (updateCallTranscript sid (lit "outgoing") text (store w)) as [db1|]; eff;
    [|done].
  destruct (processAIResponseAndUpdateLead sid text db1) as [db2|]; eff; [|done].
  cbn [app]. unfold recordings. cbn [List.filter records_or_transcribes status_updates].
  fold (recordings (log_of (addConversation customer (lit "Outgoing: " ++ text) true db2))).
  rewrite no_records_recordings by apply addConversation_no_records.
  by rewrite addConversation_status_updates.
Qed.

Lemma updateLeadStatus_found number status db l :
  getLead number (state_of (updateLeadStatus number status db)) = Some l ->
  l_status l = Some status.
Proof.
  destruct (updateLeadStatus_getLead number status db) as [Hfound Hlost].
  destruct (getLead number db) as [l0|] eqn:Hl.
  - rewrite (Hfound l0) by done. by intros [= <-].
  - rewrite Hlost by done. congruence.
Qed.

End StopWithAudio.

(** X24. On [admin.js], a [stop] event with AI audio accumulated saves a
    recording of that audio alone: the caller's audio is passed as an empty
    buffer whatever was accumulated.  When the recording is written, one
    transcription of its file is asked for and the customer's lead is marked
    [call_completed] whether or not the transcription works; when writing
    fails nothing else is done.  The outgoing accumulator is emptied in
    both cases. *)
Theorem admin_stop_records_the_ai_audio_alone `{Runtime} (sid : maybe_string) (w : world) :
  outgoingAudioBuffer (sess w) <> [] ->
  let r := Admin.on_stop sid w in
  let save := CallSaveRecording (streamSid (sess w)) [] (outgoingAudioBuffer (sess w)) in
  match recording_saved (streamSid (sess w)) [] (outgoingAudioBuffer (sess w)) with
  | Some path =>
      recordings (log_of r) =
        [save; CallTranscribe (streamSid (sess w)) (customerNumber (sess w)) path] /\
      status_updates (log_of r) = [(customerNumber (sess w), lit "call_completed")] /\
      (forall l, getLead (customerNumber (sess w)) (store (state_of r)) = Some l ->
                 l_status l = Some (lit "call_completed"))
  | None => log_of r = [save] /\ store (state_of r) = store w
  end /\
  outgoingAudioBuffer (sess (state_of r)) = [] /\
  incomingAudioBuffer (sess (state_of r)) = incomingAudioBuffer (sess w).
Proof.
  intros Hout. cbn zeta.
  assert (Hlen : (0 <? length (outgoingAudioBuffer (sess w)))%nat = true).
  { by destruct (outgoingAudioBuffer (sess w)). }
  destruct (admin_on_stop_state sid w) as [db' Hstate].
  split; [|by rewrite Hstate].
  unfold Admin.on_stop, forget_customer, Admin.saveRecording. eff. rewrite Hlen. eff.
  destruct (recording_saved _ _ _) as [path|]; eff; [|done].
  set (w1 := on_sess _ w).
  destruct (transcribeAndSaveRecording_log (streamSid (sess w)) (customerNumber (sess w))
              path w1) as [Hrec Hstat].
  rewrite updateLeadStatus_log. split; [|split].
  - rewrite !recordings_app, Hrec. reflexivity.
  - rewrite !status_updates_app, Hstat. reflexivity.
  - intros l. apply updateLeadStatus_found.
Qed.

Lemma admin_stop_records_the_ai_audio_alone_witness :
  let w := Sample.world_with
             (set_incomingAudioBuffer [Byte.x01; Byte.x02]
                (set_outgoingAudioBuffer [Byte.x03] Sample.started)) true in
  recordings (log_of (Admin.on_stop (Some (lit "MZ1")) w)) =
    [ CallSaveRecording (Some (lit "MZ1")) [] [Byte.x03];
      CallTranscribe (Some (lit "MZ1")) (Some Sample.phone) (lit "recordings/outgoing.mp3") ].
Proof.
  cbn zeta.
  pose proof (admin_stop_records_the_ai_audio_alone (Some (lit "MZ1"))
                (Sample.world_with
                   (set_incomingAudioBuffer [Byte.x01; Byte.x02]
                      (set_outgoingAudioBuffer [Byte.x03] Sample.started)) true)) as Hstop.
  cbn zeta in Hstop. apply Hstop. discriminate.
Defined.

(** ** The bridge: turns, the greeting and the session update *)

Section TurnText.
Context `{Runtime}.

Lemma twilio_sends_app l1 l2 :
  twilio_sends (l1 ++ l2) = twilio_sends l1 ++ twilio_sends l2.
Proof.
  induction l1 as [|c l1 IH]; [done|]. destruct c; cbn [app twilio_sends];
    by rewrite ?IH.
Qed.

Lemma timers_set_app l1 l2 : timers_set (l1 ++ l2) = timers_set l1 ++ timers_set l2.
Proof.
  induction l1 as [|c l1 IH]; [done|]. destruct c; cbn [app timers_set];
    by rewrite ?IH.
Qed.

Lemma ai_sends_app l1 l2 : ai_sends (l1 ++ l2) = ai_sends l1 ++ ai_sends l2.
Proof.
  induction l1 as [|c l1 IH]; [done|]. destruct c; cbn [app ai_sends];
    by rewrite ?IH.
Qed.

Lemma on_text_delta_eq delta w :
  on_text_delta delta w =
  (tt, on_sess (fun s => set_accumulatedText (accumulatedText s ++ default [] delta) s) w,
   []).
Proof.
  unfold on_text_delta, when, assign, modify, ret.
  destruct delta as [[|c d]|]; cbn [truthy default from_option id]; try reflexivity;
    unfold on_sess; rewrite app_nil_r; destruct w as [[]]; reflexivity.
Qed.

(** Text deltas add up in [accumulatedText] and make no call. *)
Lemma run_text_deltas b deltas w :
  b <> IndexeeeeBridge ->
  run b (List.map (fun d => FromAi (TextDelta d)) deltas) w =
  (tt,
   on_sess (fun s => set_accumulatedText
                       (accumulatedText s ++ List.flat_map (default []) deltas) s) w,
   []).
Proof.
  intros Hb. revert w. induction deltas as [|d deltas IH]; intros w.
  - cbn [List.map run List.flat_map]. unfold ret, on_sess. rewrite app_nil_r.
    destruct w as [[]]; reflexivity.
  - cbn [List.map run List.flat_map]. apply result_eq; eff.
    + by destruct (value_of _).
    + assert (Hstep : step b (FromAi (TextDelta d)) w = on_text_delta d w)
        by (by destruct b).
      rewrite Hstep, on_text_delta_eq, IH. eff. unfold on_sess. fields.
      by rewrite app_assoc.
    + assert (Hstep : step b (FromAi (TextDelta d)) w = on_text_delta d w)
        by (by destruct b).
      rewrite Hstep, on_text_delta_eq, IH. by eff.
Qed.

Lemma addConversation_no_frames number content isAi db :
  twilio_sends (log_of (addConversation number content isAi db)) = [] /\
  timers_set (log_of (addConversation number content isAi db)) = [].
Proof.
  rewrite addConversation_log. cbn [twilio_sends timers_set].
  by induction (label_update number content isAi db).
Qed.

End TurnText.

(** X25. A turn speaks what its deltas add up to: when the text deltas of a
    turn are followed by [response.content.done], the one frame sent to the
    telephony socket is the text-to-speech frame with the text accumulated
    before followed by the deltas in order; the same text is what is handed
    to [addConversation] when the session has a customer number; the
    accumulated text is empty afterwards and one nudge is scheduled for five
    seconds later. *)
Theorem turn_speaks_the_accumulated_text `{Runtime} (b : bridge)
    (deltas : list maybe_string) (w : world) :
  b <> IndexeeeeBridge ->
  let r := run b (List.map (fun d => FromAi (TextDelta d)) deltas ++ [FromAi ContentDone]) w in
  let text := accumulatedText (sess w) ++ List.flat_map (default []) deltas in
  twilio_sends (log_of r) = [OutTts (streamSid (sess w)) text] /\
  timers_set (log_of r) = [(ContinueConversation, 5000)] /\
  accumulatedText (sess (state_of r)) = [] /\
  (truthy (customerNumber (sess w)) = true ->
   In (CallAddConversation (customerNumber (sess w)) text true) (log_of r)).
Proof.
  intros Hb. cbn zeta.
  destruct (run_app b (List.map (fun d => FromAi (TextDelta d)) deltas)
              [FromAi ContentDone] w) as [-> ->].
  rewrite (run_text_deltas b deltas w Hb). eff. cbn [app run]. eff.
  set (w1 := on_sess _ w).
  assert (Hstep : step b (FromAi ContentDone) w1 = on_content_done w1) by (by destruct b).
  rewrite Hstep, app_nil_r, on_content_done_sess, on_content_done_log.
  subst w1. fields.
  destruct (addConversation_no_frames (customerNumber (sess w))
              (accumulatedText (sess w) ++ List.flat_map (default []) deltas) true (store w))
    as [Htw Hts].
  split; [|split; [|split]].
  - rewrite twilio_sends_app. destruct (truthy (customerNumber (sess w))); [|done].
    rewrite twilio_sends_app, Htw. by destruct (Regex.exec _ _).
  - rewrite timers_set_app. destruct (truthy (customerNumber (sess w))); [|done].
    rewrite timers_set_app, Hts. by destruct (Regex.exec _ _).
  - done.
  - intros ->. apply in_or_app. left. apply in_or_app. left.
    rewrite addConversation_log. by left.
Qed.

Lemma turn_speaks_the_accumulated_text_witness :
  twilio_sends
    (log_of (run AdminBridge
               [ FromAi (TextDelta (Some (lit "Thank you, ")));
                 FromAi (TextDelta None);
                 FromAi (TextDelta (Some (lit "goodbye.")));
                 FromAi ContentDone ]
               (Sample.world_with Sample.started true))) =
  [OutTts (Some (lit "MZ1")) (lit "Thank you, goodbye.")].
Proof.
  refine (proj1 (turn_speaks_the_accumulated_text AdminBridge
                   [Some (lit "Thank you, "); None; Some (lit "goodbye.")]
                   (Sample.world_with Sample.started true) _)).
  discriminate.
Defined.

Section Deaf.
Context `{Runtime}.

Lemma realtime_media_numberless m w :
  numberless w ->
  numberless (state_of (Realtime.on_media m w)) /\
  log_of (Realtime.on_media m w) = [] /\
  store (state_of (Realtime.on_media m w)) = store w /\
  timers (state_of (Realtime.on_media m w)) = timers w.
Proof.
  intros [Hc Hm]. unfold Realtime.on_media. eff. rewrite Hc.
  assert (Hv : truthy (default None (customerNumbers (sess w) !! streamSid (sess w)))
               = false).
  { destruct (customerNumbers (sess w) !! streamSid (sess w)) as [v|] eqn:E; [|done].
    by apply Hm. }
  cbv iota. rewrite Hv. cbn [negb]. eff. split; [|done].
  unfold numberless. fields. rewrite Hc. by split.
Qed.

Lemma realtime_medias_numberless ms w :
  numberless w ->
  let r := run RealtimeBridge (List.map (fun m => FromTwilio (Media m)) ms) w in
  log_of r = [] /\ store (state_of r) = store w /\ timers (state_of r) = timers w.
Proof.
  revert w. induction ms as [|m ms IH]; intros w Hw; cbn zeta; [done|].
  cbn [List.map run step Realtime.on_twilio]. eff.
  destruct (realtime_media_numberless m w Hw) as (Hw' & -> & Hs & Ht).
  destruct (IH _ Hw') as (-> & -> & ->). done.
Qed.

Lemma realtime_start_numberless e w :
  customerNumbers (sess w) = ∅ ->
  standardizePhoneNumber
    (Realtime.or_else (start_customerNumber e)
       (Realtime.or_else (start_To e) (start_to e))) = None ->
  numberless (state_of (Realtime.on_start e w)).
Proof.
  intros Hmap Hstd. unfold Realtime.on_start. eff.
  destruct (truthy (Realtime.or_else _ _)) eqn:Ht; eff; unfold numberless; fields.
  - rewrite Hstd. split; [done|]. intros v. rewrite lookup_insert_eq. by intros [= <-].
  - split; [done|]. intros v. by rewrite Hmap, lookup_empty.
Qed.

End Deaf.

(** X26. In the realtime bridge, a call whose [start] event gives no number
    with a canonical form is greeted at most and then ignored: the greeting
    is sent exactly when some number was given, and every [media] event that
    follows returns early, so that no audio is forwarded to the AI, no
    silence timer is armed and the store is not written. *)
Theorem realtime_call_without_a_number_is_ignored `{Runtime} (e : start_event)
    (ms : list media_event) (w : world) :
  customerNumbers (sess w) = ∅ ->
  let customer :=
    Realtime.or_else (start_customerNumber e) (Realtime.or_else (start_To e) (start_to e)) in
  standardizePhoneNumber customer = None ->
  let r := run RealtimeBridge
             (FromTwilio (Start e) :: List.map (fun m => FromTwilio (Media m)) ms) w in
  log_of r =
    (if truthy customer
     then [TwilioSend (OutTts (start_streamSid e) (lit "Hello! How can I assist you today?"))]
     else []) /\
  store (state_of r) = store w /\
  timers (state_of r) = timers w.
Proof.
  intros Hmap customer Hstd. cbn zeta. cbn [run step Realtime.on_twilio]. eff.
  pose proof (realtime_start_numberless e w Hmap Hstd) as Hw1.
  destruct (realtime_medias_numberless ms _ Hw1) as (-> & -> & ->).
  rewrite app_nil_r. unfold Realtime.on_start. fold customer. eff.
  by destruct (truthy customer); eff.
Qed.

Lemma realtime_call_without_a_number_is_ignored_witness :
  log_of (run RealtimeBridge
            [ FromTwilio (Start {| start_streamSid := Some (lit "MZ1");
                                   start_customerNumber := Some (lit "691-2510");
                                   start_To := None; start_to := None |});
              FromTwilio (Media Sample.chunk);
              FromTwilio (Media Sample.chunk) ]
            (Sample.world_with new_session true)) =
  [TwilioSend (OutTts (Some (lit "MZ1")) (lit "Hello! How can I assist you today?"))].
Proof.
  refine (proj1 (realtime_call_without_a_number_is_ignored
                   {| start_streamSid := Some (lit "MZ1");
                      start_customerNumber := Some (lit "691-2510");
                      start_To := None; start_to := None |}
                   [Sample.chunk; Sample.chunk]
                   (Sample.world_with new_session true) _ _)); reflexivity.
Defined.

(** X27. The session update follows the opening of the AI socket by 100
    milliseconds: in [admin.js] and in the realtime bridge it is the one
    frame sent to the AI once the clock has reached that time, and nothing
    is sent before; [indexeeee.js], whose [initializeSession] is a
    placeholder with no [open] handler, never sends it. *)
Theorem session_update_follows_the_open `{Runtime} (b : bridge) (T : N) (w : world) :
  timers w = [] ->
  ai_sends (log_of (run b [AiOpened; Elapse T] w)) =
  match b with
  | IndexeeeeBridge => []
  | _ => if now w + 100 <=? T then [SessionUpdate] else []
  end.
Proof.
  intros Ht. destruct w as [s db o n ts nt]. cbn [timers now] in *. subst ts.
  destruct b; cbn [run step]; unfold on_ai_open, setTimeout, elapse, bind, modify, ret;
    cbn [timers on_timers on_nextTimer on_aiOpen app length elapse_rounds earliest
         due handle task now nextTimer sess store aiOpen];
    try (destruct (n + 100 <=? T));
    unfold bind, modify, emit, ret, run_task;
    cbn [timers on_timers on_now on_nextTimer on_aiOpen app length elapse_rounds earliest
         due handle task now nextTimer sess store aiOpen List.filter negb];
    rewrite ?N.eqb_refl; reflexivity.
Qed.

Lemma session_update_follows_the_open_witness :
  ai_sends (log_of (run AdminBridge [AiOpened; Elapse 99] (new_world Sample.db))) = [] /\
  ai_sends (log_of (run AdminBridge [AiOpened; Elapse 100] (new_world Sample.db))) =
    [SessionUpdate].
Proof.
  split.
  - apply (session_update_follows_the_open AdminBridge 99 (new_world Sample.db)).
    reflexivity.
  - apply (session_update_follows_the_open AdminBridge 100 (new_world Sample.db)).
    reflexivity.
Defined.

(** ** Valid addresses *)

Section ValidEmail.
Import Regex.

Lemma run_valid_eq prev pos s c :
  run_then validEmailRegex at_end prev pos s c =
  rep plain_class 1
    (fun _ pos s c =>
       match s with
       | x :: s' =>
           if 64 =? x then
             rep plain_class 1
               (fun _ pos s c =>
                  match s with
                  | x :: s' =>
                      if 46 =? x then rep plain_class 1 at_end (Some x) (S pos) s' c
                      else None
                  | [] => None
                  end) (Some x) (S pos) s' c
           else None
       | [] => None
       end) prev pos s c.
Proof. reflexivity. Qed.

Lemma is_Some_bool {A} (o : option A) :
  match o with Some _ => true | None => false end = true <-> is_Some o.
Proof. destruct o; split; done. Qed.

(** A code unit of one of the classes of the extraction pattern is neither
    white space nor [@]. *)
Lemma class_plain c :
  local_class c = true \/ domain_class c = true \/ tld_class c = true ->
  plain_class c = true.
Proof.
  intros Hc.
  assert (Hr : 37 <= c <= 124 /\ c <> 64).
  { unfold local_class, domain_class, tld_class, is_alnum, is_alpha, is_upper, is_lower,
      is_digit, in_range in Hc.
    repeat rewrite ?orb_true_iff, ?andb_true_iff, ?N.leb_le, ?N.eqb_eq in Hc. lia. }
  unfold plain_class, is_space, in_range. apply negb_true_iff.
  repeat rewrite ?orb_false_iff, ?andb_false_iff, ?N.leb_gt, ?N.eqb_neq. lia.
Qed.

End ValidEmail.

Lemma isValidEmail_accepts_three_plain_parts_aux email :
  (exists l d t,
    email = l ++ 64 :: d ++ 46 :: t /\
    l <> [] /\ d <> [] /\ t <> [] /\
    Forall (fun c => plain_class c = true) (l ++ d ++ t)) ->
  isValidEmail email = true.
Proof.
  unfold isValidEmail. rewrite is_Some_bool, run_valid_eq.
  intros (l & d & t & -> & Hl & Hd & Ht & Hall).
  rewrite !Forall_app in Hall. destruct Hall as (Fl & Fd & Ft).
  apply rep_complete; [done | destruct l; [done | cbn; lia] |].
  change (64 =? 64) with true. cbv iota.
  apply rep_complete; [done | destruct d; [done | cbn; lia] |].
  change (46 =? 46) with true. cbv iota.
  rewrite <- (app_nil_r t).
  apply rep_complete; [done | destruct t; [done | cbn; lia] |].
  by eexists.
Qed.

(** X28. [isValidEmail] accepts exactly the strings [local@domain.tld] whose
    three parts are not empty and hold neither white space nor [@]; the
    domain and the last part may themselves hold dots. *)
Theorem isValidEmail_accepts_three_plain_parts (email : jsstring) :
  isValidEmail email = true <->
  exists l d t,
    email = l ++ 64 :: d ++ 46 :: t /\
    l <> [] /\ d <> [] /\ t <> [] /\
    Forall (fun c => plain_class c = true) (l ++ d ++ t).
Proof.
  unfold isValidEmail. rewrite is_Some_bool, run_valid_eq. split.
  - intros [r Hr].
    apply rep_sound in Hr as (l & b & -> & Hl & Hl1 & Hk & _).
    destruct b as [|x b]; [done|]. destruct (N.eqb_spec 64 x) as [<-|]; [|done].
    apply rep_sound in Hk as (d & b2 & -> & Hd & Hd1 & Hk & _).
    destruct b2 as [|y b2]; [done|]. destruct (N.eqb_spec 46 y) as [<-|]; [|done].
    apply rep_sound in Hk as (t & b3 & -> & Ht & Ht1 & Hk & _).
    destruct b3 as [|z b3]; [|done]. rewrite app_nil_r.
    exists l, d, t. split; [done|].
    split; [intros ->; cbn in Hl1; lia|]. split; [intros ->; cbn in Hd1; lia|].
    split; [intros ->; cbn in Ht1; lia|]. by rewrite !Forall_app.
  - rewrite <- run_valid_eq, <- is_Some_bool.
    apply isValidEmail_accepts_three_plain_parts_aux.
Qed.

Lemma isValidEmail_accepts_three_plain_parts_witness :
  isValidEmail (lit "jane.doe@mail.example.com") = true /\
  isValidEmail (lit "jane doe@example.com") = false /\
  isValidEmail (lit "jane@example") = false.
Proof.
  split; [|split; reflexivity].
  apply isValidEmail_accepts_three_plain_parts.
  exists (lit "jane.doe"), (lit "mail.example"), (lit "com").
  split; [reflexivity|]. split; [done|]. split; [done|]. split; [done|].
  apply Forall_forall. intros c Hc. apply list_elem_of_In in Hc.
  vm_compute in Hc. repeat (destruct Hc as [<-|Hc]; [reflexivity|]). done.
Defined.

(** X29. Every address that the extraction pattern takes out of an AI
    response is one that [isValidEmail] accepts. *)
Theorem extracted_address_is_valid (text : jsstring) (m : Regex.match_array) :
  Regex.exec emailRegex text = Some m -> isValidEmail (Regex.matched m) = true.
Proof.
  intros Hm. apply exec_emailRegex_sound in Hm as (i & j & Ho & -> & _).
  apply occurs_parts in Ho as (pre & l & d & t & post & -> & <- & -> & Hparts & _).
  destruct Hparts as (Hl & Fl & Hd & Fd & Ht & Ft).
  cbn [Regex.matched]. unfold substring.
  rewrite drop_app_length.
  replace (length pre + length (EmailShape.address l d t) - length pre)%nat
    with (length (EmailShape.address l d t)) by lia.
  rewrite take_app_length.
  apply isValidEmail_accepts_three_plain_parts_aux. exists l, d, t.
  split; [done|]. split; [done|]. split; [done|].
  split; [intros ->; cbn in Ht; lia|].
  rewrite !Forall_app. repeat split.
  - eapply Forall_impl; [exact Fl|]. intros c Hc. apply class_plain. by left.
  - eapply Forall_impl; [exact Fd|]. intros c Hc. apply class_plain. right. by left.
  - eapply Forall_impl; [exact Ft|]. intros c Hc. apply class_plain. right. by right.
Qed.

Lemma extracted_address_is_valid_witness :
  isValidEmail (lit "jane.doe@example.com") = true.
Proof.
  apply (extracted_address_is_valid
           (lit "Thank you, I've recorded your email as jane.doe@example.com.")
           {| Regex.matched := lit "jane.doe@example.com"; Regex.captured := None |}).
  vm_compute. reflexivity.
Defined.

(** ** The bridge: the AI's audio *)

Section AudioDeltas.
Context `{Runtime}.

Lemma audio_delta_step b delta item w :
  let r := step b (FromAi (AudioDelta delta item)) w in
  twilio_sends (log_of r) = delta_frames b (streamSid (sess w)) delta /\
  markQueue (sess (state_of r)) =
    markQueue (sess w) ++ marks_of (delta_frames b (streamSid (sess w)) delta) /\
  streamSid (sess (state_of r)) = streamSid (sess w).
Proof.
  cbn zeta. unfold delta_frames.
  destruct b; cbn [step Admin.on_ai Realtime.on_ai Indexeeee.on_ai];
    unfold Admin.on_audio_delta, Realtime.on_audio_delta, Indexeeee.on_audio_delta,
      sendMark; eff;
    (destruct (truthy delta); eff; [|by rewrite app_nil_r]);
    destruct (negb (jtruthy (responseStartTimestampTwilio (sess w)))),
      (truthy item), (truthy (streamSid (sess w))) eqn:Hs;
    eff; rewrite ?Hs; eff; rewrite ?app_nil_r; done.
Qed.

End AudioDeltas.

(** X30. Every audio delta of the AI that carries audio is passed on to the
    telephony socket re-encoded, in order, under the session's stream
    identifier.  In [admin.js] and in the realtime bridge each is followed
    by one mark when the stream identifier is known, and the pending-mark
    queue grows by that mark; [indexeeee.js], whose [sendMark] is a
    placeholder, sends no mark and queues none. *)
Theorem audio_deltas_are_forwarded_with_marks `{Runtime} (b : bridge)
    (deltas : list (maybe_string * maybe_string)) (w : world) :
  let r := run b (List.map (fun di => FromAi (AudioDelta di.1 di.2)) deltas) w in
  let frames := List.flat_map (fun di => delta_frames b (streamSid (sess w)) di.1) deltas in
  twilio_sends (log_of r) = frames /\
  markQueue (sess (state_of r)) = markQueue (sess w) ++ marks_of frames.
Proof.
  cbn zeta. revert w. induction deltas as [|[delta item] deltas IH]; intros w.
  { cbn [List.map run List.flat_map]. eff. by rewrite app_nil_r. }
  cbn [List.map run List.flat_map fst snd]. eff.
  destruct (audio_delta_step b delta item w) as (Hlog & Hq & Hsid).
  destruct (IH (state_of (step b (FromAi (AudioDelta delta item)) w))) as [IHlog IHq].
  rewrite twilio_sends_app, Hlog, IHlog, IHq, Hq, Hsid. split; [done|].
  unfold marks_of. by rewrite omap_app, app_assoc.
Qed.
